(** * Selection assembly and legend parsing of the visualization compiler

    A shallow embedding of the selection assembler of [compile/selection]
    and of [compile/legend/parse.ts]: the expression assembler, the
    selection predicate and scale-domain rewriter, the store datasets,
    the interactive-legend binder and the legend merge of composite
    views. *)

From Stdlib Require Import ZArith QArith_base String Ascii List.
From stdpp Require Import base option list strings gmap pretty.

Local Open Scope list_scope.
Set Warnings "-register-all,-clear-no-such-hyp".

(** ** JavaScript helpers used by both files *)

Module Util.

(** [Array.prototype.join] on an array of strings. *)
Fixpoint join (sep : string) (l : list string) : string :=
  match l with
  | [] => ""
  | x :: l' =>
      match l' with
      | [] => x
      | _ :: _ => x +:+ sep +:+ join sep l'
      end
  end.

(** [Array.prototype.indexOf]: the first position of [x], or [-1]. *)
Fixpoint indexOf (x : string) (l : list string) : Z :=
  match l with
  | [] => (-1)%Z
  | y :: l' =>
      if String.eqb y x then 0%Z
      else let i := indexOf x l' in
           if (i <? 0)%Z then (-1)%Z else (i + 1)%Z
  end.

(** [a.filter((v, i, a) => p(v, i))], the index counted from [i]. *)
Fixpoint filter_index {A} (p : A -> Z -> bool) (i : Z) (l : list A) : list A :=
  match l with
  | [] => []
  | v :: l' =>
      if p v i then v :: filter_index p (i + 1)%Z l'
      else filter_index p (i + 1)%Z l'
  end.

(** [a.filter((v, i, a) => a.indexOf(v) === i)]: the first occurrence of
    every element is kept. *)
Definition unique (a : list string) : list string :=
  filter_index (fun v i => (indexOf v a =? i)%Z) 0%Z a.

(** [[].concat.apply([], xs)]: one level of flattening. *)
Definition flatten {A} (xs : list (list A)) : list A := List.concat xs.

(** [s.slice(0, -n)] on a string. *)
Definition slice_end (n : nat) (s : string) : string :=
  String.substring 0 (String.length s - n) s.

(** Truthiness of a JavaScript string: only the empty string is falsy. *)
Definition truthy_string (s : string) : bool :=
  negb (String.eqb s "").

(** Truthiness of an optional string property: [undefined] and [''] are
    falsy. *)
Definition truthy (o : option string) : bool :=
  match o with
  | Some s => truthy_string s
  | None => false
  end.

(** [s.replace(pat, '')]: the first occurrence of [pat] is removed. *)
Fixpoint remove_first (pat s : string) : string :=
  if String.prefix pat s
  then String.substring (String.length pat) (String.length s - String.length pat) s
  else match s with
       | EmptyString => EmptyString
       | String c s' => String c (remove_first pat s')
       end.

(** [identity] of vega-util. *)
Definition identity (s : string) : string := s.

(** The double-quote character. *)
Definition dquote : string := String (ascii_of_nat 34) EmptyString.

End Util.

Import Util.

(** ** Constants *)

(** The name suffixes and expression-function names exported by the
    index module of [compile/selection], which is not among the sources;
    each is given the value the spec's expressions show. *)

(** Modelled from the spec: [STORE], the suffix of the store dataset
    [<selection>_store]. *)
Definition STORE : string := "_store".

(** Modelled from the spec: [TUPLE], the suffix of the tuple signal,
    whose fields are [<name>_tuple_fields]. *)
Definition TUPLE : string := "_tuple".

(** Modelled from the spec: [MODIFY], the suffix of the [modify]-suffixed
    signal. *)
Definition MODIFY : string := "_modify".

(** Modelled from the spec: [LEGEND], the suffix of the legend marks
    [symbols_<field>_legend] and [labels_<field>_legend]. *)
Definition LEGEND : string := "_legend".

(** Modelled from the spec: [VL_SELECTION_TEST], the selection-test
    predicate, which the predicate assembler writes out as
    [vlSelectionTest]. *)
Definition VL_SELECTION_TEST : string := "vlSelectionTest".

(** Modelled from the spec: [SELECTION_DOMAIN], the string-encoded marker
    in front of the payload of a provisional scale domain. *)
Definition SELECTION_DOMAIN : string := "_selection_domain_".

(** ** Data model *)

(** The visual channels a legend is parsed for
    ([NonPositionScaleChannel]). *)
Inductive Channel :=
  | COLOR | FILL | STROKE | STROKEWIDTH | SIZE | SHAPE
  | OPACITY | FILLOPACITY | STROKEOPACITY.

Definition Channel_to_nat (c : Channel) : nat :=
  match c with
  | COLOR => 0 | FILL => 1 | STROKE => 2 | STROKEWIDTH => 3 | SIZE => 4
  | SHAPE => 5 | OPACITY => 6 | FILLOPACITY => 7 | STROKEOPACITY => 8
  end.

Definition Channel_of_nat (n : nat) : option Channel :=
  match n with
  | 0 => Some COLOR | 1 => Some FILL | 2 => Some STROKE
  | 3 => Some STROKEWIDTH | 4 => Some SIZE | 5 => Some SHAPE
  | 6 => Some OPACITY | 7 => Some FILLOPACITY | 8 => Some STROKEOPACITY
  | _ => None
  end.

#[global] Instance Channel_eq_dec : EqDecision Channel.
Proof. solve_decision. Defined.

#[global] Instance Channel_countable : Countable Channel :=
  inj_countable Channel_to_nat Channel_of_nat
    (fun c => match c with
              | COLOR | FILL | STROKE | STROKEWIDTH | SIZE | SHAPE
              | OPACITY | FILLOPACITY | STROKEOPACITY => eq_refl
              end).

(** ['global' | 'union' | 'intersect']. *)
Inductive SelectionResolution := Global | Union | Intersect.

Definition resolution_string (r : SelectionResolution) : string :=
  match r with
  | Global => "global"
  | Union => "union"
  | Intersect => "intersect"
  end.

(** ['all' | 'none']. *)
Inductive EmptyPolicy := EmptyAll | EmptyNone.

(** One entry of a projection. *)
Record SelectionProjection := {
  p_field : string;
  p_channel : option string
}.

(** [selCmpt.project]: the entries, and the time-unit node it may carry
    (named by its label). *)
Record Projection := {
  items : list SelectionProjection;
  timeUnit : option string
}.

Record SelectionComponent := {
  name : string;
  resolve : SelectionResolution;
  empty : EmptyPolicy;
  project : Projection;
  fields : option (list string)
}.

(** A field definition of an encoding channel; the three flags record
    [hasOwnProperty('bin' | 'aggregate' | 'timeUnit')]. *)
Record FieldDef := {
  field : string;
  has_bin : bool;
  has_aggregate : bool;
  has_timeUnit : bool
}.

(** A dataflow node as far as the selection assembler looks at it: the
    labels of its ancestors, the nearest first ([parent] is the head). *)
Record DataFlowNode := {
  ancestors : list string
}.

(** A view model.  [getSelectionComponent], [fieldDef] are the model's
    methods (the model class is not among the sources), [selection] is
    [component.selection] as the ordered list of its entries, [raw] is
    [component.data.raw]. *)
Inductive Model := Build_Model {
  model_name : string;
  parent : option Model;
  selection : list (string * SelectionComponent);
  getSelectionComponent : string -> string -> option SelectionComponent;
  fieldDef : Channel -> option FieldDef;
  raw : DataFlowNode
}.

(** [model.component.selection[key]]. *)
Fixpoint own_selection (key : string) (sels : list (string * SelectionComponent))
  : option SelectionComponent :=
  match sels with
  | [] => None
  | (k, c) :: rest => if String.eqb k key then Some c else own_selection key rest
  end.

(** [forEachSelection(model, cb)] visits the components in key order. *)
Definition selections_of (model : Model) : list SelectionComponent :=
  map snd (selection model).


(** A date/time literal of the specification language. *)
Record DateTime := {
  year : option Z;
  quarter : option Z;
  month : option (Z + string);
  date : option Z;
  day : option (Z + string);
  hours : option Z;
  minutes : option Z;
  seconds : option Z;
  milliseconds : option Z;
  utc : option bool
}.

(** A JavaScript number: not-a-number, an infinity, a zero of either
    sign, or a finite number other than zero.  A finite number is given
    by its sign and by the integers [s] and [n] that [Number::toString]
    starts from: with [k] the number of decimal digits of [s], the
    absolute value is [s * 10^(n - k)], and [s] is the shortest digit
    string that still denotes the number (5 is [s = 5, n = 1]; 0.25 is
    [s = 25, n = 0]; 1e21 is [s = 1, n = 22]). *)
Inductive JsNumber :=
  | JsNaN
  | JsInfinity (negative : bool)
  | JsZero
  | JsFinite (negative : bool) (s : positive) (n : Z).

(** [SelectionInit = boolean | number | string | DateTime]. *)
Inductive SelectionInit :=
  | InitBool (b : bool)
  | InitNum (n : JsNumber)
  | InitStr (s : string)
  | InitDateTime (d : DateTime).

(** The argument of [assembleInit]: a value or an array, recursively. *)
Inductive Init :=
  | InitValue (v : SelectionInit)
  | InitArray (l : list Init).

(** [LogicalOperand<string>]: a selection name or a NOT/AND/OR over
    operands. *)
Inductive LogicalOperand :=
  | Leaf (s : string)
  | LogicalNot (o : LogicalOperand)
  | LogicalAnd (l : list LogicalOperand)
  | LogicalOr (l : list LogicalOperand).

(** A Vega signal reference [{signal: ...}]. *)
Record SignalRef := { signal : string }.

(** The decoded payload of a provisional selection domain. *)
Record SelectionDomain := {
  sd_selection : string;
  sd_encoding : option string;
  sd_field : option string
}.

(** An event stream object [{source, type}]. *)
Record Stream := { source : string; type : string }.

(** The [events] of a handler: a selector string or stream objects. *)
Inductive Events :=
  | EventSelector (s : string)
  | EventStreams (l : list Stream).

(** One handler rule [{events, update}] of a signal. *)
Record Handler := {
  events : Events;
  update : string
}.

(** A signal [{name, on, update}]; a signal without [on] has the empty
    list, which faults at [on[0].update] all the same. *)
Record Signal := {
  s_name : string;
  on : list Handler;
  s_update : option string
}.


(** [InteractiveSelections] of [compile/legend/component]. *)
Record InteractiveSelections := {
  i_name : string;
  i_store : string;
  i_fields : list string
}.

(** A literal of an encode block or of a legend property. *)
Inductive Lit :=
  | LNum (q : Q)
  | LStr (s : string)
  | LBool (b : bool).

(** A value reference [{test?, value?, signal?}] of an encode block. *)
Record ValueRef := {
  vr_test : option string;
  vr_value : option Lit;
  vr_signal : option string
}.

(** The value under a key of an encode [update] object: one value
    reference, or an array of conditional ones. *)
Inductive EncodeValue :=
  | Plain (r : ValueRef)
  | Rules (l : list ValueRef).

(** One part of a legend encode block: [{name?, interactive?, update?}]. *)
Record EncodeEntry := {
  e_name : option string;
  e_interactive : option bool;
  e_update : option (gmap string EncodeValue)
}.

(** The value of a legend property; [encode] holds a [LegendEncode], the
    object from part names to entries. *)
Inductive LegendValue :=
  | LegendLit (l : Lit)
  | LegendArray (l : list Lit)
  | LegendEncode (e : gmap string EncodeEntry).

#[global] Instance Q_eq_dec : EqDecision Q.
Proof. solve_decision. Defined.
#[global] Instance Lit_eq_dec : EqDecision Lit.
Proof. solve_decision. Defined.
#[global] Instance ValueRef_eq_dec : EqDecision ValueRef.
Proof. solve_decision. Defined.
#[global] Instance EncodeValue_eq_dec : EqDecision EncodeValue.
Proof. solve_decision. Defined.
#[global] Instance EncodeEntry_eq_dec : EqDecision EncodeEntry.
Proof. solve_decision. Defined.
#[global] Instance LegendValue_eq_dec : EqDecision LegendValue.
Proof. solve_decision. Defined.

(** Modelled from the spec: [Explicit<T>] of [compile/split], a value
    (or [undefined]) with its provenance. *)
Record Explicit := {
  explicit : bool;
  value : option LegendValue
}.

(** Modelled from the spec: a legend component, the property map from
    property names to values with their provenance, kept as the explicit
    and the implicit half the source reads ([.explicit], [.implicit]). *)
Record LegendComponent := {
  split_explicit : gmap string LegendValue;
  split_implicit : gmap string LegendValue
}.

(** ['shared' | 'independent']. *)
Inductive ResolveMode := Shared | Independent.

#[global] Instance ResolveMode_eq_dec : EqDecision ResolveMode.
Proof. solve_decision. Defined.

(** [component.resolve]: the scale and legend resolutions by channel. *)
Record Resolve := {
  r_scale : gmap Channel ResolveMode;
  r_legend : gmap Channel ResolveMode
}.

(** Induction on a logical operand, with the hypothesis for every operand
    of an AND and of an OR. *)
Fixpoint LogicalOperand_nested_ind (P : LogicalOperand -> Prop)
    (HLeaf : forall s, P (Leaf s))
    (HNot : forall o, P o -> P (LogicalNot o))
    (HAnd : forall l, Forall P l -> P (LogicalAnd l))
    (HOr : forall l, Forall P l -> P (LogicalOr l))
    (op : LogicalOperand) : P op :=
  let all := fix all (l : list LogicalOperand) : Forall P l :=
    match l with
    | [] => @List.Forall_nil _ P
    | o :: l' => @List.Forall_cons _ P o l' (LogicalOperand_nested_ind P HLeaf HNot HAnd HOr o) (all l')
    end in
  match op with
  | Leaf s => HLeaf s
  | LogicalNot o => HNot o (LogicalOperand_nested_ind P HLeaf HNot HAnd HOr o)
  | LogicalAnd l => HAnd l (all l)
  | LogicalOr l => HOr l (all l)
  end.

(** ** The collaborators outside the sources *)

(** Functions of libraries ([vega-util], the JavaScript built-ins) and of
    modules of the compiler that are not among the sources; the
    development is parametric in them. *)
Class External := {
  (** [stringValue] of vega-util on a string. *)
  stringValue : string -> string;
  (** [JSON.stringify] on a string and on a date/time object. *)
  json_string : string -> string;
  json_object : DateTime -> string;
  (** [JSON.parse] of the selection-domain payload. *)
  json_parse : string -> option SelectionDomain;
  (** [varName] and [accessPathWithDatum] of [util]; the latter throws
      where [splitAccessPath] rejects the path (an unclosed bracket or
      quote), which is [None] here. *)
  varName : string -> string;
  accessPathWithDatum : string -> string -> option string;
  (** [isDateTime] (a type guard on objects) and [dateTimeExpr] of
      [datetime]. *)
  isDateTime : DateTime -> bool;
  dateTimeExpr : DateTime -> string;
  (** [unitName] of [compile/selection]. *)
  unitName : Model -> string
}.

(** The selection-type compilers and the selection transforms: the
    plug-in interface of [compile/selection], consumed here. *)
Record SelectionCompiler := {
  c_signals : Model -> SelectionComponent -> list Signal;
  c_modifyExpr : Model -> SelectionComponent -> string
}.

Record TransformCompiler := {
  t_signals : option (Model -> SelectionComponent -> list Signal -> list Signal);
  t_modifyExpr : option (Model -> SelectionComponent -> string -> string)
}.

Class Compilers := {
  (** the compiler [forEachSelection] hands to its callback *)
  compiler : SelectionComponent -> SelectionCompiler;
  (** the transforms [forEachTransform] visits, in their order *)
  transforms : SelectionComponent -> list TransformCompiler
}.

(** What the legend merge takes from [legend], [compile/common] and
    [compile/resolve]. *)
Class LegendExternal := {
  VG_LEGEND_PROPERTIES : list string;
  mergeTitleComponent : Explicit -> Explicit -> Explicit;
  parseGuideResolve : Resolve -> Channel -> ResolveMode
}.

(** ** [compile/legend/parse.ts] *)


Module LegendParse.
Section InteractiveLegend.
Context `{External}.

(** The body of the [forEachSelection] callback of
    [interactiveLegendExists]. *)
Definition push_projecting (selections : list InteractiveSelections)
    (selCmpt : SelectionComponent) : list InteractiveSelections :=
  match fields selCmpt with
  | Some fs =>
      selections ++ [ {| i_name := name selCmpt;
                         i_store := stringValue (name selCmpt +:+ STORE);
                         i_fields := fs |} ]
  | None => selections
  end.

(** The body of the loop over [COLOR, OPACITY, SIZE, SHAPE]. *)
Definition push_encoding_field (model : Model) (encodingFields : list string)
    (channel : Channel) : list string :=
  match fieldDef model channel with
  | Some fd =>
      if negb (has_bin fd || has_aggregate fd || has_timeUnit fd)
      then encodingFields ++ [field fd]
      else encodingFields
  | None => encodingFields
  end.

Definition projecting_selections (model : Model) : list InteractiveSelections :=
  fold_left push_projecting (selections_of model) [].

Definition selection_fields (selections : list InteractiveSelections) : list string :=
  unique (flatten (map i_fields selections)).

Definition encoding_fields (model : Model) : list string :=
  unique (fold_left (push_encoding_field model) [COLOR; OPACITY; SIZE; SHAPE] []).

Definition interactiveLegendExists (model : Model) : list InteractiveSelections :=
  match parent model with
  | Some _ => []
  | None =>
      let selections := projecting_selections model in
      match selections with
      | [] => []
      | _ :: _ =>
          let selectionFields := selection_fields selections in
          let encodingFields := encoding_fields model in
          let differenceFields :=
            List.filter (fun x => (indexOf x encodingFields =? -1)%Z) selectionFields in
          match differenceFields with
          | _ :: _ => []
          | [] => selections
          end
      end
  end.

(** In the spec's words: [f] is projected by a field-projecting
    selection of the view. *)
Definition projected_field (model : Model) (f : string) : Prop :=
  exists selCmpt fs,
    In selCmpt (selections_of model) /\ fields selCmpt = Some fs /\ In f fs.

(** In the spec's words: [f] is the field of a color, opacity, size or
    shape encoding that carries no bin, aggregate or time unit. *)
Definition counted_field (model : Model) (f : string) : Prop :=
  exists channel fd,
    In channel [COLOR; OPACITY; SIZE; SHAPE] /\
    fieldDef model channel = Some fd /\
    has_bin fd = false /\ has_aggregate fd = false /\ has_timeUnit fd = false /\
    field fd = f.

(** The loop of [updateInteractiveLegendComponent] that chooses the
    selection of highest specificity: [(selectionIndex, maxFields)], and
    the index [forEach] is at. *)
Definition choose_selection (field : string) (sels : list InteractiveSelections)
  : option nat * nat :=
  fst (fold_left
         (fun '((selectionIndex, maxFields), i) s =>
            if (maxFields <? length (i_fields s)) && (-1 <? indexOf field (i_fields s))%Z
            then ((Some i, length (i_fields s)), S i)
            else ((selectionIndex, maxFields), S i))
         sels ((None, 0), 0)).

(** The [test] of the conditional encode rules. *)
Definition legend_test (maxProjSelection : InteractiveSelections) (field : string)
  : string :=
  if 1 <? length (i_fields maxProjSelection) then
    "!" +:+ i_name maxProjSelection +:+ "_" +:+ field +:+ "_legend || datum.value === " +:+
    i_name maxProjSelection +:+ "_" +:+ field +:+ "_legend"
  else
    "!(length(data(" +:+ i_store maxProjSelection +:+ "))) || " +:+ VL_SELECTION_TEST +:+
    "(" +:+ i_store maxProjSelection +:+ ", {" +:+ field +:+ ": datum.value})".

Definition value_ref (v : Lit) : ValueRef :=
  {| vr_test := None; vr_value := Some v; vr_signal := None |}.

(** [x.value] of what is stored under a key: an array has none. *)
Definition value_of (v : EncodeValue) : option Lit :=
  match v with
  | Plain r => vr_value r
  | Rules _ => None
  end.

(** The body of [['labels', 'symbols'].forEach]; [None] is the fault of
    reading a property of an [update] that is undefined. *)
Definition update_part (channel : Channel) (field : string)
    (maxProjSelection : InteractiveSelections)
    (updatedLegendEncode : gmap string EncodeEntry) (part : string)
  : option (gmap string EncodeEntry) :=
  updateValue ← match updatedLegendEncode !! part with
                | Some entry => e_update entry
                | None => Some {[ "opacity" := Plain (value_ref (LNum 0.7%Q)) ]}
                end;
  let test := legend_test maxProjSelection field in
  let updateValue :=
    if String.eqb part "symbols" && bool_decide (channel = OPACITY) then
      let strokeValue :=
        match updateValue !! "stroke" with
        | Some stroke => value_of stroke
        | None => Some (LStr "#000000")
        end in
      <["stroke" := Rules [ {| vr_test := Some test; vr_value := strokeValue; vr_signal := None |};
                            value_ref (LStr "#aaaaaa") ]]> updateValue
    else
      let opacityValue :=
        match updateValue !! "opacity" with
        | Some opacity => value_of opacity
        | None => Some (LNum 0.7%Q)
        end in
      <["opacity" := Rules [ {| vr_test := Some test; vr_value := opacityValue; vr_signal := None |};
                             value_ref (LNum 0.2%Q) ]]> updateValue in
  Some (<[part := {| e_name := Some (part +:+ "_" +:+ field +:+ LEGEND);
                     e_interactive := Some true;
                     e_update := Some updateValue |}]> updatedLegendEncode).

Definition updateInteractiveLegendComponent (model : Model)
    (legendEncode : gmap string EncodeEntry) (channel : Channel)
    (interactiveSelections : list InteractiveSelections)
  : option (gmap string EncodeEntry) :=
  match channel with
  | COLOR | OPACITY | SIZE | SHAPE =>
      fd ← fieldDef model channel;
      let field := field fd in
      let '(selectionIndex, maxFields) := choose_selection field interactiveSelections in
      if maxFields =? 0 then Some legendEncode
      else
        maxProjSelection ← (selectionIndex ≫= fun i => interactiveSelections !! i);
        foldl (fun acc part =>
                 enc ← acc; update_part channel field maxProjSelection enc part)
              (Some legendEncode) ["labels"; "symbols"]
  | _ => Some legendEncode
  end.

(** What the loop over the selections has found after the selections
    [all]: nothing when none of them projects [field]; otherwise the
    index of a selection that projects [field] with [maxFields] fields,
    no selection projecting [field] having more, and none with as many
    standing before it. *)
Definition best_selection (field : string) (all : list InteractiveSelections)
    (selectionIndex : option nat) (maxFields : nat) : Prop :=
  (maxFields = 0 ->
   selectionIndex = None /\ forall s, In s all -> ~ In field (i_fields s)) /\
  (maxFields <> 0 ->
   exists i sel,
     selectionIndex = Some i /\ all !! i = Some sel /\
     In field (i_fields sel) /\ length (i_fields sel) = maxFields /\
     forall j sel', all !! j = Some sel' -> In field (i_fields sel') ->
       length (i_fields sel') <= maxFields /\
       (length (i_fields sel') = maxFields -> i <= j)).

End InteractiveLegend.

Section Merge.
Context `{LegendExternal}.

(** Modelled from the spec: [getWithExplicit] of the explicit/implicit
    property container of [compile/split] (not among the sources); a
    property is looked up in the explicit half first. *)
Definition getWithExplicit (c : LegendComponent) (key : string) : Explicit :=
  match split_explicit c !! key with
  | Some v => {| explicit := true; value := Some v |}
  | None =>
      match split_implicit c !! key with
      | Some v => {| explicit := false; value := Some v |}
      | None => {| explicit := false; value := None |}
      end
  end.

(** Modelled from the spec: [set] of the container; a property set in one
    half is removed from the other. *)
Definition set (c : LegendComponent) (key : string) (v : LegendValue) (expl : bool)
  : LegendComponent :=
  if expl
  then {| split_explicit := <[key := v]> (split_explicit c);
          split_implicit := delete key (split_implicit c) |}
  else {| split_explicit := delete key (split_explicit c);
          split_implicit := <[key := v]> (split_implicit c) |}.

(** Modelled from the spec: [setWithExplicit] of the container; a
    property is only set when its value is defined. *)
Definition setWithExplicit (c : LegendComponent) (key : string) (v : Explicit)
  : LegendComponent :=
  match value v with
  | Some x => set c key x (explicit v)
  | None => c
  end.

(** Modelled from the spec: [clone] of the container; a copy is the same
    value. *)
Definition clone (c : LegendComponent) : LegendComponent := c.

(** Modelled from the spec: [makeImplicit] of [compile/split]. *)
Definition makeImplicit (v : LegendValue) : Explicit :=
  {| explicit := false; value := Some v |}.

(** Modelled from the spec: [defaultTieBreaker] of [compile/split] keeps
    the first value (its warning is not recorded here). *)
Definition defaultTieBreaker (v1 v2 : Explicit) : Explicit := v1.

(** Modelled from the spec: [mergeValuesWithExplicit] of [compile/split]
    (not among the sources).  An explicit value is never overwritten by an
    implicit one; the tie breaker decides between two different values of
    the same provenance.  The tie breaker also reports whether it set the
    flag [typeMerged] of its caller. *)
Definition mergeValuesWithExplicit (v1 v2 : Explicit)
    (tieBreaker : Explicit -> Explicit -> Explicit * bool) : Explicit * bool :=
  match value v1 with
  | None => (v2, false)
  | Some _ =>
      if explicit v1 && negb (explicit v2) then (v1, false)
      else if explicit v2 && negb (explicit v1) then (v2, false)
      else if bool_decide (value v1 = value v2) then (v1, false)
      else tieBreaker v1 v2
  end.

(** Modelled from the spec: [deleteNestedProperty(half, ['encode',
    'gradient'])] of [util] (not among the sources) strips the gradient
    sub-block, and the encode block with it when nothing else is left. *)
Definition deleteNestedProperty_encode_gradient (half : gmap string LegendValue)
  : gmap string LegendValue :=
  match half !! "encode" with
  | Some (LegendEncode e) =>
      let e' := delete "gradient" e in
      if bool_decide (e' = ∅) then delete "encode" half
      else <["encode" := LegendEncode e']> half
  | _ => half
  end.

(** [((half || {}).encode || {}).gradient], as a truth value. *)
Definition has_gradient (half : gmap string LegendValue) : bool :=
  match half !! "encode" with
  | Some (LegendEncode e) => bool_decide (is_Some (e !! "gradient"))
  | _ => false
  end.

(** [a !== b] on two property values: literals compare by value, objects
    and arrays of two components are never the same object. *)
Definition strict_neq (a b : option LegendValue) : bool :=
  match a, b with
  | None, None => false
  | Some (LegendLit (LStr x)), Some (LegendLit (LStr y)) => negb (String.eqb x y)
  | Some (LegendLit (LNum x)), Some (LegendLit (LNum y)) => negb (Qeq_bool x y)
  | Some (LegendLit (LBool x)), Some (LegendLit (LBool y)) => negb (Bool.eqb x y)
  | _, _ => true
  end.

Definition mergeSymbolType (st1 st2 : Explicit) : Explicit :=
  match value st2 with
  | Some (LegendLit (LStr "circle")) => st2
  | _ => st1
  end.

(** The tie breaker handed to [mergeValuesWithExplicit]; the boolean is
    the assignment [typeMerged = true]. *)
Definition tie_breaker (prop : string) (v1 v2 : Explicit) : Explicit * bool :=
  if String.eqb prop "symbolType" then (mergeSymbolType v1 v2, false)
  else if String.eqb prop "title" then (mergeTitleComponent v1 v2, false)
  else if String.eqb prop "type" then (makeImplicit (LegendLit (LStr "symbol")), true)
  else (defaultTieBreaker v1 v2, false).

(** The body of the loop over [VG_LEGEND_PROPERTIES]. *)
Definition merge_property (childLegend : LegendComponent)
    (st : LegendComponent * bool) (prop : string) : LegendComponent * bool :=
  let '(mergedLegend, typeMerged) := st in
  let '(mergedValueWithExplicit, set_flag) :=
    mergeValuesWithExplicit (getWithExplicit mergedLegend prop)
                            (getWithExplicit childLegend prop)
                            (tie_breaker prop) in
  (setWithExplicit mergedLegend prop mergedValueWithExplicit, typeMerged || set_flag).

Definition mergeLegendComponent (mergedLegend : option LegendComponent)
    (childLegend : LegendComponent) : option LegendComponent :=
  match mergedLegend with
  | None => Some (clone childLegend)
  | Some mergedLegend =>
      let mergedOrient := getWithExplicit mergedLegend "orient" in
      let childOrient := getWithExplicit childLegend "orient" in
      if explicit mergedOrient && explicit childOrient &&
         strict_neq (value mergedOrient) (value childOrient)
      then None
      else
        let '(mergedLegend, typeMerged) :=
          fold_left (merge_property childLegend) VG_LEGEND_PROPERTIES (mergedLegend, false) in
        Some (if typeMerged then
                {| split_explicit :=
                     if has_gradient (split_explicit mergedLegend)
                     then deleteNestedProperty_encode_gradient (split_explicit mergedLegend)
                     else split_explicit mergedLegend;
                   split_implicit :=
                     if has_gradient (split_implicit mergedLegend)
                     then deleteNestedProperty_encode_gradient (split_implicit mergedLegend)
                     else split_implicit mergedLegend |}
              else mergedLegend)
  end.

(** The channels in the order [parseUnitLegend] fills a legend index. *)
Definition legend_channels : list Channel :=
  [COLOR; FILL; STROKE; STROKEWIDTH; SIZE; SHAPE; OPACITY; FILLOPACITY; STROKEOPACITY].

(** [keys(legends)]. *)
Definition keys (legends : gmap Channel LegendComponent) : list Channel :=
  List.filter (fun c => bool_decide (is_Some (legends !! c))) legend_channels.

Definition set_legend_resolve (resolve : Resolve) (channel : Channel) (mode : ResolveMode)
  : Resolve :=
  {| r_scale := r_scale resolve; r_legend := <[channel := mode]> (r_legend resolve) |}.

(** The body of [keys(child.component.legends).forEach] in
    [parseNonUnitLegend], as it acts on the parent's [legends] and
    [resolve]. *)
Definition merge_channel (childLegends : gmap Channel LegendComponent)
    (st : gmap Channel LegendComponent * Resolve) (channel : Channel)
  : gmap Channel LegendComponent * Resolve :=
  let '(legends, resolve) := st in
  let resolve := set_legend_resolve resolve channel (parseGuideResolve resolve channel) in
  match r_legend resolve !! channel, childLegends !! channel with
  | Some Shared, Some childLegend =>
      match mergeLegendComponent (legends !! channel) childLegend with
      | Some merged => (<[channel := merged]> legends, resolve)
      | None => (delete channel legends, set_legend_resolve resolve channel Independent)
      end
  | _, _ => (legends, resolve)
  end.

(** The first loop of [parseNonUnitLegend], over the children (each given
    by the legend index [parseLegend] left in it), as it acts on the
    parent's [legends] and [resolve]. *)
Definition merge_children (children : list (gmap Channel LegendComponent))
    (st : gmap Channel LegendComponent * Resolve)
  : gmap Channel LegendComponent * Resolve :=
  fold_left (fun st childLegends => fold_left (merge_channel childLegends) (keys childLegends) st)
            children st.

(** The second loop: a shared legend is removed from the children. *)
Definition remove_shared (resolve : Resolve) (channel : Channel)
    (childLegends : gmap Channel LegendComponent) : gmap Channel LegendComponent :=
  match childLegends !! channel with
  | None => childLegends
  | Some _ =>
      if bool_decide (r_legend resolve !! channel = Some Shared)
      then delete channel childLegends
      else childLegends
  end.

(** [children[i].component.legends[channel]]. *)
Definition legend_of (children : list (gmap Channel LegendComponent)) (i : nat)
    (channel : Channel) : option LegendComponent :=
  children !! i ≫= fun legends => legends !! channel.

(** The objects [parseNonUnitLegend] works on: the parent's [legends] and
    [resolve], the legend indexes of the children, and, since a legend
    can hold the [encode] object of a child's legend by reference,
    for each channel the child whose [encode] object the parent's legend
    of the channel holds (none when the object is the parent's own).
    The components that come in are taken to share no object. *)
Record LegendStore := {
  parent_legends : gmap Channel LegendComponent;
  parent_resolve : Resolve;
  child_legends : list (gmap Channel LegendComponent);
  encode_holder : gmap Channel nat
}.

(** Whether the loop over the properties leaves the child's [encode]
    object in the merged legend: [mergeValuesWithExplicit] hands back its
    second argument, and [setWithExplicit] stores the value of that, the
    object itself.  This is so when the merged legend has no [encode],
    and when the child's is explicit and the merged legend's is not. *)
Definition takes_child_encode (mergedLegend childLegend : LegendComponent) : bool :=
  bool_decide ("encode" ∈ VG_LEGEND_PROPERTIES) &&
  match value (getWithExplicit childLegend "encode"),
        value (getWithExplicit mergedLegend "encode") with
  | None, _ => false
  | Some _, None => true
  | Some _, Some _ =>
      explicit (getWithExplicit childLegend "encode") &&
      negb (explicit (getWithExplicit mergedLegend "encode"))
  end.

(** [delete encode.gradient] on an [encode] object that a child's legend
    holds too, as the child sees it: the object stays in the half it is
    in (the explicit half is looked at first), without its gradient
    part. *)
Definition delete_shared_gradient (c : LegendComponent) : LegendComponent :=
  match split_explicit c !! "encode" with
  | Some (LegendEncode e) =>
      {| split_explicit := <["encode" := LegendEncode (delete "gradient" e)]> (split_explicit c);
         split_implicit := split_implicit c |}
  | Some _ => c
  | None =>
      match split_implicit c !! "encode" with
      | Some (LegendEncode e) =>
          {| split_explicit := split_explicit c;
             split_implicit :=
               <["encode" := LegendEncode (delete "gradient" e)]> (split_implicit c) |}
      | _ => c
      end
  end.

(** The body of [keys(child.component.legends).forEach] for the child at
    index [k], on the store.  The first child's legend is cloned, a
    fresh copy.  A merge that takes the child's [encode] makes the
    child the holder of the object; a merge in which the types tie
    strips the gradient part from the object the merged legend holds, in
    place, and the holder's own legend loses it with it; the merged
    legend lets go of the object when its [encode] is dropped. *)
Definition merge_channel_shared (k : nat) (st : LegendStore) (channel : Channel)
  : LegendStore :=
  let resolve :=
    set_legend_resolve (parent_resolve st) channel
                       (parseGuideResolve (parent_resolve st) channel) in
  match r_legend resolve !! channel, legend_of (child_legends st) k channel with
  | Some Shared, Some childLegend =>
      match mergeLegendComponent (parent_legends st !! channel) childLegend with
      | Some merged =>
          let holder :=
            match parent_legends st !! channel with
            | Some mergedLegend =>
                if takes_child_encode mergedLegend childLegend then Some k
                else encode_holder st !! channel
            | None => None
            end in
          let typeMerged :=
            match parent_legends st !! channel with
            | Some mergedLegend =>
                snd (fold_left (merge_property childLegend) VG_LEGEND_PROPERTIES
                               (mergedLegend, false))
            | None => false
            end in
          {| parent_legends := <[channel := merged]> (parent_legends st);
             parent_resolve := resolve;
             child_legends :=
               match holder with
               | Some j =>
                   if typeMerged
                   then alter (alter delete_shared_gradient channel) j (child_legends st)
                   else child_legends st
               | None => child_legends st
               end;
             encode_holder :=
               match holder, value (getWithExplicit merged "encode") with
               | Some j, Some _ => <[channel := j]> (encode_holder st)
               | _, _ => delete channel (encode_holder st)
               end |}
      | None =>
          {| parent_legends := delete channel (parent_legends st);
             parent_resolve := set_legend_resolve resolve channel Independent;
             child_legends := child_legends st;
             encode_holder := delete channel (encode_holder st) |}
      end
  | _, _ =>
      {| parent_legends := parent_legends st;
         parent_resolve := resolve;
         child_legends := child_legends st;
         encode_holder := encode_holder st |}
  end.

(** The first loop of [parseNonUnitLegend] on the store: the children by
    their index, the keys of a child's legend index taken before its
    channels are gone through. *)
Definition merge_children_shared (st : LegendStore) : LegendStore :=
  fold_left (fun st k =>
               match child_legends st !! k with
               | Some childLegends =>
                   fold_left (merge_channel_shared k) (keys childLegends) st
               | None => st
               end)
            (seq 0 (length (child_legends st))) st.

(** [parseNonUnitLegend]: the parent's legends, its resolve and the
    children's legend indexes when it returns. *)
Definition parseNonUnitLegend (legends : gmap Channel LegendComponent) (resolve : Resolve)
    (children : list (gmap Channel LegendComponent))
  : gmap Channel LegendComponent * Resolve * list (gmap Channel LegendComponent) :=
  let st := merge_children_shared {| parent_legends := legends;
                                     parent_resolve := resolve;
                                     child_legends := children;
                                     encode_holder := ∅ |} in
  let children :=
    fold_left (fun children channel => map (remove_shared (parent_resolve st) channel) children)
              (keys (parent_legends st)) (child_legends st) in
  (parent_legends st, parent_resolve st, children).

(** A legend of a child is as it came in, or that with the gradient part
    deleted from its [encode] object. *)
Definition kept_legend (orig cur : option LegendComponent) : Prop :=
  cur = orig \/ cur = delete_shared_gradient <$> orig.

(** No property is in both halves of the component. *)
Definition halves_disjoint (c : LegendComponent) : Prop :=
  forall key, split_explicit c !! key = None \/ split_implicit c !! key = None.

End Merge.
End LegendParse.

(** ** The top-level signals *)

(** The initial [value] of a signal; the assembler writes the empty
    object only. *)
Inductive SignalValue :=
  | EmptyObject
  | JsonValue (text : string).

(** A signal [{name, value, on, update}] of the top level; a signal
    without [on] has the empty list. *)
Record TopLevelSignal := {
  ts_name : string;
  ts_value : option SignalValue;
  ts_on : list Handler;
  ts_update : option string
}.

(** What [assembleTopLevelSignals] takes from [compile/selection]: the
    name of the resolve function, and the optional [topLevelSignals] of
    the compiler of a selection and of the transforms [forEachTransform]
    visits, in their order. *)
Class TopLevel := {
  VL_SELECTION_RESOLVE : string;
  c_topLevelSignals : SelectionComponent ->
    option (Model -> SelectionComponent -> list TopLevelSignal -> list TopLevelSignal);
  t_topLevelSignals : SelectionComponent ->
    list (option (Model -> SelectionComponent -> list TopLevelSignal -> list TopLevelSignal))
}.

(** ** The selection assembler of [compile/selection] *)

Module Assemble.

(** The state the predicate assembler threads through the callback of
    [logicalExpr]: the [stores] array and the insertion point [child] of
    the dataflow.  [None] is a thrown fault. *)
Record PredState := {
  stores : list string;
  child : DataFlowNode
}.

Definition Asm (A : Type) : Type := PredState -> option (A * PredState).

#[global] Instance Asm_ret : MRet Asm := fun A x st => Some (x, st).
#[global] Instance Asm_bind : MBind Asm := fun A B f m st =>
  match m st with
  | Some (x, st') => f x st'
  | None => None
  end.

Definition fault {A} : Asm A := fun _ => None.
Definition lift_option {A} (o : option A) : Asm A :=
  match o with
  | Some x => mret x
  | None => fault
  end.
Definition push_store (store : string) : Asm unit :=
  fun st => Some (tt, {| stores := stores st ++ [store]; child := child st |}).
Definition get_child : Asm DataFlowNode := fun st => Some (child st, st).
Definition set_child (n : DataFlowNode) : Asm unit :=
  fun st => Some (tt, {| stores := stores st; child := n |}).

(** Modelled from the spec: [insertAsParentOf] of the dataflow (not among
    the sources) makes the node the new parent of the insertion point,
    above which the former ancestors stay. *)
Definition insertAsParentOf (tunode : string) (child : DataFlowNode) : DataFlowNode :=
  {| ancestors := tunode :: ancestors child |}.

(** Modelled from the spec: [logicalExpr] of [util] (not among the
    sources) renders a NOT/AND/OR tree over the strings the callback gives
    for the leaves, the callback run on the leaves from left to right. *)
Fixpoint logicalExpr (op : LogicalOperand) (cb : string -> Asm string) : Asm string :=
  let all := fix all (l : list LogicalOperand) : Asm (list string) :=
    match l with
    | [] => mret []
    | o :: l' => s ← logicalExpr o cb; ss ← all l'; mret (s :: ss)
    end in
  match op with
  | Leaf s => cb s
  | LogicalNot o => s ← logicalExpr o cb; mret ("!(" +:+ s +:+ ")")
  | LogicalAnd l => ss ← all l; mret ("(" +:+ join ") && (" ss +:+ ")")
  | LogicalOr l => ss ← all l; mret ("(" +:+ join ") || (" ss +:+ ")")
  end.

Section Assemble.
Context `{External} `{Compilers}.

(** [m] times the digit 0. *)
Definition zeros (m : nat) : string := string_of_list_ascii (repeat "0"%char m).

(** [Number::toString] of the language, in radix 10: a number of up to
    21 integer digits is printed in full, one below 1e-6 or from 1e21 on
    in exponent notation. *)
Definition Number_toString (x : JsNumber) : string :=
  match x with
  | JsNaN => "NaN"
  | JsInfinity negative => (if negative then "-" else "") +:+ "Infinity"
  | JsZero => "0"
  | JsFinite negative s n =>
      let ds := pretty (N.pos s) in
      let k := Z.of_nat (String.length ds) in
      (if negative then "-" else "") +:+
      (if (k <=? n)%Z && (n <=? 21)%Z then
         ds +:+ zeros (Z.to_nat (n - k))
       else if (0 <? n)%Z && (n <=? 21)%Z then
         substring 0 (Z.to_nat n) ds +:+ "." +:+
         substring (Z.to_nat n) (Z.to_nat (k - n)) ds
       else if (-6 <? n)%Z && (n <=? 0)%Z then
         "0." +:+ zeros (Z.to_nat (- n)) +:+ ds
       else
         let e := (n - 1)%Z in
         let exponent := (if (e <? 0)%Z then "-" else "+") +:+ pretty (Z.abs e) in
         if (k =? 1)%Z then ds +:+ "e" +:+ exponent
         else substring 0 1 ds +:+ "." +:+ substring 1 (Z.to_nat (k - 1)) ds +:+
              "e" +:+ exponent)
  end.

(** [JSON.stringify(init)] on a value that is not an array: a number
    that is not finite is serialized as [null]. *)
Definition JSON_stringify (v : SelectionInit) : string :=
  match v with
  | InitBool true => "true"
  | InitBool false => "false"
  | InitNum JsNaN => "null"
  | InitNum (JsInfinity _) => "null"
  | InitNum n => Number_toString n
  | InitStr s => json_string s
  | InitDateTime d => json_object d
  end.

Fixpoint assembleInit (init : Init) (wrap : string -> string) : string :=
  match init with
  | InitArray l =>
      let str := join ", " (map (fun v => assembleInit v wrap) l) in
      "[" +:+ str +:+ "]"
  | InitValue (InitDateTime d) =>
      if isDateTime d then wrap (dateTimeExpr d)
      else wrap (JSON_stringify (InitDateTime d))
  | InitValue v => wrap (JSON_stringify v)
  end.

(** The inner function [expr] of [assembleSelectionPredicate]. *)
Definition expr (model : Model) (nm : string) : Asm string :=
  let vname := varName nm in
  selCmpt ← lift_option (getSelectionComponent model vname nm);
  let store := stringValue (vname +:+ STORE) in
  _ ← match timeUnit (project selCmpt) with
      | Some tunode =>
          child ← get_child;
          match ancestors child with
          | _ :: _ => set_child (insertAsParentOf tunode child)
          | [] => set_child {| ancestors := [tunode] |}
          end
      | None => mret tt
      end;
  _ ← match empty selCmpt with
      | EmptyNone => mret tt
      | EmptyAll => push_store store
      end;
  mret ("vlSelectionTest(" +:+ store +:+ ", datum" +:+
        match resolve selCmpt with
        | Global => ")"
        | r => ", " +:+ stringValue (resolution_string r) +:+ ")"
        end).

Definition assembleSelectionPredicate (model : Model)
    (selections : LogicalOperand) (dfnode : option DataFlowNode)
  : option (string * DataFlowNode) :=
  let st0 := {| stores := []; child := default (raw model) dfnode |} in
  match logicalExpr selections (expr model) st0 with
  | Some (predicateStr, st) =>
      Some ((match stores st with
             | _ :: _ =>
                 "!(" +:+
                 join " || " (map (fun s => "length(data(" +:+ s +:+ "))") (stores st)) +:+
                 ") || "
             | [] => ""
             end) +:+ "(" +:+ predicateStr +:+ ")",
            child st)
  | None => None
  end.

(** The branches of [assembleSelectionScaleDomain] that settle [field]
    for a selection found through the model: the field and the warnings
    passed to [warn], or [None] for the fault of reading
    [project[0].field] of an empty projection. *)
Definition domain_field (selDomain : SelectionDomain) (selCmpt : SelectionComponent)
  : option (string * list string) :=
  let encoding := sd_encoding selDomain in
  let field := sd_field selDomain in
  if negb (truthy encoding) && negb (truthy field) then
    p0 ← head (items (project selCmpt));
    let field := p_field p0 in
    Some (field,
          if 1 <? length (items (project selCmpt)) then
            ["A " +:+ dquote +:+ "field" +:+ dquote +:+ " or " +:+ dquote +:+ "encoding" +:+
             dquote +:+
             " must be specified when using a selection as a scale domain. " +:+
             "Using " +:+ dquote +:+ "field" +:+ dquote +:+ ": " +:+ stringValue field +:+ "."]
          else [])
  else if truthy encoding && negb (truthy field) then
    let enc := default "" encoding in
    let encodings :=
      List.filter (fun p => bool_decide (p_channel p = Some enc))
                  (items (project selCmpt)) in
    match encodings with
    | [e] => Some (p_field e, [])
    | _ =>
        p0 ← head (items (project selCmpt));
        let field := p_field p0 in
        Some (field,
              [(match encodings with [] => "No " | _ => "Multiple " end) +:+
               "matching " +:+ stringValue enc +:+ " encoding found for selection " +:+
               stringValue (sd_selection selDomain) +:+ ". " +:+
               "Using " +:+ dquote +:+ "field" +:+ dquote +:+ ": " +:+
               stringValue field +:+ "."])
    end
  else Some (default "" field, []).

(** [assembleSelectionScaleDomain]: the rewritten signal (or [None] for a
    thrown fault) together with the warnings passed to [warn], in order.
    The field is settled first, then [accessPathWithDatum] builds the
    signal from it. *)
Definition assembleSelectionScaleDomain (model : Model) (domainRaw : SignalRef)
  : option (SignalRef * list string) :=
  selDomain ← json_parse (remove_first SELECTION_DOMAIN (signal domainRaw));
  let nm := varName (sd_selection selDomain) in
  match own_selection nm (selection model) with
  | Some _ =>
      Some ({| signal := "null" |},
            ["Use " +:+ dquote +:+ "bind" +:+ dquote +:+ ": " +:+ dquote +:+ "scales" +:+ dquote +:+
             " to setup a binding for scales and selections within the same view."])
  | None =>
      selCmpt ← getSelectionComponent model nm (sd_selection selDomain);
      '(field, warnings) ← domain_field selDomain selCmpt;
      access ← accessPathWithDatum field nm;
      Some ({| signal := access |}, warnings)
  end.




(** [signals.filter(s => s.name === nm)[0]], with the position of the
    signal in the array: the signal is updated in place. *)
Definition find_signal (nm : string) (signals : list Signal) : option (nat * Signal) :=
  list_find (fun s => s_name s = nm) signals.

(** [signal.on[0].update = f(signal.on[0].update)]; a fault without a
    first handler. *)
Definition update_first_handler (f : string -> string) (sg : Signal) : option Signal :=
  match on sg with
  | h :: rest =>
      Some {| s_name := s_name sg;
              on := {| events := events h; update := f (update h) |} :: rest;
              s_update := s_update sg |}
  | [] => None
  end.

(** [signal.on.push(h)]. *)
Definition push_handler (h : Handler) (sg : Signal) : Signal :=
  {| s_name := s_name sg; on := on sg ++ [h]; s_update := s_update sg |}.

Definition datum : string := "(item().isVoronoi ? datum.datum : datum)".

Definition ignoreLegendExpression (selectionFields : list string) : string :=
  fold_left (fun exp field =>
    "item().mark.name !== 'symbols_" +:+ field +:+ LEGEND +:+
    "' && item().mark.name !== 'labels_" +:+ field +:+ LEGEND +:+ "' && " +:+ exp)
    selectionFields "".

Definition eventExpression (fields : list string) : string :=
  fold_left (fun expression field =>
    "@symbols_" +:+ field +:+ LEGEND +:+ ":click, @labels_" +:+ field +:+ LEGEND +:+
    ":click, " +:+ expression)
    fields "".

(** The signal unshifted for one field of a multi-field selection. *)
Definition field_legend_signal (ignore nm field : string) : Signal :=
  {| s_name := nm +:+ "_" +:+ field +:+ "_legend";
     on := [ {| events := EventStreams [ {| source := "scope"; type := "click" |} ];
                update := ignore +:+ " item().mark.marktype !== 'group' ? " +:+ datum +:+
                          "['" +:+ field +:+ "'] : (!(" +:+ slice_end 4 ignore +:+ ") ? " +:+
                          nm +:+ "_" +:+ field +:+ "_legend : null)" |};
             {| events := EventSelector ("@symbols_" +:+ field +:+ LEGEND +:+
                                         ":click, @labels_" +:+ field +:+ LEGEND +:+ ":click");
                update := "datum.value" |} ];
     s_update := None |}.

(** The handler pushed on the tuple signal of a single-field selection. *)
Definition single_field_handler (model : Model) (selection : InteractiveSelections)
  : Handler :=
  {| events := EventSelector (eventExpression (i_fields selection));
     update := "{unit: " +:+ unitName model +:+ ", fields: " +:+ i_name selection +:+
               "_tuple_fields, values: [datum.value]}" |}.

(** The handler pushed on the tuple signal of a multi-field selection. *)
Definition multi_field_handler (model : Model) (selection : InteractiveSelections)
    (signal_name : string) : Handler :=
  let fieldSignals :=
    map (fun field => i_name selection +:+ "_" +:+ field +:+ "_legend") (i_fields selection) in
  {| events := EventSelector (eventExpression (i_fields selection));
     update := join " && " fieldSignals +:+ " ? {unit: " +:+ unitName model +:+
               ", fields: " +:+ i_name selection +:+ "_tuple_fields, values: [ " +:+
               join "," fieldSignals +:+ " ]} : " +:+ signal_name |}.

(** The body of [selections.forEach] in [assembleInteractiveLegendSignals];
    [None] is the fault of reading [on[0]] of a signal that is missing
    or has no handler. *)
Definition legend_signals_step (model : Model) (selectionFields : list string)
    (signals : list Signal) (selection : InteractiveSelections)
  : option (list Signal) :=
  let nm := i_name selection in
  '(i, signal) ← find_signal (nm +:+ TUPLE) signals;
  let ignore := ignoreLegendExpression selectionFields in
  signal ← update_first_handler (fun u => ignore +:+ u) signal;
  if negb (length (i_fields selection) =? 1) then
    (* every [unshift] puts its signal in front of the earlier ones *)
    let unshifted := rev (map (field_legend_signal ignore nm) (i_fields selection)) in
    let signal := push_handler (multi_field_handler model selection (s_name signal)) signal in
    let signals := unshifted ++ <[i := signal]> signals in
    '(j, toggleSignal) ← find_signal (nm +:+ "_toggle") signals;
    toggleSignal ← update_first_handler
                     (fun _ => slice_end 4 ignore +:+ " ? event.shiftKey : false")
                     toggleSignal;
    Some (<[j := toggleSignal]> signals)
  else
    let signal := push_handler (single_field_handler model selection) signal in
    Some (<[i := signal]> signals).

Definition assembleInteractiveLegendSignals (model : Model) (signals : list Signal)
    (selections : list InteractiveSelections) : option (list Signal) :=
  let selectionFields := unique (flatten (map i_fields selections)) in
  foldl (fun acc selection =>
           signals ← acc; legend_signals_step model selectionFields signals selection)
        (Some signals) selections.

(** [signals.filter(s => s.name === nm)[0]], the signal alone. *)
Definition lookup_signal (nm : string) (signals : list Signal) : option Signal :=
  snd <$> find_signal nm signals.

(** The signals the legend pass reads for a selection are there: its
    tuple signal with a first handler, and for a selection of several
    fields (or none) its toggle signal with a first handler. *)
Definition legend_signals_ready (signals : list Signal) (sel : InteractiveSelections)
  : Prop :=
  (exists sg, lookup_signal (i_name sel +:+ TUPLE) signals = Some sg /\ on sg <> []) /\
  (length (i_fields sel) <> 1 ->
   exists tg, lookup_signal (i_name sel +:+ "_toggle") signals = Some tg /\ on tg <> []).

(** A signal name the legend pass does not write for a selection. *)
Definition untouched_by (nm : string) (sel : InteractiveSelections) : Prop :=
  nm <> i_name sel +:+ TUPLE /\
  nm <> i_name sel +:+ "_toggle" /\
  forall f, nm <> i_name sel +:+ "_" +:+ f +:+ "_legend".

(** The body of the [forEachSelection] callback of
    [assembleUnitSelectionSignals]. *)
Definition selection_signals (model : Model) (signals : list Signal)
    (selCmpt : SelectionComponent) : list Signal :=
  let selCompiler := compiler selCmpt in
  let modifyExpr := c_modifyExpr selCompiler model selCmpt in
  let signals := signals ++ c_signals selCompiler model selCmpt in
  let '(signals, modifyExpr) :=
    fold_left (fun '(signals, modifyExpr) txCompiler =>
                 (match t_signals txCompiler with
                  | Some f => f model selCmpt signals
                  | None => signals
                  end,
                  match t_modifyExpr txCompiler with
                  | Some f => f model selCmpt modifyExpr
                  | None => modifyExpr
                  end))
              (transforms selCmpt) (signals, modifyExpr) in
  signals ++ [ {| s_name := name selCmpt +:+ MODIFY;
                  on := [];
                  s_update := Some ("modify(" +:+ stringValue (name selCmpt +:+ STORE) +:+
                                    ", " +:+ modifyExpr +:+ ")") |} ].

Definition assembleUnitSelectionSignals (model : Model) (signals : list Signal)
  : option (list Signal) :=
  let signals := fold_left (selection_signals model) (selections_of model) signals in
  let selections := LegendParse.interactiveLegendExists model in
  match selections with
  | _ :: _ => assembleInteractiveLegendSignals model signals selections
  | [] => Some signals
  end.

(** The selection names at the leaves of a tree, from left to right. *)
Fixpoint leaves (op : LogicalOperand) : list string :=
  match op with
  | Leaf s => [s]
  | LogicalNot o => leaves o
  | LogicalAnd l => flat_map leaves l
  | LogicalOr l => flat_map leaves l
  end.

(** The text of a tree over the texts [test] gives for its leaves: what
    [logicalExpr] builds, without the effects of its callback. *)
Fixpoint render (test : string -> string) (op : LogicalOperand) : string :=
  match op with
  | Leaf s => test s
  | LogicalNot o => "!(" +:+ render test o +:+ ")"
  | LogicalAnd l => "(" +:+ join ") && (" (map (render test) l) +:+ ")"
  | LogicalOr l => "(" +:+ join ") || (" (map (render test) l) +:+ ")"
  end.

(** The store test [expr] returns for a leaf. *)
Definition leaf_test (model : Model) (nm : string) : string :=
  match getSelectionComponent model (varName nm) nm with
  | Some selCmpt =>
      "vlSelectionTest(" +:+ stringValue (varName nm +:+ STORE) +:+ ", datum" +:+
      match resolve selCmpt with
      | Global => ")"
      | r => ", " +:+ stringValue (resolution_string r) +:+ ")"
      end
  | None => ""
  end.

(** The store [expr] pushes for a leaf: none when the selection's
    [empty] is ['none']. *)
Definition leaf_stores (model : Model) (nm : string) : list string :=
  match getSelectionComponent model (varName nm) nm with
  | Some selCmpt =>
      match empty selCmpt with
      | EmptyAll => [stringValue (varName nm +:+ STORE)]
      | EmptyNone => []
      end
  | None => []
  end.

(** The time-unit node [expr] inserts for a leaf. *)
Definition leaf_time_units (model : Model) (nm : string) : list string :=
  match getSelectionComponent model (varName nm) nm with
  | Some selCmpt =>
      match timeUnit (project selCmpt) with
      | Some tunode => [tunode]
      | None => []
      end
  | None => []
  end.

(** The prefix [assembleSelectionPredicate] puts before the predicate for
    the stores collected. *)
Definition empty_store_prefix (stores : list string) : string :=
  match stores with
  | _ :: _ =>
      "!(" +:+ join " || " (map (fun s => "length(data(" +:+ s +:+ "))") stores) +:+ ") || "
  | [] => ""
  end.

(** [op.and.map(o => logicalExpr(o, cb))], the callbacks run from left to
    right: the loop inside [logicalExpr], by itself. *)
Definition asm_all (f : LogicalOperand -> Asm string) : list LogicalOperand -> Asm (list string) :=
  fix all (l : list LogicalOperand) : Asm (list string) :=
    match l with
    | [] => mret []
    | o :: l' => s ← f o; ss ← all l'; mret (s :: ss)
    end.

(** The state of the predicate assembler after the leaves [nms] have
    been visited from the state [st]. *)
Definition after_leaves (model : Model) (nms : list string) (st : PredState) : PredState :=
  {| stores := stores st ++ flat_map (leaf_stores model) nms;
     child := {| ancestors := rev (flat_map (leaf_time_units model) nms) ++
                              ancestors (child st) |} |}.

(** One clause of the guard: the item is neither the symbols nor the
    labels mark of the legend of [field]. *)
Definition guard_clause (field : string) : string :=
  "item().mark.name !== 'symbols_" +:+ field +:+ LEGEND +:+
  "' && item().mark.name !== 'labels_" +:+ field +:+ LEGEND +:+ "'".

(** The names of the signals the legend pass unshifts for a selection,
    as they stand in front of the array afterwards. *)
Definition unshifted_names (sel : InteractiveSelections) : list string :=
  if length (i_fields sel) =? 1 then []
  else rev (map (fun field => i_name sel +:+ "_" +:+ field +:+ "_legend") (i_fields sel)).


(** The modify expression of a selection as the callback of
    [assembleUnitSelectionSignals] leaves it: the expression of the
    selection compiler, handed through the transforms in their order. *)
Definition modify_expr (model : Model) (selCmpt : SelectionComponent) : string :=
  fold_left (fun modifyExpr txCompiler =>
               match t_modifyExpr txCompiler with
               | Some f => f model selCmpt modifyExpr
               | None => modifyExpr
               end)
            (transforms selCmpt) (c_modifyExpr (compiler selCmpt) model selCmpt).

(** The signals the callback pushes for a selection whose transforms
    rewrite no signals. *)
Definition pushed_signals (model : Model) (selCmpt : SelectionComponent) : list Signal :=
  c_signals (compiler selCmpt) model selCmpt ++
  [ {| s_name := name selCmpt +:+ MODIFY;
       on := [];
       s_update := Some ("modify(" +:+ stringValue (name selCmpt +:+ STORE) +:+
                         ", " +:+ modify_expr model selCmpt +:+ ")") |} ].


Context `{TopLevel}.

(** [signals.filter(s => s.name === nm)]. *)
Definition signals_named (nm : string) (signals : list TopLevelSignal)
  : list TopLevelSignal :=
  List.filter (fun s => String.eqb (ts_name s) nm) signals.

(** The resolution signal of a selection. *)
Definition resolution_signal (selCmpt : SelectionComponent) : TopLevelSignal :=
  let store := stringValue (name selCmpt +:+ STORE) in
  {| ts_name := name selCmpt;
     ts_value := None;
     ts_on := [];
     ts_update := Some (VL_SELECTION_RESOLVE +:+ "(" +:+ store +:+
                        match resolve selCmpt with
                        | Global => ")"
                        | r => ", " +:+ stringValue (resolution_string r) +:+ ")"
                        end) |}.

(** The guarded push of the resolution signal. *)
Definition push_resolution (signals : list TopLevelSignal) (selCmpt : SelectionComponent)
  : list TopLevelSignal :=
  let hasSg := signals_named (name selCmpt) signals in
  match hasSg with
  | [] => signals ++ [resolution_signal selCmpt]
  | _ :: _ => signals
  end.

(** The body of the [forEachSelection] callback of
    [assembleTopLevelSignals], on the pair of [signals] and
    [hasSelections]. *)
Definition top_level_selection (model : Model)
    (acc : list TopLevelSignal * bool) (selCmpt : SelectionComponent)
  : list TopLevelSignal * bool :=
  let signals := push_resolution (fst acc) selCmpt in
  let signals :=
    match c_topLevelSignals selCmpt with
    | Some f => f model selCmpt signals
    | None => signals
    end in
  let signals :=
    fold_left (fun signals txCompiler =>
                 match txCompiler with
                 | Some f => f model selCmpt signals
                 | None => signals
                 end)
              (t_topLevelSignals selCmpt) signals in
  (signals, true).

Definition unit_signal : TopLevelSignal :=
  {| ts_name := "unit";
     ts_value := Some EmptyObject;
     ts_on := [ {| events := EventSelector "mousemove";
                   update := "isTuple(group()) ? group() : unit" |} ];
     ts_update := None |}.

Definition assembleTopLevelSignals (model : Model) (signals : list TopLevelSignal)
  : list TopLevelSignal :=
  let '(signals, hasSelections) :=
    fold_left (top_level_selection model) (selections_of model) (signals, false) in
  if hasSelections then
    let hasUnit := signals_named "unit" signals in
    match hasUnit with
    | [] => unit_signal :: signals
    | _ :: _ => signals
    end
  else signals.


(** Nothing contributes top-level signals of its own: no compiler and
    no transform of the selections has [topLevelSignals]. *)
Definition plain_top_level (sels : list SelectionComponent) : Prop :=
  forall c, In c sels ->
    c_topLevelSignals c = None /\ Forall (fun tx => tx = None) (t_topLevelSignals c).

End Assemble.
End Assemble.

(** ** Sample inputs *)

Module Sample.

(** A simple instance of the collaborators, to run the definitions on
    concrete inputs. *)
Definition quote (s : string) : string := dquote +:+ s +:+ dquote.

Definition sample_parse (s : string) : option SelectionDomain :=
  if String.eqb s "brush" then
    Some {| sd_selection := "brush"; sd_encoding := None; sd_field := None |}
  else if String.eqb s "brush.x" then
    Some {| sd_selection := "brush"; sd_encoding := Some "x"; sd_field := None |}
  else if String.eqb s "brush.color" then
    Some {| sd_selection := "brush"; sd_encoding := Some "color"; sd_field := None |}
  else if String.eqb s "brush:b" then
    Some {| sd_selection := "brush"; sd_encoding := None; sd_field := Some "b" |}
  else if String.eqb s "brush:a[" then
    Some {| sd_selection := "brush"; sd_encoding := None; sd_field := Some "a[" |}
  else None.

(** [accessPathWithDatum] on a plain field name; a path with a bracket
    that is not closed is rejected, as [splitAccessPath] rejects it, and
    the sample knows no other structure in a path. *)
Definition sample_access (path datum : string) : option string :=
  if Nat.eqb (length (List.filter (Ascii.eqb "[") (list_ascii_of_string path)))
             (length (List.filter (Ascii.eqb "]") (list_ascii_of_string path)))
  then Some (datum +:+ "[" +:+ quote path +:+ "]")
  else None.

Definition external : External := {|
  stringValue := quote;
  json_string := quote;
  json_object := fun _ => "{}";
  json_parse := sample_parse;
  varName := fun s => s;
  accessPathWithDatum := sample_access;
  isDateTime := fun d => bool_decide (is_Some (year d));
  dateTimeExpr := fun d => "datetime(" +:+ pretty (default 0%Z (year d)) +:+ ")";
  unitName := fun m => quote (model_name m)
|}.

Definition date_2020_1_1 : DateTime := {|
  year := Some 2020%Z; quarter := None; month := Some (inl 1%Z); date := Some 1%Z;
  day := None; hours := None; minutes := None; seconds := None;
  milliseconds := None; utc := None
|}.

Definition selection_of (nm : string) (e : EmptyPolicy) (fs : option (list string))
  : SelectionComponent :=
  {| name := nm; resolve := Global; empty := e;
     project := {| items := map (fun f => {| p_field := f; p_channel := None |})
                                (default [] fs);
                   timeUnit := None |};
     fields := fs |}.

Definition plain_field (f : string) : FieldDef :=
  {| field := f; has_bin := false; has_aggregate := false; has_timeUnit := false |}.

Definition model_of (sels : list SelectionComponent)
    (enc : Channel -> option FieldDef) : Model :=
  {| model_name := "view";
     parent := None;
     selection := map (fun c => (name c, c)) sels;
     getSelectionComponent := fun vname _ =>
       own_selection vname (map (fun c => (name c, c)) sels);
     fieldDef := enc;
     raw := {| ancestors := [] |} |}.

(** A view whose one selection projects [a], with [a] on color and [b]
    on size. *)
Definition view_a_with_ab : Model :=
  model_of [selection_of "pick" EmptyAll (Some ["a"])]
           (fun ch => match ch with
                      | COLOR => Some (plain_field "a")
                      | SIZE => Some (plain_field "b")
                      | _ => None
                      end).

(** A view whose one selection projects [a] and [b], with only [a]
    encoded (on color). *)
Definition view_ab_with_a : Model :=
  model_of [selection_of "pick" EmptyAll (Some ["a"; "b"])]
           (fun ch => match ch with
                      | COLOR => Some (plain_field "a")
                      | _ => None
                      end).

(** A simple instance of what the legend merge takes from elsewhere. *)
Definition legend_external : LegendExternal := {|
  VG_LEGEND_PROPERTIES := ["direction"; "orient"; "symbolType"; "title"; "type"; "encode"];
  mergeTitleComponent := fun v1 _ => v1;
  parseGuideResolve := fun resolve channel =>
    match r_scale resolve !! channel with
    | Some Independent => Independent
    | _ => default Shared (r_legend resolve !! channel)
    end
|}.

Definition legend_left : LegendComponent :=
  {| split_explicit := {[ "orient" := LegendLit (LStr "left") ]};
     split_implicit := ∅ |}.

Definition legend_right : LegendComponent :=
  {| split_explicit := {[ "orient" := LegendLit (LStr "right") ]};
     split_implicit := ∅ |}.

Definition gradient_entry : EncodeEntry :=
  {| e_name := None; e_interactive := None;
     e_update := Some {[ "opacity" := Plain {| vr_test := None;
                                               vr_value := Some (LNum 1%Q);
                                               vr_signal := None |} ]} |}.

Definition legend_gradient : LegendComponent :=
  {| split_explicit := ∅;
     split_implicit :=
       <[ "type" := LegendLit (LStr "gradient") ]>
         {[ "encode" := LegendEncode {[ "gradient" := gradient_entry ]} ]} |}.

(** An implicit [gradient] legend that carries a gradient and a labels
    encode entry. *)
Definition legend_gradient_labels : LegendComponent :=
  {| split_explicit := ∅;
     split_implicit :=
       <[ "type" := LegendLit (LStr "gradient") ]>
         {[ "encode" := LegendEncode (<[ "gradient" := gradient_entry ]>
                                        {[ "labels" := gradient_entry ]}) ]} |}.

(** A legend whose [gradient] type is explicit, with an implicit
    gradient encode entry. *)
Definition legend_gradient_explicit : LegendComponent :=
  {| split_explicit := {[ "type" := LegendLit (LStr "gradient") ]};
     split_implicit := {[ "encode" := LegendEncode {[ "gradient" := gradient_entry ]} ]} |}.

(** An implicit [symbol] legend with an explicit orientation. *)
Definition legend_symbol_left : LegendComponent :=
  {| split_explicit := {[ "orient" := LegendLit (LStr "left") ]};
     split_implicit := {[ "type" := LegendLit (LStr "symbol") ]} |}.

Definition legend_symbol : LegendComponent :=
  {| split_explicit := ∅;
     split_implicit := {[ "type" := LegendLit (LStr "symbol") ]} |}.

Definition no_resolve : Resolve := {| r_scale := ∅; r_legend := ∅ |}.

(** An interval selection over [x] (field [a]) and [y] (field [b]). *)
Definition brush : SelectionComponent :=
  {| name := "brush"; resolve := Global; empty := EmptyAll;
     project := {| items := [ {| p_field := "a"; p_channel := Some "x" |};
                              {| p_field := "b"; p_channel := Some "y" |} ];
                   timeUnit := None |};
     fields := None |}.

(** A view that has no selection of its own and finds [brush] through
    its model. *)
Definition scale_view : Model :=
  {| model_name := "scale_view";
     parent := None;
     selection := [];
     getSelectionComponent := fun vname _ =>
       if String.eqb vname "brush" then Some brush else None;
     fieldDef := fun _ => None;
     raw := {| ancestors := [] |} |}.

(** A view with the field [a] on color, size and opacity, and its one
    selection, which projects [a]. *)
Definition view_a_everywhere : Model :=
  model_of [selection_of "pick" EmptyAll (Some ["a"])]
           (fun ch => match ch with
                      | COLOR | SIZE | OPACITY => Some (plain_field "a")
                      | _ => None
                      end).

Definition pick_a : InteractiveSelections :=
  {| i_name := "pick"; i_store := quote "pick_store"; i_fields := ["a"] |}.

(** Selection compilers that give every selection a tuple signal and a
    toggle signal with one handler each, and no transforms. *)
Definition compilers : Compilers := {|
  compiler := fun _ =>
    {| c_signals := fun _ c =>
         [ {| s_name := name c +:+ TUPLE;
              on := [ {| events := EventSelector "click";
                         update := "datum ? {unit: unit, values: [datum.a]} : null" |} ];
              s_update := None |};
           {| s_name := name c +:+ "_toggle";
              on := [ {| events := EventSelector "click"; update := "event.shiftKey" |} ];
              s_update := None |} ];
       c_modifyExpr := fun _ c => name c +:+ TUPLE |};
  transforms := fun _ => []
|}.

(** A selection over a temporal field, whose projection carries the
    time-unit node [tu_year]. *)
Definition by_year : SelectionComponent :=
  {| name := "by_year"; resolve := Union; empty := EmptyAll;
     project := {| items := [ {| p_field := "year_date"; p_channel := Some "x" |} ];
                   timeUnit := Some "tu_year" |};
     fields := None |}.

(** A view with the selections [by_year], [brush] and a [pick] whose
    [empty] is ['none']. *)
Definition filter_view : Model :=
  model_of [by_year; brush; selection_of "pick" EmptyNone None] (fun _ => None).

(** [by_year && !(pick) && (brush || by_year)]. *)
Definition filter_tree : LogicalOperand :=
  LogicalAnd [Leaf "by_year"; LogicalNot (Leaf "pick");
              LogicalOr [Leaf "brush"; Leaf "by_year"]].

Definition pair_ab : InteractiveSelections :=
  {| i_name := "pair"; i_store := quote "pair_store"; i_fields := ["a"; "b"] |}.

(** The tuple and the toggle signal of a selection, with one handler
    each. *)
Definition signals_for (nm : string) : list Signal :=
  [ {| s_name := nm +:+ TUPLE;
       on := [ {| events := EventSelector "click";
                  update := "datum ? {unit: unit, values: [datum.a]} : null" |} ];
       s_update := None |};
    {| s_name := nm +:+ "_toggle";
       on := [ {| events := EventSelector "click"; update := "event.shiftKey" |} ];
       s_update := None |} ].

Definition legend_implicit_right : LegendComponent :=
  {| split_explicit := ∅;
     split_implicit := {[ "orient" := LegendLit (LStr "right") ]} |}.

Definition legend_square : LegendComponent :=
  {| split_explicit := ∅;
     split_implicit := {[ "symbolType" := LegendLit (LStr "square") ]} |}.

Definition legend_circle : LegendComponent :=
  {| split_explicit := ∅;
     split_implicit := {[ "symbolType" := LegendLit (LStr "circle") ]} |}.

(** An implicit [symbol] legend with an explicit orientation and an
    explicit [encode] of a gradient and a labels part. *)
Definition legend_symbol_encode : LegendComponent :=
  {| split_explicit :=
       <[ "orient" := LegendLit (LStr "left") ]>
         {[ "encode" := LegendEncode (<[ "gradient" := gradient_entry ]>
                                        {[ "labels" := gradient_entry ]}) ]};
     split_implicit := {[ "type" := LegendLit (LStr "symbol") ]} |}.

(** A resolve whose scales are shared and whose color legend is set to
    be independent. *)
Definition color_legend_independent : Resolve :=
  {| r_scale := ∅; r_legend := {[ COLOR := Independent ]} |}.

(** A resolve whose color scale is independent. *)
Definition color_independent : Resolve :=
  {| r_scale := {[ COLOR := Independent ]}; r_legend := ∅ |}.


(** The sample view nested in another view. *)
Definition nested_view : Model :=
  {| model_name := "child";
     parent := Some filter_view;
     selection := selection view_a_everywhere;
     getSelectionComponent := getSelectionComponent view_a_everywhere;
     fieldDef := fieldDef view_a_everywhere;
     raw := {| ancestors := [] |} |}.

(** The compilers of [compilers] with one transform, which has no
    [signals] and extends the modify expression by the toggle signal. *)
Definition compilers_toggle : Compilers := {|
  compiler := @compiler compilers;
  transforms := fun _ =>
    [ {| t_signals := None;
         t_modifyExpr := Some (fun _ c e => e +:+ ", " +:+ name c +:+ "_toggle") |} ]
|}.


(** The top level of a compilation whose compilers and transforms
    contribute no top-level signals of their own. *)
Definition top_level : TopLevel := {|
  VL_SELECTION_RESOLVE := "vlSelectionResolve";
  c_topLevelSignals := fun _ => None;
  t_topLevelSignals := fun _ => [None]
|}.

(** A view with the selections [brush], resolved globally, and [pick],
    resolved as a union. *)
Definition two_selections : Model :=
  model_of [brush;
            {| name := "pick"; resolve := Union; empty := EmptyAll;
               project := {| items := [ {| p_field := "a"; p_channel := None |} ];
                             timeUnit := None |};
               fields := Some ["a"] |}]
           (fun _ => None).

End Sample.

(** ** Facts about strings and the helpers *)

Lemma string_app_cons (ch : ascii) (a b : string) :
  String ch a +:+ b = String ch (a +:+ b).
Proof. reflexivity. Qed.

Lemma string_app_nil_l (b : string) : "" +:+ b = b.
Proof. reflexivity. Qed.

Lemma string_app_assoc (a b c : string) : (a +:+ b) +:+ c = a +:+ (b +:+ c).
Proof.
  induction a as [|ch a IH]; [reflexivity|].
  rewrite !string_app_cons. now rewrite IH.
Qed.

(** Strings built by the same concatenations, differently bracketed. *)
Ltac string_eq := repeat rewrite string_app_assoc; reflexivity.

Lemma string_app_nil_r (a : string) : a +:+ "" = a.
Proof.
  induction a as [|ch a IH]; [reflexivity|].
  rewrite string_app_cons. now rewrite IH.
Qed.

Lemma string_app_length (a b : string) :
  String.length (a +:+ b) = String.length a + String.length b.
Proof.
  induction a as [|ch a IH]; [reflexivity|].
  rewrite string_app_cons. simpl. now rewrite IH.
Qed.

Lemma string_app_inv_tail (a b c : string) : a +:+ c = b +:+ c -> a = b.
Proof.
  revert b. induction a as [|ch a IH]; intros [|ch' b] H.
  - reflexivity.
  - apply (f_equal String.length) in H.
    rewrite string_app_nil_l, string_app_cons in H. simpl in H.
    rewrite string_app_length in H. lia.
  - apply (f_equal String.length) in H.
    rewrite string_app_nil_l, string_app_cons in H. simpl in H.
    rewrite string_app_length in H. lia.
  - rewrite !string_app_cons in H. injection H as -> H. f_equal. now apply IH.
Qed.

Lemma indexOf_range (x : string) (l : list string) :
  (indexOf x l = -1 \/ 0 <= indexOf x l < Z.of_nat (length l))%Z.
Proof.
  induction l as [|y l IH]; simpl; [now left|].
  destruct (String.eqb y x); [right; lia|].
  destruct (Z.ltb_spec (indexOf x l) 0); [now left|right; lia].
Qed.

Lemma indexOf_In (x : string) (l : list string) :
  (0 <= indexOf x l)%Z <-> In x l.
Proof.
  induction l as [|y l IH]; simpl; [split; [lia|tauto]|].
  destruct (String.eqb_spec y x) as [->|Hne].
  - split; [now left|lia].
  - destruct (Z.ltb_spec (indexOf x l) 0) as [Hlt|Hge].
    + split; [lia|]. intros [?|Hin]; [congruence|]. apply IH in Hin. lia.
    + split; [intros _; right; apply IH; lia|lia].
Qed.

Lemma indexOf_notIn (x : string) (l : list string) :
  indexOf x l = (-1)%Z <-> ~ In x l.
Proof.
  rewrite <- indexOf_In. destruct (indexOf_range x l); lia.
Qed.

Lemma filter_index_In {A} (p : A -> Z -> bool) (i : Z) (l : list A) (x : A) :
  In x (filter_index p i l) -> In x l.
Proof.
  revert i. induction l as [|v l IH]; simpl; intros i; [tauto|].
  destruct (p v i); simpl; intros H.
  - destruct H as [->|H]; [now left|right; eauto].
  - right; eauto.
Qed.

(** The element at the position [indexOf] reports survives [unique]. *)
Lemma filter_index_first (a pre l : list string) (x : string) :
  a = pre ++ l -> ~ In x pre -> In x l ->
  In x (filter_index (fun v i => (indexOf v a =? i)%Z) (Z.of_nat (length pre)) l).
Proof.
  revert pre. induction l as [|v l IH]; intros pre Ha Hpre Hin; [destruct Hin|].
  assert (Hidx : forall q, ~ In x q -> forall r,
            indexOf x (q ++ x :: r) = Z.of_nat (length q)).
  { induction q as [|y q IHq]; intros Hq r; simpl.
    - now rewrite String.eqb_refl.
    - destruct (String.eqb_spec y x) as [->|_]; [exfalso; apply Hq; now left|].
      rewrite IHq by (intros ?; apply Hq; now right).
      destruct (Z.ltb_spec (Z.of_nat (length q)) 0); lia. }
  simpl. destruct (String.eqb_spec v x) as [->|Hne].
  - rewrite Ha, Hidx by assumption. rewrite Z.eqb_refl. now left.
  - destruct Hin as [?|Hin]; [congruence|].
    assert (Hrec : In x (filter_index (fun v0 i => (indexOf v0 a =? i)%Z)
                           (Z.of_nat (length (pre ++ [v]))) l)).
    { apply IH; [now rewrite <- app_assoc| |assumption].
      rewrite in_app_iff. simpl. intros [?|[?|[]]]; [tauto|congruence]. }
    rewrite length_app in Hrec. simpl in Hrec.
    replace (Z.of_nat (length pre + 1)) with (Z.of_nat (length pre) + 1)%Z in Hrec by lia.
    destruct (indexOf v a =? Z.of_nat (length pre))%Z; [now right|assumption].
Qed.

Lemma unique_In (x : string) (a : list string) : In x (unique a) <-> In x a.
Proof.
  split; [apply filter_index_In|].
  intros H. apply (filter_index_first a [] a x); auto.
Qed.

(** ** The expression assembler *)

Lemma pretty_N_go_length (x : N) (s : string) :
  String.length s <= String.length (pretty_N_go x s).
Proof.
  revert s. induction (N.lt_wf_0 x) as [x _ IH]. intros s.
  destruct (decide (0 < x)%N) as [Hx|Hx].
  - rewrite pretty_N_go_step by assumption.
    etransitivity; [|apply IH; apply N.div_lt; lia]. simpl. lia.
  - assert (x = 0%N) as -> by lia. now rewrite pretty_N_go_0.
Qed.

(** A number has at least one digit. *)
Lemma digits_length (s : positive) : 1 <= String.length (pretty (N.pos s)).
Proof.
  unfold pretty, pretty_N. destruct (decide (N.pos s = 0%N)) as [Hz|_]; [discriminate|].
  rewrite pretty_N_go_step by lia.
  etransitivity; [|apply pretty_N_go_length]. simpl. lia.
Qed.

Section AssembleInit.
Context `{External}.
Import Assemble.

(** C7. [assembleInit] renders an array as the bracketed, comma-joined
    list of its recursively assembled elements, the brackets outside
    [wrap]; a date/time object as [wrap] of its date expression; any
    other value as [wrap] of its JSON serialization: [true] and [false]
    for the booleans, the quoted string for a string, [null] for a
    number that is not finite, [0] for a zero, and for any other number
    its digits as the language prints them, in full with up to 21
    integer digits and at least 1e-6 in size, and in exponent notation
    otherwise.  On [[{year: 2020, month: 1, date: 1}, 5]] with the
    identity [wrap] the result is the two-element bracketed expression
    of the date expression and the literal [5]. *)
Theorem assembleInit_spec :
  (forall l wrap,
      assembleInit (InitArray l) wrap =
      "[" +:+ join ", " (map (fun v => assembleInit v wrap) l) +:+ "]")
  /\ (forall d wrap, isDateTime d = true ->
        assembleInit (InitValue (InitDateTime d)) wrap = wrap (dateTimeExpr d))
  /\ (forall d wrap, isDateTime d = false ->
        assembleInit (InitValue (InitDateTime d)) wrap = wrap (json_object d))
  /\ (forall wrap,
        assembleInit (InitValue (InitBool true)) wrap = wrap "true" /\
        assembleInit (InitValue (InitBool false)) wrap = wrap "false")
  /\ (forall s wrap, assembleInit (InitValue (InitStr s)) wrap = wrap (json_string s))
  /\ (forall negative wrap,
        assembleInit (InitValue (InitNum JsNaN)) wrap = wrap "null" /\
        assembleInit (InitValue (InitNum (JsInfinity negative))) wrap = wrap "null" /\
        assembleInit (InitValue (InitNum JsZero)) wrap = wrap "0")
  /\ (forall (negative : bool) (s : positive) (n : Z) (wrap : string -> string),
        let ds := pretty (N.pos s) in
        let k := Z.of_nat (String.length ds) in
        let sign : string := if negative then "-" else "" in
        let zeros (m : nat) := string_of_list_ascii (repeat "0"%char m) in
        let exponent : string :=
          (if (n - 1 <? 0)%Z then "-" else "+") +:+ pretty (Z.abs (n - 1)) in
        let rendered := assembleInit (InitValue (InitNum (JsFinite negative s n))) wrap in
        ((k <= n <= 21)%Z ->
           rendered = wrap (sign +:+ ds +:+ zeros (Z.to_nat (n - k))))
        /\ ((0 < n < k)%Z -> (n <= 21)%Z ->
           rendered = wrap (sign +:+ substring 0 (Z.to_nat n) ds +:+ "." +:+
                            substring (Z.to_nat n) (Z.to_nat (k - n)) ds))
        /\ ((-6 < n <= 0)%Z ->
           rendered = wrap (sign +:+ "0." +:+ zeros (Z.to_nat (- n)) +:+ ds))
        /\ ((n <= -6 \/ 21 < n)%Z -> k = 1%Z ->
           rendered = wrap (sign +:+ ds +:+ "e" +:+ exponent))
        /\ ((n <= -6 \/ 21 < n)%Z -> k <> 1%Z ->
           rendered = wrap (sign +:+ substring 0 1 ds +:+ "." +:+
                            substring 1 (Z.to_nat (k - 1)) ds +:+ "e" +:+ exponent)))
  /\ (isDateTime Sample.date_2020_1_1 = true ->
        assembleInit (InitArray [InitValue (InitDateTime Sample.date_2020_1_1);
                                 InitValue (InitNum (JsFinite false 5 1))]) identity =
        "[" +:+ (dateTimeExpr Sample.date_2020_1_1 +:+ ", " +:+ "5") +:+ "]").
Proof.
  split; [reflexivity|].
  split; [intros d wrap Hd; simpl; now rewrite Hd|].
  split; [intros d wrap Hd; simpl; now rewrite Hd|].
  split; [intros wrap; split; reflexivity|].
  split; [reflexivity|].
  split; [intros negative wrap; repeat split; reflexivity|].
  split.
  - intros negative s n wrap ds k sign zeros0 exponent rendered.
    assert (Hdigits : (1 <= k)%Z) by (pose proof (digits_length s); subst k ds; lia).
    subst rendered zeros0. cbn [assembleInit JSON_stringify Number_toString].
    unfold zeros. fold ds. fold k. change (if negative then "-" else "") with sign.
    cbv beta.
    repeat split.
    + intros [Hk Hn]. apply Z.leb_le in Hk, Hn. rewrite Hk, Hn. reflexivity.
    + intros [H0 Hk] Hn.
      apply Z.leb_gt in Hk. apply Z.ltb_lt in H0. apply Z.leb_le in Hn.
      rewrite Hk, H0, Hn. cbn [andb]. first [reflexivity | f_equal; string_eq].
    + intros [H6 H0].
      assert (Hk : (k <=? n)%Z = false).
      { apply Z.leb_gt. lia. }
      rewrite Hk. cbn [andb].
      assert (Hpos : (0 <? n)%Z = false) by (apply Z.ltb_ge; exact H0).
      rewrite Hpos. cbn [andb].
      apply Z.ltb_lt in H6. apply Z.leb_le in H0. rewrite H6, H0. cbn [andb].
      first [reflexivity | f_equal; string_eq].
    + intros Hn Hk.
      assert (H1 : ((k <=? n) && (n <=? 21))%Z = false).
      { apply andb_false_iff. destruct Hn; [left; apply Z.leb_gt|right; apply Z.leb_gt]; lia. }
      assert (H2 : ((0 <? n) && (n <=? 21))%Z = false).
      { apply andb_false_iff. destruct Hn; [left; apply Z.ltb_ge|right; apply Z.leb_gt]; lia. }
      assert (H3 : ((-6 <? n) && (n <=? 0))%Z = false).
      { apply andb_false_iff. destruct Hn; [left; apply Z.ltb_ge|right; apply Z.leb_gt]; lia. }
      rewrite H1, H2, H3. apply Z.eqb_eq in Hk. rewrite Hk. first [reflexivity | f_equal; string_eq].
    + intros Hn Hk.
      assert (H1 : ((k <=? n) && (n <=? 21))%Z = false).
      { apply andb_false_iff.
        destruct Hn; [left; apply Z.leb_gt|right; apply Z.leb_gt]; lia. }
      assert (H2 : ((0 <? n) && (n <=? 21))%Z = false).
      { apply andb_false_iff. destruct Hn; [left; apply Z.ltb_ge|right; apply Z.leb_gt]; lia. }
      assert (H3 : ((-6 <? n) && (n <=? 0))%Z = false).
      { apply andb_false_iff. destruct Hn; [left; apply Z.ltb_ge|right; apply Z.leb_gt]; lia. }
      rewrite H1, H2, H3. apply Z.eqb_neq in Hk. rewrite Hk. first [reflexivity | f_equal; string_eq].
  - intros Hd. simpl. rewrite Hd. reflexivity.
Qed.

End AssembleInit.

(** The sample collaborators recognise the date, and the example of C7
    evaluates to the expected text; the numbers 1500, -12.25, 0.5,
    0.000001, 1.5e-7 and 1e21, a number that is not finite, a boolean
    and a string. *)
Lemma assembleInit_spec_witness :
  isDateTime (External := Sample.external) Sample.date_2020_1_1 = true /\
  Assemble.assembleInit (H := Sample.external)
    (InitArray [InitValue (InitDateTime Sample.date_2020_1_1);
                InitValue (InitNum (JsFinite false 5 1))])
    identity = "[datetime(2020), 5]" /\
  Assemble.assembleInit (H := Sample.external)
    (InitArray [InitValue (InitNum (JsFinite false 15 4));
                InitValue (InitNum (JsFinite true 1225 2));
                InitValue (InitNum (JsFinite false 5 0));
                InitValue (InitNum (JsFinite false 1 (-5)));
                InitValue (InitNum (JsFinite false 15 (-6)));
                InitValue (InitNum (JsFinite false 1 22));
                InitValue (InitNum (JsInfinity true));
                InitValue (InitBool true);
                InitValue (InitStr "a")])
    identity =
  "[1500, -12.25, 0.5, 0.000001, 1.5e-7, 1e+21, null, true, " +:+ Sample.quote "a" +:+ "]".
Proof.
  split; [reflexivity|].
  destruct (assembleInit_spec (H := Sample.external))
    as (_ & _ & _ & _ & _ & _ & _ & Hex).
  split; [rewrite (Hex eq_refl); reflexivity|reflexivity].
Defined.

(** ** The selection predicate of a lone leaf *)

Section Predicate.
Context `{External}.
Import Assemble.

(** C1. For a lone-leaf tree naming a selection whose projection has no
    time unit, the predicate is the parenthesized store test, prefixed
    with [!(length(data(<store>))) || ] when the selection's [empty] is
    ['all'] and with nothing when it is ['none']; the dataflow is left as
    it was. *)
Theorem assembleSelectionPredicate_lone_leaf
    (model : Model) (nm : string) (selCmpt : SelectionComponent)
    (dfnode : option DataFlowNode) :
  getSelectionComponent model (varName nm) nm = Some selCmpt ->
  timeUnit (project selCmpt) = None ->
  let store := stringValue (varName nm +:+ STORE) in
  let test := "vlSelectionTest(" +:+ store +:+ ", datum" +:+
              match resolve selCmpt with
              | Global => ")"
              | r => ", " +:+ stringValue (resolution_string r) +:+ ")"
              end in
  assembleSelectionPredicate model (Leaf nm) dfnode =
  Some (match empty selCmpt with
        | EmptyAll => "!(length(data(" +:+ store +:+ "))) || " +:+ "(" +:+ test +:+ ")"
        | EmptyNone => "(" +:+ test +:+ ")"
        end,
        default (raw model) dfnode).
Proof.
  intros Hsel Htu store test.
  unfold assembleSelectionPredicate. simpl.
  unfold expr, mbind, Asm_bind, lift_option. rewrite Hsel. simpl.
  rewrite Htu. simpl.
  destruct (empty selCmpt); simpl; f_equal; f_equal; subst store test;
    destruct (resolve selCmpt); string_eq.
Qed.

End Predicate.

(** C1 on a sample view with one selection of each [empty] policy. *)
Lemma assembleSelectionPredicate_lone_leaf_witness :
  let m := Sample.model_of [Sample.selection_of "brush" EmptyAll None;
                            Sample.selection_of "pick" EmptyNone None]
                           (fun _ => None) in
  Assemble.assembleSelectionPredicate (H := Sample.external) m (Leaf "brush") None =
    Some ("!(length(data(" +:+ Sample.quote "brush_store" +:+ "))) || (vlSelectionTest(" +:+
          Sample.quote "brush_store" +:+ ", datum))", {| ancestors := [] |})
  /\ Assemble.assembleSelectionPredicate (H := Sample.external) m (Leaf "pick") None =
    Some ("(vlSelectionTest(" +:+ Sample.quote "pick_store" +:+ ", datum))",
          {| ancestors := [] |}).
Proof.
  intros m. split.
  - exact (assembleSelectionPredicate_lone_leaf (H := Sample.external) m "brush"
             (Sample.selection_of "brush" EmptyAll None) None eq_refl eq_refl).
  - exact (assembleSelectionPredicate_lone_leaf (H := Sample.external) m "pick"
             (Sample.selection_of "pick" EmptyNone None) None eq_refl eq_refl).
Defined.

(** ** Store datasets *)

Section StoreData.
Import Assemble.







End StoreData.

(** ** The interactive-legend test *)

Section InteractiveLegendExists.
Context `{External}.
Import LegendParse.

Lemma fold_push_projecting_In (x : InteractiveSelections)
    (l : list SelectionComponent) (acc : list InteractiveSelections) :
  In x (fold_left push_projecting l acc) <->
  In x acc \/
  exists selCmpt fs, In selCmpt l /\ fields selCmpt = Some fs /\
    x = {| i_name := name selCmpt;
           i_store := stringValue (name selCmpt +:+ STORE);
           i_fields := fs |}.
Proof.
  revert acc. induction l as [|c l IH]; intros acc; simpl.
  - split; [now left|]. intros [?|(c & fs & [] & _)]. assumption.
  - rewrite IH. unfold push_projecting. destruct (fields c) as [fs|] eqn:Hf.
    + rewrite in_app_iff. simpl. split.
      * intros [[Hacc|[<-|[]]]|(c' & fs' & Hin & Hf' & ->)].
        -- now left.
        -- right. exists c, fs. auto.
        -- right. exists c', fs'. auto.
      * intros [Hacc|(c' & fs' & [<-|Hin] & Hf' & ->)].
        -- left. now left.
        -- left. right. left. congruence.
        -- right. exists c', fs'. auto.
    + split.
      * intros [Hacc|(c' & fs' & Hin & Hf' & ->)]; [now left|].
        right. exists c', fs'. auto.
      * intros [Hacc|(c' & fs' & [<-|Hin] & Hf' & ->)]; [now left|congruence|].
        right. exists c', fs'. auto.
Qed.

Lemma selection_fields_projected (model : Model) (f : string) :
  In f (selection_fields (projecting_selections model)) <-> projected_field model f.
Proof.
  unfold selection_fields, flatten, projected_field, projecting_selections.
  rewrite unique_In, in_concat. split.
  - intros (fs & Hfs & Hf). apply in_map_iff in Hfs as (x & <- & Hx).
    apply fold_push_projecting_In in Hx as [[]|(c & fs & Hin & Hc & ->)].
    exists c, fs. auto.
  - intros (c & fs & Hin & Hc & Hf). exists fs. split; [|assumption].
    apply in_map_iff.
    exists {| i_name := name c; i_store := stringValue (name c +:+ STORE); i_fields := fs |}.
    split; [reflexivity|]. apply fold_push_projecting_In. right. exists c, fs. auto.
Qed.

Lemma fold_push_encoding_field_In (model : Model) (f : string)
    (chs : list Channel) (acc : list string) :
  In f (fold_left (push_encoding_field model) chs acc) <->
  In f acc \/
  exists channel fd, In channel chs /\ fieldDef model channel = Some fd /\
    has_bin fd = false /\ has_aggregate fd = false /\ has_timeUnit fd = false /\
    field fd = f.
Proof.
  revert acc. induction chs as [|ch chs IH]; intros acc; simpl.
  - split; [now left|]. intros [?|(c & fd & [] & _)]. assumption.
  - rewrite IH. unfold push_encoding_field.
    destruct (fieldDef model ch) as [fd|] eqn:Hfd.
    + destruct (has_bin fd) eqn:Hb, (has_aggregate fd) eqn:Ha, (has_timeUnit fd) eqn:Ht;
        simpl; try rewrite in_app_iff; simpl.
      all: split;
        [ intros [Hl|(c & fd' & Hin & Hfd' & Hb' & Ha' & Ht' & Hf)];
          [ try (destruct Hl as [Hl|[Hl|[]]]); try (now left);
            try (right; exists ch, fd; repeat split; auto)
          | right; exists c, fd'; repeat split; auto ]
        | intros [Hl|(c & fd' & [<-|Hin] & Hfd' & Hb' & Ha' & Ht' & Hf)];
          [ try (now left); left; now left
          | try congruence
          | right; exists c, fd'; repeat split; auto ] ].
      left. right. left. congruence.
    + split.
      * intros [Hl|(c & fd' & Hin & Hrest)]; [now left|]. right. exists c, fd'. auto.
      * intros [Hl|(c & fd' & [<-|Hin] & Hfd' & Hrest)]; [now left|congruence|].
        right. exists c, fd'. auto.
Qed.

Lemma encoding_fields_counted (model : Model) (f : string) :
  In f (encoding_fields model) <-> counted_field model f.
Proof.
  unfold encoding_fields, counted_field.
  rewrite unique_In, fold_push_encoding_field_In. simpl. tauto.
Qed.

Lemma filter_nil_iff {A} (p : A -> bool) (l : list A) :
  List.filter p l = [] <-> forall x, In x l -> p x = false.
Proof.
  induction l as [|a l IH]; simpl; [tauto|].
  destruct (p a) eqn:Hp.
  - split; [discriminate|]. intros Hall. specialize (Hall a (or_introl eq_refl)). congruence.
  - rewrite IH. split.
    + intros Hall x [<-|Hin]; auto.
    + intros Hall x Hin. auto.
Qed.

(** The condition the code tests, on the lists it computes. *)
Lemma interactiveLegendExists_nonempty (model : Model) :
  interactiveLegendExists model <> [] <->
  parent model = None /\ projecting_selections model <> [] /\
  (forall f, In f (selection_fields (projecting_selections model)) ->
             In f (encoding_fields model)).
Proof.
  unfold interactiveLegendExists.
  destruct (parent model) as [p|]; [split; [congruence|intros (? & _); congruence]|].
  destruct (projecting_selections model) as [|s sels] eqn:Hsel;
    [split; [congruence|intros (_ & ? & _); congruence]|].
  destruct (List.filter _ _) eqn:Hdiff.
  - split; [|congruence]. intros _. split; [reflexivity|split; [congruence|]].
    intros f Hf. rewrite filter_nil_iff in Hdiff. specialize (Hdiff f Hf).
    apply indexOf_In. apply Z.eqb_neq in Hdiff.
    destruct (indexOf_range f (encoding_fields model)); lia.
  - split; [congruence|]. intros (_ & _ & Hall). exfalso.
    assert (Hin : In s0 (s0 :: l)) by now left.
    rewrite <- Hdiff in Hin. apply filter_In in Hin as (Hin & Hp).
    apply Z.eqb_eq in Hp. apply Hall in Hin. apply indexOf_In in Hin. lia.
Qed.

(** A non-empty answer is the list of the field-projecting selections. *)
Lemma interactiveLegendExists_projecting (model : Model) :
  interactiveLegendExists model <> [] ->
  interactiveLegendExists model = projecting_selections model.
Proof.
  intros Hne. unfold interactiveLegendExists in *.
  destruct (parent model); [congruence|].
  destruct (projecting_selections model); [congruence|].
  destruct (List.filter _ _); [reflexivity|congruence].
Qed.

(** C2 (amended). [interactiveLegendExists] returns a non-empty list,
    the field-projecting selections, exactly when the model has no
    parent, some selection projects fields, and every projected field is
    a field of a color, opacity, size or shape encoding without bin,
    aggregate or time unit; a projected field that no such encoding uses
    makes it return the empty list. *)
Theorem interactiveLegendExists_covered (model : Model) :
  (interactiveLegendExists model <> [] <->
     parent model = None /\
     (exists selCmpt, In selCmpt (selections_of model) /\ fields selCmpt <> None) /\
     (forall f, projected_field model f -> counted_field model f))
  /\ (interactiveLegendExists model <> [] ->
        interactiveLegendExists model = projecting_selections model)
  /\ (forall f, projected_field model f -> ~ counted_field model f ->
        interactiveLegendExists model = []).
Proof.
  assert (Hproj : projecting_selections model <> [] <->
            exists selCmpt, In selCmpt (selections_of model) /\ fields selCmpt <> None).
  { unfold projecting_selections. split.
    - destruct (fold_left _ _ _) as [|x l] eqn:Hx; [congruence|]. intros _.
      assert (Hin : In x (x :: l)) by now left.
      rewrite <- Hx in Hin.
      apply fold_push_projecting_In in Hin as [[]|(c & fs & Hin & Hc & _)].
      exists c. split; [assumption|congruence].
    - intros (c & Hin & Hc) Hnil. destruct (fields c) as [fs|] eqn:Hfs; [|congruence].
      assert (Hx : In {| i_name := name c; i_store := stringValue (name c +:+ STORE);
                         i_fields := fs |}
                      (fold_left push_projecting (selections_of model) [])).
      { apply fold_push_projecting_In. right. exists c, fs. auto. }
      rewrite Hnil in Hx. destruct Hx. }
  assert (Hiff : interactiveLegendExists model <> [] <->
     parent model = None /\
     (exists selCmpt, In selCmpt (selections_of model) /\ fields selCmpt <> None) /\
     (forall f, projected_field model f -> counted_field model f)).
  { rewrite interactiveLegendExists_nonempty, Hproj.
    split; intros (Hp & Hs & Hall); (split; [assumption|split; [assumption|]]); intros f Hf.
    - apply encoding_fields_counted, Hall, selection_fields_projected, Hf.
    - apply encoding_fields_counted, Hall, selection_fields_projected, Hf. }
  split; [exact Hiff|split].
  - apply interactiveLegendExists_projecting.
  - intros f Hp Hc.
    assert (Hdec : forall l : list InteractiveSelections, l = [] \/ l <> [])
      by (intros [|? ?]; [now left|right; congruence]).
    destruct (Hdec (interactiveLegendExists model)) as [He|Hne]; [assumption|].
    exfalso. apply Hiff in Hne as (_ & _ & Hall). auto.
Qed.

End InteractiveLegendExists.

(** C2 as stated fails.  The selection of this view projects [a]; [a] is
    on color and [b] on size, so the two field sets differ, and yet the
    list returned is not empty. *)
Lemma interactiveLegendExists_not_exact :
  LegendParse.interactiveLegendExists (H := Sample.external) Sample.view_a_with_ab <> []
  /\ ~ (forall f, LegendParse.projected_field Sample.view_a_with_ab f <->
                  LegendParse.counted_field Sample.view_a_with_ab f).
Proof.
  split; [vm_compute; discriminate|].
  intros Hall.
  assert (Hb : LegendParse.counted_field Sample.view_a_with_ab "b").
  { exists SIZE, (Sample.plain_field "b"). simpl. repeat split; auto. }
  apply Hall in Hb as (c & fs & Hin & Hfs & Hf).
  simpl in Hin. destruct Hin as [<-|[]]. simpl in Hfs.
  injection Hfs as <-. simpl in Hf. destruct Hf as [Hf|[]]. discriminate.
Qed.

(** The spec's example of C2: the selection projects [a] and [b], only
    [a] is encoded, and the list is empty. *)
Lemma interactiveLegendExists_covered_witness :
  LegendParse.projected_field Sample.view_ab_with_a "b" /\
  ~ LegendParse.counted_field Sample.view_ab_with_a "b" /\
  LegendParse.interactiveLegendExists (H := Sample.external) Sample.view_ab_with_a = [].
Proof.
  assert (Hp : LegendParse.projected_field Sample.view_ab_with_a "b").
  { exists (Sample.selection_of "pick" EmptyAll (Some ["a"; "b"])), ["a"; "b"].
    simpl. auto. }
  assert (Hc : ~ LegendParse.counted_field Sample.view_ab_with_a "b").
  { intros (ch & fd & Hin & Hfd & _ & _ & _ & Hf). simpl in Hin.
    destruct Hin as [<-|[<-|[<-|[<-|[]]]]]; simpl in Hfd; try discriminate.
    injection Hfd as <-. discriminate. }
  split; [exact Hp|split; [exact Hc|]].
  destruct (interactiveLegendExists_covered (H := Sample.external) Sample.view_ab_with_a)
    as (_ & _ & Hempty).
  exact (Hempty "b" Hp Hc).
Defined.

(** ** Merging legend components *)

Section MergeLegend.
Context `{LegendExternal}.
Import LegendParse.

Lemma getWithExplicit_set_other (c : LegendComponent) (key k : string)
    (v : LegendValue) (b : bool) :
  key <> k -> getWithExplicit (set c key v b) k = getWithExplicit c k.
Proof.
  intros Hne. unfold getWithExplicit, set. destruct b; simpl.
  - now rewrite lookup_insert_ne, lookup_delete_ne.
  - now rewrite lookup_insert_ne, lookup_delete_ne.
Qed.

Lemma getWithExplicit_set_same (c : LegendComponent) (key : string)
    (v : LegendValue) (b : bool) :
  getWithExplicit (set c key v b) key = {| explicit := b; value := Some v |}.
Proof.
  unfold getWithExplicit, set. destruct b; simpl.
  - now rewrite lookup_insert_eq.
  - now rewrite lookup_delete_eq, lookup_insert_eq.
Qed.

Lemma merge_property_other (childLegend : LegendComponent)
    (st : LegendComponent * bool) (prop k : string) :
  prop <> k ->
  getWithExplicit (fst (merge_property childLegend st prop)) k = getWithExplicit (fst st) k.
Proof.
  intros Hne. destruct st as [m f]. unfold merge_property.
  destruct (mergeValuesWithExplicit _ _ _) as [v fl]. simpl.
  unfold setWithExplicit. destruct (value v); [|reflexivity].
  now apply getWithExplicit_set_other.
Qed.

Lemma fold_merge_property_other (childLegend : LegendComponent) (props : list string)
    (st : LegendComponent * bool) (k : string) :
  ~ In k props ->
  getWithExplicit (fst (fold_left (merge_property childLegend) props st)) k =
  getWithExplicit (fst st) k.
Proof.
  revert st. induction props as [|p props IH]; intros st Hnin; [reflexivity|].
  simpl. rewrite IH by (intros ?; apply Hnin; now right).
  apply merge_property_other. intros ->. apply Hnin. now left.
Qed.

Lemma fold_merge_property_flag (childLegend : LegendComponent) (props : list string)
    (st : LegendComponent * bool) :
  snd st = true -> snd (fold_left (merge_property childLegend) props st) = true.
Proof.
  revert st. induction props as [|p props IH]; intros st Hst; [assumption|].
  simpl. apply IH. destruct st as [m f]. simpl in Hst. subst f.
  unfold merge_property. destruct (mergeValuesWithExplicit _ _ _). reflexivity.
Qed.

(** Two different values of the same provenance reach the tie breaker,
    which for [type] answers the implicit ['symbol'] and sets the flag. *)
Lemma merge_property_type_tie (childLegend : LegendComponent)
    (st : LegendComponent * bool) (b : bool) (t1 t2 : LegendValue) :
  getWithExplicit (fst st) "type" = {| explicit := b; value := Some t1 |} ->
  getWithExplicit childLegend "type" = {| explicit := b; value := Some t2 |} ->
  t1 <> t2 ->
  let st' := merge_property childLegend st "type" in
  getWithExplicit (fst st') "type" = makeImplicit (LegendLit (LStr "symbol")) /\
  snd st' = true.
Proof.
  intros H1 H2 Hne. destruct st as [m f]. simpl in H1. unfold merge_property.
  rewrite H1, H2. unfold mergeValuesWithExplicit. simpl.
  assert (Hdec : bool_decide (Some t1 = Some t2) = false)
    by (apply bool_decide_eq_false; congruence).
  destruct b; simpl; rewrite Hdec; simpl.
  - split; [apply getWithExplicit_set_same|apply orb_true_r].
  - split; [apply getWithExplicit_set_same|apply orb_true_r].
Qed.

Lemma strip_gradient_none (half : gmap string LegendValue) (e : gmap string EncodeEntry) :
  (if has_gradient half then deleteNestedProperty_encode_gradient half else half)
    !! "encode" = Some (LegendEncode e) ->
  e !! "gradient" = None.
Proof.
  unfold has_gradient, deleteNestedProperty_encode_gradient.
  destruct (half !! "encode") as [[l|l|e0]|] eqn:Hh; try (rewrite Hh; congruence).
  destruct (bool_decide (is_Some (e0 !! "gradient"))) eqn:Hg.
  - destruct (bool_decide (delete "gradient" e0 = ∅)).
    + rewrite lookup_delete_eq. discriminate.
    + rewrite lookup_insert_eq. intros [= <-]. apply lookup_delete_eq.
  - rewrite Hh. intros [= <-]. apply bool_decide_eq_false in Hg.
    destruct (e0 !! "gradient"); [exfalso; apply Hg; eauto|reflexivity].
Qed.

Lemma strip_gradient_other (half : gmap string LegendValue) (k : string) :
  k <> "encode" ->
  (if has_gradient half then deleteNestedProperty_encode_gradient half else half) !! k =
  half !! k.
Proof.
  intros Hne. destruct (has_gradient half); [|reflexivity].
  unfold deleteNestedProperty_encode_gradient.
  destruct (half !! "encode") as [[l|l|e0]|]; try reflexivity.
  destruct (bool_decide _).
  - now rewrite lookup_delete_ne.
  - now rewrite lookup_insert_ne.
Qed.

(** What the strip leaves of the encode block of a half. *)
Lemma strip_gradient_encode (half : gmap string LegendValue) :
  let half' := if has_gradient half then deleteNestedProperty_encode_gradient half
               else half in
  match half !! "encode" with
  | Some (LegendEncode e) =>
      match e !! "gradient" with
      | Some _ =>
          half' !! "encode" =
          if bool_decide (delete "gradient" e = ∅) then None
          else Some (LegendEncode (delete "gradient" e))
      | None => half' !! "encode" = Some (LegendEncode e)
      end
  | v => half' !! "encode" = v
  end.
Proof.
  unfold has_gradient, deleteNestedProperty_encode_gradient.
  destruct (half !! "encode") as [[l|l|e]|] eqn:Hh; try exact Hh.
  destruct (e !! "gradient") as [g|] eqn:Hg.
  - rewrite bool_decide_eq_true_2 by eauto.
    destruct (bool_decide (delete "gradient" e = ∅)).
    + apply lookup_delete_eq.
    + apply lookup_insert_eq.
  - rewrite bool_decide_eq_false_2 by (intros [? ?]; discriminate). exact Hh.
Qed.

(** C4 (amended). When the [type] values of the two components are
    different and of the same provenance (both implicit, as [gradient]
    against [symbol], or both explicit), the merged component has the
    implicit type ['symbol'] and no [gradient] entry under [encode], in
    its implicit and in its explicit half.  Nothing else is lost: in
    either half every property other than [encode] is as the loop over
    the properties merged it, and so is every other part of the encode
    block, the block itself being dropped only when the gradient entry
    was all it held. *)
Theorem type_conflict_merges_to_symbol (mergedLegend childLegend : LegendComponent)
    (b : bool) (t1 t2 : LegendValue) :
  List.NoDup VG_LEGEND_PROPERTIES ->
  In "type" VG_LEGEND_PROPERTIES ->
  getWithExplicit mergedLegend "type" = {| explicit := b; value := Some t1 |} ->
  getWithExplicit childLegend "type" = {| explicit := b; value := Some t2 |} ->
  t1 <> t2 ->
  explicit (getWithExplicit mergedLegend "orient") &&
  explicit (getWithExplicit childLegend "orient") &&
  strict_neq (value (getWithExplicit mergedLegend "orient"))
             (value (getWithExplicit childLegend "orient")) = false ->
  let looped :=
    fst (fold_left (merge_property childLegend) VG_LEGEND_PROPERTIES (mergedLegend, false)) in
  let stripped (half half' : gmap string LegendValue) :=
    (forall key, key <> "encode" -> half' !! key = half !! key) /\
    match half !! "encode" with
    | Some (LegendEncode e) =>
        match e !! "gradient" with
        | Some _ =>
            half' !! "encode" =
            if bool_decide (delete "gradient" e = ∅) then None
            else Some (LegendEncode (delete "gradient" e))
        | None => half' !! "encode" = Some (LegendEncode e)
        end
    | v => half' !! "encode" = v
    end in
  exists merged,
    mergeLegendComponent (Some mergedLegend) childLegend = Some merged /\
    getWithExplicit merged "type" = {| explicit := false;
                                       value := Some (LegendLit (LStr "symbol")) |} /\
    (forall e, split_implicit merged !! "encode" = Some (LegendEncode e) ->
               e !! "gradient" = None) /\
    (forall e, split_explicit merged !! "encode" = Some (LegendEncode e) ->
               e !! "gradient" = None) /\
    stripped (split_implicit looped) (split_implicit merged) /\
    stripped (split_explicit looped) (split_explicit merged).
Proof.
  intros Hnd Hin H1 H2 Hne Horient looped stripped.
  subst looped stripped. cbv beta.
  unfold mergeLegendComponent. rewrite Horient.
  apply in_split in Hin as (pre & post & Hprops).
  rewrite Hprops in Hnd |- *.
  apply List.NoDup_remove_2 in Hnd. rewrite in_app_iff in Hnd.
  rewrite fold_left_app. simpl.
  set (st1 := fold_left (merge_property childLegend) pre (mergedLegend, false)).
  assert (Hst1 : getWithExplicit (fst st1) "type" = {| explicit := b; value := Some t1 |}).
  { subst st1. rewrite fold_merge_property_other by tauto. exact H1. }
  destruct (merge_property_type_tie childLegend st1 b t1 t2 Hst1 H2 Hne) as (Hty & Hfl).
  set (st2 := merge_property childLegend st1 "type") in *.
  pose proof (fold_merge_property_other childLegend post st2 "type" ltac:(tauto)) as Hpost.
  pose proof (fold_merge_property_flag childLegend post st2 Hfl) as Hflag.
  destruct (fold_left (merge_property childLegend) post st2) as [m fl].
  simpl in Hpost, Hflag. subst fl.
  eexists. split; [reflexivity|]. split; [|split; [|split; [|split]]].
  - change {| explicit := false; value := Some (LegendLit (LStr "symbol")) |}
      with (makeImplicit (LegendLit (LStr "symbol"))).
    rewrite <- Hty, <- Hpost. unfold getWithExplicit. simpl.
    now rewrite !strip_gradient_other by discriminate.
  - intros e. simpl. apply strip_gradient_none.
  - intros e. simpl. apply strip_gradient_none.
  - cbn [fst split_implicit]. split.
    + intros key Hkey. now apply strip_gradient_other.
    + apply strip_gradient_encode.
  - cbn [fst split_explicit]. split.
    + intros key Hkey. now apply strip_gradient_other.
    + apply strip_gradient_encode.
Qed.

Lemma merge_channel_other (childLegends : gmap Channel LegendComponent)
    (st : gmap Channel LegendComponent * Resolve) (ch' ch : Channel) :
  ch' <> ch ->
  let st' := merge_channel childLegends st ch' in
  fst st' !! ch = fst st !! ch /\
  r_legend (snd st') !! ch = r_legend (snd st) !! ch /\
  r_scale (snd st') = r_scale (snd st).
Proof.
  intros Hne. destruct st as [legends resolve]. unfold merge_channel. simpl.
  rewrite lookup_insert_eq.
  destruct (parseGuideResolve resolve ch'); simpl.
  - destruct (childLegends !! ch') as [c|]; simpl.
    + destruct (mergeLegendComponent (legends !! ch') c); simpl.
      * now rewrite !lookup_insert_ne.
      * now rewrite lookup_delete_ne, !lookup_insert_ne.
    + now rewrite lookup_insert_ne.
  - now rewrite lookup_insert_ne.
Qed.

Lemma fold_merge_channel_other (childLegends : gmap Channel LegendComponent)
    (chs : list Channel) (st : gmap Channel LegendComponent * Resolve) (ch : Channel) :
  ~ In ch chs ->
  let st' := fold_left (merge_channel childLegends) chs st in
  fst st' !! ch = fst st !! ch /\
  r_legend (snd st') !! ch = r_legend (snd st) !! ch /\
  r_scale (snd st') = r_scale (snd st).
Proof.
  revert st. induction chs as [|c chs IH]; intros st Hnin; simpl; [auto|].
  destruct (IH (merge_channel childLegends st c)) as (H1 & H2 & H3);
    [intros ?; apply Hnin; now right|].
  destruct (merge_channel_other childLegends st c ch) as (H4 & H5 & H6);
    [intros ->; apply Hnin; now left|].
  simpl in *. rewrite H1, H2, H3. auto.
Qed.

Lemma keys_split (childLegends : gmap Channel LegendComponent) (ch : Channel) :
  is_Some (childLegends !! ch) ->
  exists pre post, keys childLegends = pre ++ ch :: post /\ ~ In ch pre /\ ~ In ch post.
Proof.
  intros Hsome.
  assert (Hin : In ch (keys childLegends)).
  { unfold keys. apply filter_In. split.
    - destruct ch; simpl; tauto.
    - now apply bool_decide_eq_true. }
  assert (Hnd : List.NoDup (keys childLegends)).
  { unfold keys. apply List.NoDup_filter. unfold legend_channels.
    repeat constructor; simpl; intuition discriminate. }
  apply in_split in Hin as (pre & post & Heq). exists pre, post.
  split; [assumption|]. rewrite Heq in Hnd.
  apply List.NoDup_remove_2 in Hnd. rewrite in_app_iff in Hnd. tauto.
Qed.

Lemma merge_channel_conflict (childLegends : gmap Channel LegendComponent)
    (legends : gmap Channel LegendComponent) (resolve : Resolve) (channel : Channel)
    (childLegend : LegendComponent) :
  childLegends !! channel = Some childLegend ->
  parseGuideResolve resolve channel = Shared ->
  mergeLegendComponent (legends !! channel) childLegend = None ->
  let st := merge_channel childLegends (legends, resolve) channel in
  fst st !! channel = None /\ r_legend (snd st) !! channel = Some Independent.
Proof.
  intros Hc Hs Hm. unfold merge_channel. simpl.
  rewrite lookup_insert_eq, Hs, Hc, Hm. simpl.
  split; [apply lookup_delete_eq|apply lookup_insert_eq].
Qed.

Lemma keys_NoDup (childLegends : gmap Channel LegendComponent) :
  List.NoDup (keys childLegends).
Proof.
  unfold keys. apply List.NoDup_filter. unfold legend_channels.
  repeat constructor; simpl; intuition discriminate.
Qed.

Lemma keys_In (legends : gmap Channel LegendComponent) (ch : Channel) :
  In ch (keys legends) <-> is_Some (legends !! ch).
Proof.
  unfold keys. rewrite filter_In, bool_decide_eq_true. split; [tauto|].
  intros Hs. split; [|assumption]. destruct ch; simpl; tauto.
Qed.

(** A legend of a child after the in-place edit of one. *)
Lemma legend_of_alter (f : LegendComponent -> LegendComponent) (ch ch' : Channel)
    (j i : nat) (children : list (gmap Channel LegendComponent)) :
  legend_of (alter (alter f ch) j children) i ch' =
  if bool_decide (i = j /\ ch' = ch) then f <$> legend_of children i ch'
  else legend_of children i ch'.
Proof.
  unfold legend_of. rewrite list_lookup_alter.
  destruct (decide (j = i)) as [->|Hne].
  - destruct (children !! i) as [c|]; simpl.
    + destruct (decide (ch' = ch)) as [->|Hc].
      * rewrite bool_decide_eq_true_2 by auto. apply lookup_alter_eq.
      * rewrite bool_decide_eq_false_2 by tauto. now apply lookup_alter_ne.
    + now destruct (bool_decide _).
  - rewrite bool_decide_eq_false_2; [reflexivity|]. intros [-> _]. now apply Hne.
Qed.

(** One round of the loop on the store: what it does to the parent is
    [merge_channel] on the child's legend it reads; the legends of the
    children are as they were or edited in place for the holder of the
    channel's [encode] object, which is the child at hand or the holder
    that was. *)
Lemma merge_channel_shared_step (k : nat) (st : LegendStore) (ch : Channel) :
  let st' := merge_channel_shared k st ch in
  (forall childLegends, legend_of (child_legends st) k ch = childLegends !! ch ->
     (parent_legends st', parent_resolve st') =
     merge_channel childLegends (parent_legends st, parent_resolve st) ch) /\
  (child_legends st' = child_legends st \/
   exists j, (j = k \/ encode_holder st !! ch = Some j) /\
             parseGuideResolve (parent_resolve st) ch = Shared /\
             child_legends st' =
             alter (alter delete_shared_gradient ch) j (child_legends st)) /\
  (forall ch' j, encode_holder st' !! ch' = Some j ->
     (ch' = ch /\ j = k) \/ encode_holder st !! ch' = Some j).
Proof.
  unfold merge_channel_shared, merge_channel. cbn [r_legend set_legend_resolve].
  rewrite lookup_insert_eq.
  assert (Hdel : forall ch' j, delete ch (encode_holder st) !! ch' = Some j ->
                   (ch' = ch /\ j = k) \/ encode_holder st !! ch' = Some j).
  { intros ch' j Hj. right. apply lookup_delete_Some in Hj. tauto. }
  destruct (parseGuideResolve (parent_resolve st) ch) eqn:Hres.
  2:{ split; [|split; [now left|auto]].
      intros cl Hcl. now destruct (cl !! ch). }
  destruct (legend_of (child_legends st) k ch) as [c|] eqn:Hc.
  2:{ split; [|split; [now left|auto]].
      intros cl Hcl. now rewrite <- Hcl. }
  destruct (mergeLegendComponent (parent_legends st !! ch) c) as [merged|] eqn:Hm.
  2:{ split; [|split; [now left|exact Hdel]].
      intros cl Hcl. now rewrite <- Hcl, Hm. }
  split; [|split].
  - intros cl Hcl. now rewrite <- Hcl, Hm.
  - cbn [child_legends].
    destruct (parent_legends st !! ch) as [m|]; [|now left].
    destruct (takes_child_encode m c).
    + destruct (snd _); [|now left]. right. exists k. auto.
    + destruct (encode_holder st !! ch) as [j|] eqn:Hj; [|now left].
      destruct (snd _); [|now left]. right. exists j. auto.
  - cbn [encode_holder]. intros ch' j.
    destruct (parent_legends st !! ch) as [m|]; [|apply Hdel].
    destruct (takes_child_encode m c).
    + destruct (value (getWithExplicit merged "encode")); [|apply Hdel].
      intros Hj. apply lookup_insert_Some in Hj as [[<- <-]|[_ Hj]]; auto.
    + destruct (encode_holder st !! ch) as [j0|] eqn:Hj0; [|apply Hdel].
      destruct (value (getWithExplicit merged "encode")); [|apply Hdel].
      intros Hj. apply lookup_insert_Some in Hj as [[<- <-]|[_ Hj]]; auto.
Qed.

(** The rounds for one child, whose legends have not been edited when
    its channels are gone through. *)
Lemma fold_merge_channel_shared (k : nat)
    (children0 : list (gmap Channel LegendComponent))
    (childLegends : gmap Channel LegendComponent) (chs : list Channel) (st : LegendStore) :
  List.NoDup chs ->
  length (child_legends st) = length children0 ->
  (forall i, k < i -> child_legends st !! i = children0 !! i) ->
  (forall ch, In ch chs -> legend_of (child_legends st) k ch = childLegends !! ch) ->
  (forall ch j, encode_holder st !! ch = Some j -> j <= k /\ (j = k -> ~ In ch chs)) ->
  let st' := fold_left (merge_channel_shared k) chs st in
  (parent_legends st', parent_resolve st') =
    fold_left (merge_channel childLegends) chs (parent_legends st, parent_resolve st) /\
  length (child_legends st') = length children0 /\
  (forall i, k < i -> child_legends st' !! i = children0 !! i) /\
  (forall ch j, encode_holder st' !! ch = Some j -> j <= k).
Proof.
  revert st. induction chs as [|ch chs IH]; intros st Hnd Hlen Hlater Hread Hhold.
  - cbn [fold_left]. repeat split; auto. intros ch j Hj. now apply (Hhold ch j).
  - cbn [fold_left]. apply List.NoDup_cons_iff in Hnd as [Hnin Hnd].
    destruct (merge_channel_shared_step k st ch) as (Hparent & Hchildren & Hholder).
    specialize (Hparent childLegends (Hread ch ltac:(now left))).
    set (st1 := merge_channel_shared k st ch) in *.
    assert (Hedit : child_legends st1 = child_legends st \/
              exists j, j <= k /\
                child_legends st1 =
                alter (alter delete_shared_gradient ch) j (child_legends st)).
    { destruct Hchildren as [?|(j & Hj & _ & Heq)]; [now left|right].
      exists j. split; [|assumption].
      destruct Hj as [->|Hj]; [lia|]. now apply (Hhold ch j). }
    destruct (IH st1 Hnd) as (H1 & H2 & H3 & H4).
    + destruct Hedit as [->|(j & _ & ->)]; [assumption|]. now rewrite length_alter.
    + intros i Hi. destruct Hedit as [->|(j & Hj & ->)]; [now apply Hlater|].
      rewrite list_lookup_alter_ne by lia. now apply Hlater.
    + intros ch' Hch'. destruct Hedit as [->|(j & Hj & ->)].
      * apply Hread. now right.
      * rewrite legend_of_alter. rewrite bool_decide_eq_false_2.
        -- apply Hread. now right.
        -- intros [_ ->]. contradiction.
    + intros ch' j Hj. destruct (Hholder ch' j Hj) as [[-> ->]|Hold].
      * split; [lia|]. intros _. assumption.
      * destruct (Hhold ch' j Hold) as [Hle Hk]. split; [assumption|].
        intros Hjk Hin. apply (Hk Hjk). now right.
    + rewrite H1, Hparent. auto.
Qed.

(** The first loop on the store does to the parent what it does on the
    legends of the children as they came in: a child's legend is not
    edited before its own channels are gone through. *)
Lemma fold_merge_children_shared (children0 : list (gmap Channel LegendComponent))
    (m k0 : nat) (st : LegendStore) :
  length (child_legends st) = length children0 ->
  (forall i, k0 <= i -> child_legends st !! i = children0 !! i) ->
  (forall ch j, encode_holder st !! ch = Some j -> j < k0) ->
  k0 + m <= length children0 ->
  let st' :=
    fold_left (fun st k =>
                 match child_legends st !! k with
                 | Some childLegends =>
                     fold_left (merge_channel_shared k) (keys childLegends) st
                 | None => st
                 end) (seq k0 m) st in
  (parent_legends st', parent_resolve st') =
  merge_children (take m (drop k0 children0)) (parent_legends st, parent_resolve st).
Proof.
  revert k0 st. induction m as [|m IH]; intros k0 st Hlen Hlater Hhold Hk; [reflexivity|].
  cbn [seq fold_left].
  destruct (children0 !! k0) as [cl|] eqn:Hcl.
  2:{ apply lookup_ge_None in Hcl. lia. }
  rewrite (Hlater k0 (Nat.le_refl _)), Hcl.
  rewrite (drop_S _ _ _ Hcl). cbn [take]. unfold merge_children. cbn [fold_left].
  destruct (fold_merge_channel_shared k0 children0 cl (keys cl) st (keys_NoDup cl) Hlen)
    as (H1 & H2 & H3 & H4).
  - intros i Hi. apply Hlater. lia.
  - intros ch _. unfold legend_of. now rewrite (Hlater k0 (Nat.le_refl _)), Hcl.
  - intros ch j Hj. specialize (Hhold ch j Hj). split; lia.
  - rewrite <- H1. apply (IH (S k0)); auto.
    + intros ch j Hj. specialize (H4 ch j Hj). lia.
    + lia.
Qed.

(** What [parseNonUnitLegend] returns for the parent. *)
Lemma parseNonUnitLegend_parent (legends : gmap Channel LegendComponent)
    (resolve : Resolve) (children : list (gmap Channel LegendComponent)) :
  fst (parseNonUnitLegend legends resolve children) =
  merge_children children (legends, resolve).
Proof.
  unfold parseNonUnitLegend, merge_children_shared. cbn [fst child_legends].
  rewrite (fold_merge_children_shared children (length children) 0); cbn; auto.
  - now rewrite firstn_all.
  - intros ch j Hj. rewrite lookup_empty in Hj. discriminate.
Qed.

(** C3. Two components that both carry an explicit [orient], of
    different values, do not merge: [mergeLegendComponent] returns
    [undefined].  In [parseNonUnitLegend], where the channel is resolved
    as shared, this failed merge sets the channel's legend resolve to
    ['independent'] and deletes the parent's legend entry of the channel:
    in the loop body, and in what the function returns when the merge
    fails at its last child. *)
Theorem orient_conflict_fails_merge (mergedLegend childLegend : LegendComponent)
    (o1 o2 : string) :
  split_explicit mergedLegend !! "orient" = Some (LegendLit (LStr o1)) ->
  split_explicit childLegend !! "orient" = Some (LegendLit (LStr o2)) ->
  o1 <> o2 ->
  mergeLegendComponent (Some mergedLegend) childLegend = None
  /\ (forall legends resolve childLegends channel,
        legends !! channel = Some mergedLegend ->
        childLegends !! channel = Some childLegend ->
        parseGuideResolve resolve channel = Shared ->
        let st := merge_channel childLegends (legends, resolve) channel in
        fst st !! channel = None /\ r_legend (snd st) !! channel = Some Independent)
  /\ (forall legends resolve before childLegends channel,
        let st := merge_children before (legends, resolve) in
        fst st !! channel = Some mergedLegend ->
        childLegends !! channel = Some childLegend ->
        (forall r, r_legend r !! channel = r_legend (snd st) !! channel ->
                   r_scale r = r_scale (snd st) ->
                   parseGuideResolve r channel = Shared) ->
        let out := parseNonUnitLegend legends resolve (before ++ [childLegends]) in
        fst (fst out) !! channel = None /\
        r_legend (snd (fst out)) !! channel = Some Independent).
Proof.
  intros Ho1 Ho2 Hne.
  assert (Hfail : mergeLegendComponent (Some mergedLegend) childLegend = None).
  { unfold mergeLegendComponent, getWithExplicit. rewrite Ho1, Ho2. simpl.
    destruct (String.eqb_spec o1 o2); [contradiction|reflexivity]. }
  split; [exact Hfail|split].
  - intros legends resolve childLegends channel Hl Hc Hs.
    apply merge_channel_conflict with (childLegend := childLegend); auto.
    now rewrite Hl.
  - intros legends resolve before childLegends channel st Hl Hc Hs out.
    subst out. rewrite (surjective_pairing (fst (parseNonUnitLegend _ _ _))) at 1.
    rewrite parseNonUnitLegend_parent. unfold merge_children.
    rewrite fold_left_app. simpl. fold (merge_children before (legends, resolve)).
    fold st.
    destruct (keys_split childLegends channel) as (pre & post & Hk & Hpre & Hpost);
      [rewrite Hc; eauto|].
    rewrite Hk, fold_left_app. simpl.
    destruct (fold_merge_channel_other childLegends pre st channel Hpre) as (A1 & A2 & A3).
    set (sa := fold_left (merge_channel childLegends) pre st) in *.
    destruct sa as [la ra] eqn:Hsa. simpl in A1, A2, A3.
    destruct (merge_channel_conflict childLegends la ra channel childLegend Hc) as (B1 & B2).
    { apply Hs; assumption. }
    { rewrite A1, Hl. exact Hfail. }
    set (sb := merge_channel childLegends (la, ra) channel) in *.
    destruct (fold_merge_channel_other childLegends post sb channel Hpost) as (C1 & C2 & _).
    destruct (fold_left (merge_channel childLegends) post sb) as [lc rc].
    simpl in *. rewrite C1, C2. auto.
Qed.

End MergeLegend.

(** C3 on the spec's example: explicit [orient: 'left'] against explicit
    [orient: 'right'], the two children of a composite view. *)
Lemma orient_conflict_fails_merge_witness :
  LegendParse.mergeLegendComponent (H := Sample.legend_external)
    (Some Sample.legend_left) Sample.legend_right = None
  /\ (let out := LegendParse.parseNonUnitLegend (H := Sample.legend_external)
                   ∅ Sample.no_resolve
                   ([ {[ COLOR := Sample.legend_left ]} ] ++
                    [ {[ COLOR := Sample.legend_right ]} ]) in
      fst (fst out) !! COLOR = None /\
      r_legend (snd (fst out)) !! COLOR = Some Independent).
Proof.
  destruct (orient_conflict_fails_merge (H := Sample.legend_external)
              Sample.legend_left Sample.legend_right "left" "right"
              eq_refl eq_refl ltac:(discriminate)) as (Hfail & _ & Hparse).
  split; [exact Hfail|].
  apply (Hparse ∅ Sample.no_resolve [ {[ COLOR := Sample.legend_left ]} ]
           {[ COLOR := Sample.legend_right ]} COLOR).
  - reflexivity.
  - reflexivity.
  - intros r Hl Hs. simpl. rewrite Hs, Hl. reflexivity.
Defined.

(** C4 on the spec's example: an implicit [gradient] legend that carries
    a gradient and a labels encode entry, against an implicit [symbol]
    legend with an explicit orientation.  The merged legend is the
    implicit [symbol] legend with the orientation and the labels entry,
    without the gradient entry. *)
Lemma type_conflict_merges_to_symbol_witness :
  LegendParse.mergeLegendComponent (H := Sample.legend_external)
    (Some Sample.legend_gradient_labels) Sample.legend_symbol_left =
  Some {| split_explicit := {[ "orient" := LegendLit (LStr "left") ]};
          split_implicit :=
            <[ "type" := LegendLit (LStr "symbol") ]>
              {[ "encode" := LegendEncode {[ "labels" := Sample.gradient_entry ]} ]} |}.
Proof.
  destruct (type_conflict_merges_to_symbol (H := Sample.legend_external)
              Sample.legend_gradient_labels Sample.legend_symbol_left false
              (LegendLit (LStr "gradient")) (LegendLit (LStr "symbol")))
    as (merged & Hmerged & _).
  - simpl. repeat constructor; simpl; intuition discriminate.
  - simpl. tauto.
  - reflexivity.
  - reflexivity.
  - discriminate.
  - reflexivity.
  - rewrite Hmerged. f_equal. apply Some_inj. rewrite <- Hmerged. vm_compute. reflexivity.
Defined.

(** C4 as stated fails.  The [type] values of these two components
    conflict, an explicit [gradient] against an implicit [symbol]: the
    explicit value wins without a tie, the merged type is the explicit
    ['gradient'], and the gradient entry under [encode] stays. *)
Lemma type_conflict_across_provenance :
  exists merged e,
    LegendParse.mergeLegendComponent (H := Sample.legend_external)
      (Some Sample.legend_gradient_explicit) Sample.legend_symbol = Some merged /\
    LegendParse.getWithExplicit merged "type" =
      {| explicit := true; value := Some (LegendLit (LStr "gradient")) |} /\
    LegendParse.getWithExplicit merged "type" <>
      {| explicit := false; value := Some (LegendLit (LStr "symbol")) |} /\
    split_implicit merged !! "encode" = Some (LegendEncode e) /\
    e !! "gradient" = Some Sample.gradient_entry.
Proof.
  eexists _, _. split; [vm_compute; reflexivity|].
  split; [vm_compute; reflexivity|].
  split; [vm_compute; discriminate|].
  split; vm_compute; reflexivity.
Qed.

(** ** The scale-domain rewriter *)

Section ScaleDomain.
Context `{External}.
Import Assemble.

Lemma truthy_Some (s : string) : s <> "" -> truthy (Some s) = true.
Proof.
  intros Hs. unfold truthy, truthy_string.
  destruct (String.eqb_spec s ""); [contradiction|reflexivity].
Qed.

(** C6. With the payload decoded: a selection component of that name on
    the model itself gives the literal [null] and one warning, nothing
    else.  Otherwise, with the component found through the model, a given
    field is used as it is; without a field and with an encoding channel,
    the one projection entry of that channel gives the field, and no
    entry or several fall back to the first projected field with one
    warning; with neither, the first projected field is used, with one
    warning when the selection projects more than one field and none
    otherwise.  Given means truthy, as the code tests it.  The signal is
    what [accessPathWithDatum] makes of the field, and where that rejects
    the field as a path the function throws. *)
Theorem assembleSelectionScaleDomain_resolution
    (model : Model) (domainRaw : SignalRef) (selDomain : SelectionDomain) :
  json_parse (remove_first SELECTION_DOMAIN (signal domainRaw)) = Some selDomain ->
  let nm := varName (sd_selection selDomain) in
  let result := assembleSelectionScaleDomain model domainRaw in
  let with_field (f : string) (warnings : list string) :=
    match accessPathWithDatum f nm with
    | Some access => Some ({| signal := access |}, warnings)
    | None => None
    end in
  (is_Some (own_selection nm (selection model)) ->
     result =
     Some ({| signal := "null" |},
           ["Use " +:+ dquote +:+ "bind" +:+ dquote +:+ ": " +:+ dquote +:+ "scales" +:+
            dquote +:+ " to setup a binding for scales and selections within the same view."]))
  /\ (forall selCmpt,
        own_selection nm (selection model) = None ->
        getSelectionComponent model nm (sd_selection selDomain) = Some selCmpt ->
        (forall f, sd_field selDomain = Some f -> f <> "" ->
           result = with_field f [])
        /\ (forall enc,
              truthy (sd_field selDomain) = false ->
              sd_encoding selDomain = Some enc -> enc <> "" ->
              let encodings :=
                List.filter (fun p => bool_decide (p_channel p = Some enc))
                            (items (project selCmpt)) in
              (forall e, encodings = [e] ->
                 result = with_field (p_field e) [])
              /\ (forall p0 rest, items (project selCmpt) = p0 :: rest ->
                    length encodings <> 1 ->
                    result =
                    with_field (p_field p0)
                      [(if length encodings =? 0 then "No " else "Multiple ") +:+
                       "matching " +:+ stringValue enc +:+
                       " encoding found for selection " +:+
                       stringValue (sd_selection selDomain) +:+ ". " +:+
                       "Using " +:+ dquote +:+ "field" +:+ dquote +:+ ": " +:+
                       stringValue (p_field p0) +:+ "."]))
        /\ (forall p0 rest,
              truthy (sd_field selDomain) = false ->
              truthy (sd_encoding selDomain) = false ->
              items (project selCmpt) = p0 :: rest ->
              result =
              with_field (p_field p0)
                (match rest with
                 | [] => []
                 | _ :: _ =>
                     ["A " +:+ dquote +:+ "field" +:+ dquote +:+ " or " +:+ dquote +:+
                      "encoding" +:+ dquote +:+
                      " must be specified when using a selection as a scale domain. " +:+
                      "Using " +:+ dquote +:+ "field" +:+ dquote +:+ ": " +:+
                      stringValue (p_field p0) +:+ "."]
                 end))).
Proof.
  intros Hparse nm result with_field. subst result with_field.
  unfold assembleSelectionScaleDomain, domain_field.
  rewrite Hparse. simpl. fold nm. split.
  - intros [c Hc]. rewrite Hc. reflexivity.
  - intros selCmpt Hown Hget. rewrite Hown, Hget. simpl. split; [|split].
    + intros f Hf Hne. rewrite Hf, (truthy_Some f Hne). simpl.
      rewrite !andb_false_r. simpl. now destruct (accessPathWithDatum f nm).
    + intros enc Hfield Henc Hne.
      rewrite Hfield, Henc, (truthy_Some enc Hne). simpl. split.
      * intros e He. rewrite He. simpl. now destruct (accessPathWithDatum (p_field e) nm).
      * intros p0 rest Hitems Hlen. rewrite Hitems in Hlen |- *.
        destruct (List.filter _ (p0 :: rest)) as [|e1 [|e2 es]];
          simpl in *; [|lia|]; now destruct (accessPathWithDatum (p_field p0) nm).
    + intros p0 rest Hfield Henc Hitems. rewrite Hfield, Henc, Hitems. simpl.
      destruct rest; simpl; now destruct (accessPathWithDatum (p_field p0) nm).
Qed.

End ScaleDomain.

(** C6 on a sample view: the channel [x] has one projection entry, the
    channel [color] has none, a field is given, and the selection is the
    view's own; and the field [a[], which is no path, makes the function
    throw. *)
Lemma assembleSelectionScaleDomain_resolution_witness :
  Assemble.assembleSelectionScaleDomain (H := Sample.external) Sample.scale_view
    {| signal := "_selection_domain_brush.x" |} =
    Some ({| signal := "brush[" +:+ Sample.quote "a" +:+ "]" |}, [])
  /\ Assemble.assembleSelectionScaleDomain (H := Sample.external) Sample.scale_view
       {| signal := "_selection_domain_brush.color" |} =
     Some ({| signal := "brush[" +:+ Sample.quote "a" +:+ "]" |},
           ["No matching " +:+ Sample.quote "color" +:+ " encoding found for selection " +:+
            Sample.quote "brush" +:+ ". Using " +:+ Sample.quote "field" +:+ ": " +:+
            Sample.quote "a" +:+ "."])
  /\ Assemble.assembleSelectionScaleDomain (H := Sample.external) Sample.scale_view
       {| signal := "_selection_domain_brush:b" |} =
     Some ({| signal := "brush[" +:+ Sample.quote "b" +:+ "]" |}, [])
  /\ Assemble.assembleSelectionScaleDomain (H := Sample.external) Sample.scale_view
       {| signal := "_selection_domain_brush:a[" |} = None
  /\ Assemble.assembleSelectionScaleDomain (H := Sample.external)
       (Sample.model_of [Sample.brush] (fun _ => None))
       {| signal := "_selection_domain_brush" |} =
     Some ({| signal := "null" |},
           ["Use " +:+ Sample.quote "bind" +:+ ": " +:+ Sample.quote "scales" +:+
            " to setup a binding for scales and selections within the same view."]).
Proof.
  split; [|split; [|split; [|split]]].
  - destruct (assembleSelectionScaleDomain_resolution (H := Sample.external)
                Sample.scale_view {| signal := "_selection_domain_brush.x" |} _ eq_refl)
      as (_ & Hrest).
    destruct (Hrest Sample.brush eq_refl eq_refl) as (_ & Henc & _).
    destruct (Henc "x" eq_refl eq_refl ltac:(discriminate)) as (Hone & _).
    exact (Hone _ eq_refl).
  - destruct (assembleSelectionScaleDomain_resolution (H := Sample.external)
                Sample.scale_view {| signal := "_selection_domain_brush.color" |} _ eq_refl)
      as (_ & Hrest).
    destruct (Hrest Sample.brush eq_refl eq_refl) as (_ & Henc & _).
    destruct (Henc "color" eq_refl eq_refl ltac:(discriminate)) as (_ & Hfall).
    exact (Hfall _ _ eq_refl ltac:(simpl; lia)).
  - destruct (assembleSelectionScaleDomain_resolution (H := Sample.external)
                Sample.scale_view {| signal := "_selection_domain_brush:b" |} _ eq_refl)
      as (_ & Hrest).
    destruct (Hrest Sample.brush eq_refl eq_refl) as (Hfield & _).
    exact (Hfield "b" eq_refl ltac:(discriminate)).
  - destruct (assembleSelectionScaleDomain_resolution (H := Sample.external)
                Sample.scale_view {| signal := "_selection_domain_brush:a[" |} _ eq_refl)
      as (_ & Hrest).
    destruct (Hrest Sample.brush eq_refl eq_refl) as (Hfield & _).
    exact (Hfield "a[" eq_refl ltac:(discriminate)).
  - destruct (assembleSelectionScaleDomain_resolution (H := Sample.external)
                (Sample.model_of [Sample.brush] (fun _ => None))
                {| signal := "_selection_domain_brush" |} _ eq_refl)
      as (Hown & _).
    exact (Hown ltac:(simpl; eauto)).
Defined.

(** ** The interactive-legend binder on the encode block *)

Section UpdateLegend.
Import LegendParse.

(** The selection chosen projects the field; [maxFields] is the number of
    its fields. *)
Lemma choose_selection_fold (field : string) (sels pre : list InteractiveSelections)
    (si : option nat) (mf : nat) :
  (mf <> 0 -> exists i sel, si = Some i /\ (pre ++ sels) !! i = Some sel /\
                            In field (i_fields sel) /\ length (i_fields sel) = mf) ->
  let r := fst (fold_left
                  (fun '((selectionIndex, maxFields), i) s =>
                     if (maxFields <? length (i_fields s)) &&
                        (-1 <? indexOf field (i_fields s))%Z
                     then ((Some i, length (i_fields s)), S i)
                     else ((selectionIndex, maxFields), S i))
                  sels ((si, mf), length pre)) in
  snd r <> 0 ->
  exists i sel, fst r = Some i /\ (pre ++ sels) !! i = Some sel /\
                In field (i_fields sel) /\ length (i_fields sel) = snd r.
Proof.
  revert pre si mf. induction sels as [|s sels IH]; intros pre si mf Hinv; simpl.
  - exact Hinv.
  - replace (pre ++ s :: sels) with ((pre ++ [s]) ++ sels) by now rewrite <- app_assoc.
    replace (S (length pre)) with (length (pre ++ [s]))
      by (rewrite length_app; simpl; lia).
    destruct ((mf <? length (i_fields s)) && (-1 <? indexOf field (i_fields s))%Z) eqn:Hc.
    + apply IH. intros _. exists (length pre), s.
      apply andb_true_iff in Hc as (_ & Hidx). apply Z.ltb_lt in Hidx.
      repeat split; [|apply indexOf_In; lia].
      rewrite <- app_assoc. simpl. now rewrite list_lookup_middle.
    + apply IH. rewrite <- app_assoc. exact Hinv.
Qed.

Lemma choose_selection_valid (field : string) (sels : list InteractiveSelections) :
  snd (choose_selection field sels) <> 0 ->
  exists i sel, fst (choose_selection field sels) = Some i /\ sels !! i = Some sel /\
                In field (i_fields sel) /\
                length (i_fields sel) = snd (choose_selection field sels).
Proof.
  apply (choose_selection_fold field sels [] None 0). intros Hn. now destruct Hn.
Qed.

(** What one round of the loop over the parts leaves in the block. *)
Lemma update_part_lookup (channel : Channel) (field : string)
    (sel : InteractiveSelections) (enc out : gmap string EncodeEntry) (part : string) :
  update_part channel field sel enc part = Some out ->
  (forall k, k <> part -> out !! k = enc !! k) /\
  exists e, out !! part = Some e /\
            e_name e = Some (part +:+ "_" +:+ field +:+ "_legend") /\
            e_interactive e = Some true.
Proof.
  unfold update_part. intros Hout.
  destruct (match enc !! part with Some entry => e_update entry | None => _ end)
    as [u|]; simpl in Hout; [|discriminate].
  injection Hout as <-. split.
  - intros k Hk. now rewrite lookup_insert_ne.
  - eexists. rewrite lookup_insert_eq. split; [reflexivity|]. split; reflexivity.
Qed.

Lemma update_part_total (channel : Channel) (field : string)
    (sel : InteractiveSelections) (enc : gmap string EncodeEntry) (part : string) :
  (forall e, enc !! part = Some e -> e_update e <> None) ->
  exists out, update_part channel field sel enc part = Some out.
Proof.
  intros Hupd. unfold update_part.
  destruct (enc !! part) as [e|] eqn:He; simpl.
  - destruct (e_update e) eqn:Hu; [|now destruct (Hupd e eq_refl)]. simpl. eauto.
  - eauto.
Qed.

(** The function on a channel it rewrites with a selection to bind: the
    two rounds of the loop. *)
Lemma updateInteractiveLegendComponent_rounds (model : Model)
    (legendEncode : gmap string EncodeEntry) (channel : Channel)
    (sels : list InteractiveSelections) (fd : FieldDef) :
  In channel [COLOR; OPACITY; SIZE; SHAPE] ->
  fieldDef model channel = Some fd ->
  snd (choose_selection (field fd) sels) <> 0 ->
  exists i sel,
    fst (choose_selection (field fd) sels) = Some i /\ sels !! i = Some sel /\
    In (field fd) (i_fields sel) /\
    updateInteractiveLegendComponent model legendEncode channel sels =
    (enc ← update_part channel (field fd) sel legendEncode "labels";
     update_part channel (field fd) sel enc "symbols").
Proof.
  intros Hch Hfd Hmax.
  destruct (choose_selection_valid (field fd) sels Hmax) as (i & sel & Hi & Hsel & Hin & _).
  exists i, sel. repeat split; try assumption.
  unfold updateInteractiveLegendComponent.
  assert (Hbody :
    (fd0 ← fieldDef model channel;
     let '(selectionIndex, maxFields) := choose_selection (field fd0) sels in
     if maxFields =? 0 then Some legendEncode
     else maxProjSelection ← (selectionIndex ≫= fun i => sels !! i);
          foldl (fun acc part =>
                   enc ← acc; update_part channel (field fd0) maxProjSelection enc part)
                (Some legendEncode) ["labels"; "symbols"]) =
    (enc ← update_part channel (field fd) sel legendEncode "labels";
     update_part channel (field fd) sel enc "symbols")).
  { rewrite Hfd. simpl.
    destruct (choose_selection (field fd) sels) as [si mf]. simpl in *. subst si.
    destruct (Nat.eqb_spec mf 0); [contradiction|]. simpl. rewrite Hsel. reflexivity. }
  simpl in Hch. destruct Hch as [<-|[<-|[<-|[<-|[]]]]]; exact Hbody.
Qed.

(** C9 (amended). On a channel the binder rewrites, with a selection to
    bind, the [labels] and the [symbols] part of the resulting encode
    block are named [<part>_<field>_legend], by part and field, and are
    flagged [interactive: true]. *)
Theorem updateInteractiveLegendComponent_names (model : Model)
    (legendEncode : gmap string EncodeEntry) (channel : Channel)
    (sels : list InteractiveSelections) (fd : FieldDef) :
  In channel [COLOR; OPACITY; SIZE; SHAPE] ->
  fieldDef model channel = Some fd ->
  snd (choose_selection (field fd) sels) <> 0 ->
  (forall part e, In part ["labels"; "symbols"] -> legendEncode !! part = Some e ->
                  e_update e <> None) ->
  exists out,
    updateInteractiveLegendComponent model legendEncode channel sels = Some out /\
    forall part, In part ["labels"; "symbols"] ->
      exists e, out !! part = Some e /\
                e_name e = Some (part +:+ "_" +:+ field fd +:+ "_legend") /\
                e_interactive e = Some true.
Proof.
  intros Hch Hfd Hmax Hupd.
  destruct (updateInteractiveLegendComponent_rounds model legendEncode channel sels fd
              Hch Hfd Hmax) as (i & sel & _ & _ & _ & ->).
  destruct (update_part_total channel (field fd) sel legendEncode "labels") as (enc1 & H1).
  { intros e He. apply (Hupd "labels" e); simpl; auto. }
  destruct (update_part_lookup _ _ _ _ _ _ H1) as (Hother1 & e1 & He1 & Hn1 & Hi1).
  destruct (update_part_total channel (field fd) sel enc1 "symbols") as (enc2 & H2).
  { intros e He. rewrite Hother1 in He by discriminate.
    apply (Hupd "symbols" e); simpl; auto. }
  destruct (update_part_lookup _ _ _ _ _ _ H2) as (Hother2 & e2 & He2 & Hn2 & Hi2).
  exists enc2. rewrite H1. simpl. split; [exact H2|].
  intros part [<-|[<-|[]]].
  - exists e1. rewrite Hother2 by discriminate. auto.
  - exists e2. auto.
Qed.

(** A part the block has no entry for gets the fabricated base value. *)
Lemma update_part_absent (channel : Channel) (field : string)
    (sel : InteractiveSelections) (enc : gmap string EncodeEntry) (part : string) :
  enc !! part = None ->
  let highlighted v :=
    {| vr_test := Some (legend_test sel field); vr_value := Some v; vr_signal := None |} in
  update_part channel field sel enc part =
  Some (<[part := {| e_name := Some (part +:+ "_" +:+ field +:+ LEGEND);
                     e_interactive := Some true;
                     e_update := Some
                       (if String.eqb part "symbols" && bool_decide (channel = OPACITY)
                        then <["stroke" := Rules [highlighted (LStr "#000000");
                                                  value_ref (LStr "#aaaaaa")]]>
                               {[ "opacity" := Plain (value_ref (LNum 0.7%Q)) ]}
                        else {[ "opacity" := Rules [highlighted (LNum 0.7%Q);
                                                    value_ref (LNum 0.2%Q)] ]}) |}]> enc).
Proof.
  intros Hnone highlighted. unfold update_part. rewrite Hnone. simpl.
  destruct (String.eqb part "symbols" && bool_decide (channel = OPACITY)).
  - rewrite lookup_singleton_ne by discriminate. reflexivity.
  - rewrite lookup_singleton_eq. simpl. rewrite insert_singleton_eq. reflexivity.
Qed.

(** The symbols of an opacity legend whose encode has no stroke. *)
Lemma update_part_symbols_no_stroke (field : string) (sel : InteractiveSelections)
    (enc : gmap string EncodeEntry) (e0 : EncodeEntry) (u : gmap string EncodeValue) :
  enc !! "symbols" = Some e0 -> e_update e0 = Some u -> u !! "stroke" = None ->
  update_part OPACITY field sel enc "symbols" =
  Some (<["symbols" := {| e_name := Some ("symbols" +:+ "_" +:+ field +:+ LEGEND);
                          e_interactive := Some true;
                          e_update := Some
                            (<["stroke" := Rules [ {| vr_test := Some (legend_test sel field);
                                                      vr_value := Some (LStr "#000000");
                                                      vr_signal := None |};
                                                   value_ref (LStr "#aaaaaa") ]]> u) |}]> enc).
Proof.
  intros He Hu Hs. unfold update_part. rewrite He, Hu. simpl. rewrite Hs. reflexivity.
Qed.

(** C10. On a channel the binder rewrites, with a selection to bind: a
    part the encode block has no entry for gets the fabricated opacity
    0.7 as the value of the highlighted branch, the dimmed one being 0.2;
    for the symbols of the opacity channel the conditional is on the
    stroke, whose highlighted value is ['#000000'] when the encode has no
    stroke (none at all, or an entry without one), the dimmed one being
    ['#aaaaaa'], next to the fabricated plain opacity 0.7 when the entry
    was missing. *)
Theorem updateInteractiveLegendComponent_defaults (model : Model)
    (legendEncode : gmap string EncodeEntry) (channel : Channel)
    (sels : list InteractiveSelections) (fd : FieldDef) :
  In channel [COLOR; OPACITY; SIZE; SHAPE] ->
  fieldDef model channel = Some fd ->
  snd (choose_selection (field fd) sels) <> 0 ->
  (forall part e, In part ["labels"; "symbols"] -> legendEncode !! part = Some e ->
                  e_update e <> None) ->
  exists out sel,
    updateInteractiveLegendComponent model legendEncode channel sels = Some out /\
    (fst (choose_selection (field fd) sels) ≫= fun i => sels !! i) = Some sel /\
    let highlighted v :=
      {| vr_test := Some (legend_test sel (field fd)); vr_value := Some v;
         vr_signal := None |} in
    (legendEncode !! "labels" = None ->
       exists e, out !! "labels" = Some e /\
         e_update e = Some {[ "opacity" := Rules [highlighted (LNum 0.7%Q);
                                                  value_ref (LNum 0.2%Q)] ]})
    /\ (legendEncode !! "symbols" = None -> channel <> OPACITY ->
          exists e, out !! "symbols" = Some e /\
            e_update e = Some {[ "opacity" := Rules [highlighted (LNum 0.7%Q);
                                                     value_ref (LNum 0.2%Q)] ]})
    /\ (legendEncode !! "symbols" = None -> channel = OPACITY ->
          exists e, out !! "symbols" = Some e /\
            e_update e = Some (<["stroke" := Rules [highlighted (LStr "#000000");
                                                    value_ref (LStr "#aaaaaa")]]>
                                 {[ "opacity" := Plain (value_ref (LNum 0.7%Q)) ]}))
    /\ (forall e0 u, legendEncode !! "symbols" = Some e0 -> e_update e0 = Some u ->
          u !! "stroke" = None -> channel = OPACITY ->
          exists e, out !! "symbols" = Some e /\
            e_update e = Some (<["stroke" := Rules [highlighted (LStr "#000000");
                                                    value_ref (LStr "#aaaaaa")]]> u)).
Proof.
  intros Hch Hfd Hmax Hupd.
  destruct (updateInteractiveLegendComponent_rounds model legendEncode channel sels fd
              Hch Hfd Hmax) as (i & sel & Hi & Hsel & _ & ->).
  destruct (update_part_total channel (field fd) sel legendEncode "labels") as (enc1 & H1).
  { intros e He. apply (Hupd "labels" e); simpl; auto. }
  destruct (update_part_lookup _ _ _ _ _ _ H1) as (Hother1 & _).
  destruct (update_part_total channel (field fd) sel enc1 "symbols") as (enc2 & H2).
  { intros e He. rewrite Hother1 in He by discriminate.
    apply (Hupd "symbols" e); simpl; auto. }
  destruct (update_part_lookup _ _ _ _ _ _ H2) as (Hother2 & _).
  exists enc2, sel. rewrite H1. simpl. split; [exact H2|].
  split; [rewrite Hi; simpl; exact Hsel|].
  split; [|split; [|split]].
  - intros Hnone. rewrite Hother2 by discriminate.
    rewrite update_part_absent in H1 by assumption. simpl in H1.
    injection H1 as <-. rewrite lookup_insert_eq. eexists. split; reflexivity.
  - intros Hnone Hne. rewrite <- Hother1 in Hnone by discriminate.
    rewrite update_part_absent in H2 by assumption.
    rewrite bool_decide_eq_false_2, andb_false_r in H2 by assumption.
    injection H2 as <-. rewrite lookup_insert_eq. eexists. split; reflexivity.
  - intros Hnone ->. rewrite <- Hother1 in Hnone by discriminate.
    rewrite update_part_absent in H2 by assumption. simpl in H2.
    injection H2 as <-. rewrite lookup_insert_eq. eexists. split; reflexivity.
  - intros e0 u He0 Hu Hs ->. rewrite <- Hother1 in He0 by discriminate.
    rewrite (update_part_symbols_no_stroke _ _ _ _ _ He0 Hu Hs) in H2.
    injection H2 as <-. rewrite lookup_insert_eq. eexists. split; reflexivity.
Qed.

End UpdateLegend.

(** C9 as stated fails.  The color legend and the size legend of this
    view both show the field [a]; their [labels] parts get one and the
    same name, which names the part and the field and no channel. *)
Lemma legend_part_name_has_no_channel :
  (LegendParse.updateInteractiveLegendComponent
     Sample.view_a_everywhere ∅ COLOR [Sample.pick_a]
     ≫= fun out => out !! "labels" ≫= e_name) = Some "labels_a_legend"
  /\ (LegendParse.updateInteractiveLegendComponent
        Sample.view_a_everywhere ∅ SIZE [Sample.pick_a]
        ≫= fun out => out !! "labels" ≫= e_name) = Some "labels_a_legend".
Proof. split; vm_compute; reflexivity. Qed.

(** C9 (amended) on the color legend of the sample view. *)
Lemma updateInteractiveLegendComponent_names_witness :
  exists out,
    LegendParse.updateInteractiveLegendComponent
      Sample.view_a_everywhere ∅ COLOR [Sample.pick_a] = Some out /\
    forall part, In part ["labels"; "symbols"] ->
      exists e, out !! part = Some e /\
                e_name e = Some (part +:+ "_" +:+ "a" +:+ "_legend") /\
                e_interactive e = Some true.
Proof.
  apply (updateInteractiveLegendComponent_names
           Sample.view_a_everywhere ∅ COLOR [Sample.pick_a] (Sample.plain_field "a")).
  - simpl. tauto.
  - reflexivity.
  - simpl. discriminate.
  - intros part e _ He. rewrite lookup_empty in He. discriminate.
Defined.

(** C10 on the opacity legend of the sample view, from an empty encode
    block. *)
Lemma updateInteractiveLegendComponent_defaults_witness :
  exists out e_labels e_symbols test,
    LegendParse.updateInteractiveLegendComponent
      Sample.view_a_everywhere ∅ OPACITY [Sample.pick_a] = Some out /\
    out !! "labels" = Some e_labels /\
    e_update e_labels =
      Some {[ "opacity" := Rules [ {| vr_test := Some test;
                                      vr_value := Some (LNum 0.7%Q);
                                      vr_signal := None |};
                                   LegendParse.value_ref (LNum 0.2%Q) ] ]} /\
    out !! "symbols" = Some e_symbols /\
    e_update e_symbols =
      Some (<["stroke" := Rules [ {| vr_test := Some test;
                                     vr_value := Some (LStr "#000000");
                                     vr_signal := None |};
                                  LegendParse.value_ref (LStr "#aaaaaa") ]]>
              {[ "opacity" := Plain (LegendParse.value_ref (LNum 0.7%Q)) ]}).
Proof.
  destruct (updateInteractiveLegendComponent_defaults
              Sample.view_a_everywhere ∅ OPACITY [Sample.pick_a] (Sample.plain_field "a"))
    as (out & sel & Hout & Hsel & Hlabels & _ & Hsymbols & _).
  - simpl. tauto.
  - reflexivity.
  - simpl. discriminate.
  - intros part e _ He. rewrite lookup_empty in He. discriminate.
  - destruct (Hlabels (lookup_empty _)) as (e1 & He1 & Hu1).
    destruct (Hsymbols (lookup_empty _) eq_refl) as (e2 & He2 & Hu2).
    exists out, e1, e2, (LegendParse.legend_test sel "a"). auto.
Defined.

(** ** The interactive-legend signals *)

Section SignalNames.

(** Two strings with the same end: the shorter of two suffixes is the
    end of the longer one. *)
Lemma string_app_suffix (a b s t : string) :
  a +:+ s = b +:+ t -> String.length s <= String.length t ->
  exists c, t = c +:+ s /\ a = b +:+ c.
Proof.
  revert a. induction b as [|ch b IH]; intros a Heq Hlen.
  - exists a. rewrite string_app_nil_l in *. auto.
  - destruct a as [|ch' a].
    + apply (f_equal String.length) in Heq.
      rewrite string_app_nil_l, string_app_cons in Heq. simpl in Heq.
      rewrite string_app_length in Heq. lia.
    + rewrite !string_app_cons in Heq. injection Heq as -> Heq.
      destruct (IH a Heq Hlen) as (c & Ht & Ha). exists c.
      rewrite string_app_cons. split; [assumption|now f_equal].
Qed.

Lemma tuple_not_toggle (a b : string) : a +:+ TUPLE <> b +:+ "_toggle".
Proof.
  intros Heq. apply string_app_suffix in Heq as (c & Hc & _); [|simpl; lia].
  destruct c as [|c1 [|c2 c]]; try discriminate.
  apply (f_equal String.length) in Hc. rewrite !string_app_cons in Hc. simpl in Hc.
  rewrite string_app_length in Hc. simpl in Hc. lia.
Qed.

Lemma tuple_not_legend (a b f : string) :
  a +:+ TUPLE <> b +:+ "_" +:+ f +:+ "_legend".
Proof.
  intros Heq.
  replace (b +:+ "_" +:+ f +:+ "_legend") with ((b +:+ "_" +:+ f) +:+ "_legend")
    in Heq by string_eq.
  apply string_app_suffix in Heq as (c & Hc & _); [|simpl; lia].
  destruct c as [|c1 [|c2 c]]; try discriminate.
  apply (f_equal String.length) in Hc. rewrite !string_app_cons in Hc. simpl in Hc.
  rewrite string_app_length in Hc. simpl in Hc. lia.
Qed.

Lemma toggle_not_legend (a b f : string) :
  a +:+ "_toggle" <> b +:+ "_" +:+ f +:+ "_legend".
Proof.
  intros Heq.
  replace (b +:+ "_" +:+ f +:+ "_legend") with ((b +:+ "_" +:+ f) +:+ "_legend")
    in Heq by string_eq.
  apply string_app_suffix in Heq as (c & Hc & _); [|simpl; lia].
  destruct c as [|c1 c]; try discriminate.
  apply (f_equal String.length) in Hc. rewrite !string_app_cons in Hc. simpl in Hc.
  rewrite string_app_length in Hc. simpl in Hc. lia.
Qed.

End SignalNames.

Section SignalLookup.
Import Assemble.

Lemma find_signal_cons (nm : string) (x : Signal) (l : list Signal) :
  find_signal nm (x :: l) =
  if decide (s_name x = nm) then Some (0, x)
  else prod_map S id <$> find_signal nm l.
Proof. reflexivity. Qed.

Lemma lookup_signal_cons (nm : string) (x : Signal) (l : list Signal) :
  lookup_signal nm (x :: l) =
  if decide (s_name x = nm) then Some x else lookup_signal nm l.
Proof.
  unfold lookup_signal. rewrite find_signal_cons.
  destruct (decide (s_name x = nm)); [reflexivity|].
  destruct (find_signal nm l) as [[i y]|]; reflexivity.
Qed.

Lemma lookup_signal_find (nm : string) (l : list Signal) (sg : Signal) :
  lookup_signal nm l = Some sg -> exists i, find_signal nm l = Some (i, sg).
Proof.
  unfold lookup_signal. destruct (find_signal nm l) as [[i y]|]; simpl; [|discriminate].
  intros [= ->]. eauto.
Qed.

Lemma find_signal_name (nm : string) (l : list Signal) (i : nat) (sg : Signal) :
  find_signal nm l = Some (i, sg) -> s_name sg = nm.
Proof. intros Hf. apply list_find_Some in Hf. tauto. Qed.

(** The signal found is updated in place, under its name: every other
    name still finds what it found. *)
Lemma lookup_signal_insert (nm : string) (l : list Signal) (i : nat) (sg sg' : Signal) :
  find_signal nm l = Some (i, sg) -> s_name sg' = nm ->
  forall nm', lookup_signal nm' (<[i := sg']> l) =
              if decide (nm' = nm) then Some sg' else lookup_signal nm' l.
Proof.
  revert i. induction l as [|x l IH]; intros i Hfind Hname nm'; [discriminate|].
  rewrite find_signal_cons in Hfind.
  destruct (decide (s_name x = nm)) as [Hx|Hx].
  - injection Hfind as <- <-. simpl. rewrite !lookup_signal_cons.
    destruct (decide (nm' = nm)) as [->|Hne].
    + now rewrite decide_True.
    + rewrite !decide_False by congruence. reflexivity.
  - destruct (find_signal nm l) as [[j y]|] eqn:Hl; [|discriminate].
    simpl in Hfind. injection Hfind as <- <-. simpl. rewrite !lookup_signal_cons.
    rewrite (IH j eq_refl Hname nm').
    destruct (decide (nm' = nm)) as [->|Hne].
    + now rewrite decide_False.
    + reflexivity.
Qed.

(** Signals put in front under other names are not found. *)
Lemma lookup_signal_app (nm : string) (pre l : list Signal) :
  (forall s, In s pre -> s_name s <> nm) ->
  lookup_signal nm (pre ++ l) = lookup_signal nm l.
Proof.
  induction pre as [|x pre IH]; intros Hpre; [reflexivity|].
  simpl. rewrite lookup_signal_cons, decide_False by (apply Hpre; now left).
  apply IH. intros s Hs. apply Hpre. now right.
Qed.

Lemma update_first_handler_Some (f : string -> string) (sg : Signal) :
  on sg <> [] ->
  exists h rest, on sg = h :: rest /\
    update_first_handler f sg =
    Some {| s_name := s_name sg;
            on := {| events := events h; update := f (update h) |} :: rest;
            s_update := s_update sg |}.
Proof.
  intros Hon. unfold update_first_handler. destruct (on sg) as [|h rest]; [contradiction|].
  eauto.
Qed.

End SignalLookup.

Section LegendSignals.
Context `{External}.
Import Assemble.

(** One round of [selections.forEach]: it returns, it leaves the signals
    of other names as they are, and for a selection of one field it
    leaves the tuple signal with its first update guarded and the click
    handler pushed. *)
Lemma legend_signals_step_spec (model : Model) (selectionFields : list string)
    (signals : list Signal) (sel : InteractiveSelections) :
  legend_signals_ready signals sel ->
  exists out,
    legend_signals_step model selectionFields signals sel = Some out /\
    (forall nm, untouched_by nm sel -> lookup_signal nm out = lookup_signal nm signals) /\
    (length (i_fields sel) = 1 ->
     exists sg h rest,
       lookup_signal (i_name sel +:+ TUPLE) signals = Some sg /\
       on sg = h :: rest /\
       lookup_signal (i_name sel +:+ TUPLE) out =
       Some (push_handler (single_field_handler model sel)
               {| s_name := s_name sg;
                  on := {| events := events h;
                           update := ignoreLegendExpression selectionFields +:+ update h |}
                        :: rest;
                  s_update := s_update sg |})).
Proof.
  intros ((sg & Hsg & Hon) & Htoggle).
  destruct (lookup_signal_find _ _ _ Hsg) as (i & Hfind).
  pose proof (find_signal_name _ _ _ _ Hfind) as Hname.
  destruct (update_first_handler_Some
              (fun u => ignoreLegendExpression selectionFields +:+ u) sg Hon)
    as (h & rest & Hons & Hupd).
  unfold legend_signals_step. rewrite Hfind. simpl. rewrite Hupd. simpl.
  set (sg1 := {| s_name := s_name sg;
                 on := {| events := events h;
                          update := ignoreLegendExpression selectionFields +:+ update h |}
                       :: rest;
                 s_update := s_update sg |}).
  destruct (Nat.eqb_spec (length (i_fields sel)) 1) as [Hone|Hmany]; simpl.
  - set (sg3 := push_handler (single_field_handler model sel) sg1).
    eexists. split; [reflexivity|]. split.
    + intros nm (Hnm & _). rewrite (lookup_signal_insert _ _ _ _ sg3 Hfind Hname).
      now rewrite decide_False.
    + intros _. exists sg, h, rest. repeat split; try assumption.
      rewrite (lookup_signal_insert _ _ _ _ sg3 Hfind Hname). now rewrite decide_True.
  - destruct (Htoggle Hmany) as (tg & Htg & Htgon).
    set (sg2 := push_handler (multi_field_handler model sel (s_name sg)) sg1).
    set (unshifted := rev (map (field_legend_signal (ignoreLegendExpression selectionFields)
                                  (i_name sel)) (i_fields sel))).
    assert (Hun : forall s, In s unshifted ->
              exists f, s_name s = i_name sel +:+ "_" +:+ f +:+ "_legend").
    { intros s Hs. subst unshifted. apply in_rev, in_map_iff in Hs as (f & <- & _).
      exists f. reflexivity. }
    assert (Hlook1 : forall nm, (forall f, nm <> i_name sel +:+ "_" +:+ f +:+ "_legend") ->
              lookup_signal nm (unshifted ++ <[i := sg2]> signals) =
              if decide (nm = i_name sel +:+ TUPLE) then Some sg2
              else lookup_signal nm signals).
    { intros nm Hnm. rewrite lookup_signal_app.
      - apply (lookup_signal_insert _ _ _ _ sg2 Hfind Hname).
      - intros s Hs. destruct (Hun s Hs) as (f & ->). intros Heq. exact (Hnm f (eq_sym Heq)). }
    assert (Htg1 : lookup_signal (i_name sel +:+ "_toggle")
                     (unshifted ++ <[i := sg2]> signals) = Some tg).
    { rewrite Hlook1 by (intros f; apply toggle_not_legend).
      rewrite decide_False; [assumption|].
      intros Heq. exact (tuple_not_toggle _ _ (eq_sym Heq)). }
    destruct (lookup_signal_find _ _ _ Htg1) as (j & Hfind2).
    pose proof (find_signal_name _ _ _ _ Hfind2) as Hname2.
    destruct (update_first_handler_Some
                (fun _ => slice_end 4 (ignoreLegendExpression selectionFields) +:+
                          " ? event.shiftKey : false") tg Htgon)
      as (t & trest & _ & Hupd2).
    fold unshifted. fold sg2. rewrite Hfind2. simpl. rewrite Hupd2. simpl.
    eexists. split; [reflexivity|]. split.
    + intros nm (Hnm1 & Hnm2 & Hnm3).
      match goal with
      | |- lookup_signal _ (<[j := ?tg2]> _) = _ =>
          rewrite (lookup_signal_insert _ _ _ _ tg2 Hfind2 Hname2)
      end.
      rewrite decide_False by assumption.
      rewrite Hlook1 by assumption. now rewrite decide_False.
    + intros Hone. contradiction.
Qed.

(** The whole pass over the selections. *)
Lemma legend_signals_fold_spec (model : Model) (selectionFields : list string)
    (sels : list InteractiveSelections) (signals : list Signal) :
  List.NoDup (map i_name sels) ->
  (forall sel, In sel sels -> legend_signals_ready signals sel) ->
  exists out,
    foldl (fun acc selection =>
             signals ← acc; legend_signals_step model selectionFields signals selection)
          (Some signals) sels = Some out /\
    (forall nm, (forall sel, In sel sels -> untouched_by nm sel) ->
                lookup_signal nm out = lookup_signal nm signals) /\
    (forall sel, In sel sels -> length (i_fields sel) = 1 ->
     exists sg h rest,
       lookup_signal (i_name sel +:+ TUPLE) signals = Some sg /\
       on sg = h :: rest /\
       lookup_signal (i_name sel +:+ TUPLE) out =
       Some (push_handler (single_field_handler model sel)
               {| s_name := s_name sg;
                  on := {| events := events h;
                           update := ignoreLegendExpression selectionFields +:+ update h |}
                        :: rest;
                  s_update := s_update sg |})).
Proof.
  revert signals. induction sels as [|s sels IH]; intros signals Hnd Hready.
  - exists signals. simpl. split; [reflexivity|]. split; [reflexivity|]. intros ? [].
  - simpl in Hnd. apply List.NoDup_cons_iff in Hnd as (Hfresh & Hnd).
    destruct (legend_signals_step_spec model selectionFields signals s)
      as (s1 & Hstep & Hother & Hsingle); [apply Hready; now left|].
    assert (Hdistinct : forall s', In s' sels -> i_name s' <> i_name s).
    { intros s' Hs' Heq. apply Hfresh. rewrite <- Heq. now apply in_map. }
    assert (Htuple : forall s', In s' sels -> untouched_by (i_name s' +:+ TUPLE) s).
    { intros s' Hs'. repeat split.
      - intros Heq. apply string_app_inv_tail in Heq. exact (Hdistinct s' Hs' Heq).
      - apply tuple_not_toggle.
      - intros f. apply tuple_not_legend. }
    assert (Htoggle : forall s', In s' sels -> untouched_by (i_name s' +:+ "_toggle") s).
    { intros s' Hs'. repeat split.
      - intros Heq. exact (tuple_not_toggle _ _ (eq_sym Heq)).
      - intros Heq. apply string_app_inv_tail in Heq. exact (Hdistinct s' Hs' Heq).
      - intros f. apply toggle_not_legend. }
    destruct (IH s1 Hnd) as (out & Hfold & Hother' & Hsingle').
    { intros s' Hs'. destruct (Hready s' (or_intror Hs')) as ((sg & Hsg & Hon) & Htg).
      split.
      - exists sg. rewrite (Hother _ (Htuple s' Hs')). auto.
      - intros Hmany. destruct (Htg Hmany) as (tg & Htg' & Htgon).
        exists tg. rewrite (Hother _ (Htoggle s' Hs')). auto. }
    exists out. simpl. rewrite Hstep. split; [exact Hfold|]. split.
    + intros nm Hnm. rewrite Hother' by (intros s' Hs'; apply Hnm; now right).
      apply Hother, Hnm. now left.
    + intros s0 [<-|Hs0] Hone.
      * destruct (Hsingle Hone) as (sg & h & rest & Hsg & Hons & Hout).
        exists sg, h, rest. repeat split; try assumption.
        rewrite Hother'; [assumption|].
        intros s' Hs'. repeat split.
        -- intros Heq. apply string_app_inv_tail in Heq.
           exact (Hdistinct s' Hs' (eq_sym Heq)).
        -- apply tuple_not_toggle.
        -- intros f. apply tuple_not_legend.
      * destruct (Hsingle' s0 Hs0 Hone) as (sg & h & rest & Hsg & Hons & Hout).
        exists sg, h, rest. repeat split; try assumption.
        rewrite <- (Hother _ (Htuple s0 Hs0)). assumption.
Qed.

Lemma NoDup_map_filter {A B} (f : A -> B) (p : A -> bool) (l : list A) :
  List.NoDup (map f l) -> List.NoDup (map f (List.filter p l)).
Proof.
  induction l as [|x l IH]; simpl; intros Hnd; [constructor|].
  apply List.NoDup_cons_iff in Hnd as (Hx & Hnd).
  destruct (p x); simpl; [|auto].
  constructor; [|auto].
  intros Hin. apply Hx. apply in_map_iff in Hin as (y & Hy & Hin).
  apply filter_In in Hin as (Hin & _). apply in_map_iff. eauto.
Qed.

Lemma projecting_names (l : list SelectionComponent) (acc : list InteractiveSelections) :
  map i_name (fold_left LegendParse.push_projecting l acc) =
  map i_name acc ++
  map name (List.filter (fun c => bool_decide (is_Some (fields c))) l).
Proof.
  revert acc. induction l as [|c l IH]; intros acc; simpl.
  - now rewrite app_nil_r.
  - rewrite IH. unfold LegendParse.push_projecting.
    destruct (fields c) as [fs|]; simpl.
    + rewrite map_app, <- app_assoc. reflexivity.
    + reflexivity.
Qed.

Lemma interactiveLegendExists_names (model : Model) :
  List.NoDup (map name (selections_of model)) ->
  List.NoDup (map i_name (LegendParse.interactiveLegendExists model)).
Proof.
  intros Hnd.
  assert (Hdec : forall l : list InteractiveSelections, l = [] \/ l <> [])
    by (intros [|? ?]; [now left|right; congruence]).
  destruct (Hdec (LegendParse.interactiveLegendExists model)) as [->|Hne]; [constructor|].
  rewrite (interactiveLegendExists_projecting model Hne).
  unfold LegendParse.projecting_selections. rewrite projecting_names. simpl.
  now apply NoDup_map_filter.
Qed.

Lemma ignoreLegendExpression_snoc (fs : list string) (f : string) :
  ignoreLegendExpression (fs ++ [f]) =
  "item().mark.name !== 'symbols_" +:+ f +:+ "_legend' && item().mark.name !== 'labels_" +:+
  f +:+ "_legend' && " +:+ ignoreLegendExpression fs.
Proof.
  unfold ignoreLegendExpression. rewrite fold_left_app. simpl. unfold LEGEND. string_eq.
Qed.

(** C5. When the view qualifies for legend binding, the signals of the
    unit are assembled through the legend pass, and for every bound
    selection that projects one field [f] the tuple signal it leaves is
    the one that came out of the selection compilers with the guard over
    the legend mark names put before its first update, and with one
    handler pushed: on the clicks on [symbols_f_legend] and
    [labels_f_legend], updating to the one-value tuple of [datum.value].
    The guard has one clause for each projected field of the view that
    rules out the two legend marks of the field. *)
Theorem assembleUnitSelectionSignals_single_field `{Compilers}
    (model : Model) (signals : list Signal) :
  LegendParse.interactiveLegendExists model <> [] ->
  List.NoDup (map name (selections_of model)) ->
  (forall sel, In sel (LegendParse.interactiveLegendExists model) ->
     legend_signals_ready
       (fold_left (selection_signals model) (selections_of model) signals) sel) ->
  exists out,
    assembleUnitSelectionSignals model signals = Some out /\
    (forall sel f,
       In sel (LegendParse.interactiveLegendExists model) -> i_fields sel = [f] ->
       exists sg h rest,
         lookup_signal (i_name sel +:+ TUPLE)
           (fold_left (selection_signals model) (selections_of model) signals) = Some sg /\
         on sg = h :: rest /\
         lookup_signal (i_name sel +:+ TUPLE) out =
         Some {| s_name := i_name sel +:+ TUPLE;
                 on := ({| events := events h;
                           update :=
                             ignoreLegendExpression
                               (unique (flatten (map i_fields
                                  (LegendParse.interactiveLegendExists model)))) +:+
                             update h |} :: rest) ++
                       [ {| events := EventSelector
                              ("@symbols_" +:+ f +:+ "_legend:click, @labels_" +:+ f +:+
                               "_legend:click, ");
                            update := "{unit: " +:+ unitName model +:+ ", fields: " +:+
                                      i_name sel +:+ "_tuple_fields, values: [datum.value]}" |} ];
                 s_update := s_update sg |})
    /\ (forall fs f,
          ignoreLegendExpression (fs ++ [f]) =
          "item().mark.name !== 'symbols_" +:+ f +:+
          "_legend' && item().mark.name !== 'labels_" +:+ f +:+ "_legend' && " +:+
          ignoreLegendExpression fs).
Proof.
  intros Hne Hnd Hready.
  destruct (legend_signals_fold_spec model
              (unique (flatten (map i_fields (LegendParse.interactiveLegendExists model))))
              (LegendParse.interactiveLegendExists model)
              (fold_left (selection_signals model) (selections_of model) signals)
              (interactiveLegendExists_names model Hnd) Hready)
    as (out & Hfold & _ & Hsingle).
  exists out. split; [|split].
  - unfold assembleUnitSelectionSignals, assembleInteractiveLegendSignals.
    destruct (LegendParse.interactiveLegendExists model) eqn:He; [congruence|].
    exact Hfold.
  - intros sel f Hin Hf.
    destruct (Hsingle sel Hin ltac:(rewrite Hf; reflexivity))
      as (sg & h & rest & Hsg & Hons & Hout).
    exists sg, h, rest. split; [assumption|]. split; [assumption|].
    rewrite Hout. unfold push_handler, single_field_handler. simpl.
    destruct (lookup_signal_find _ _ _ Hsg) as (i & Hfind).
    rewrite (find_signal_name _ _ _ _ Hfind), Hf.
    unfold eventExpression, LEGEND. simpl.
    do 4 f_equal; string_eq.
  - apply ignoreLegendExpression_snoc.
Qed.

End LegendSignals.

(** C5 on the sample view, whose selection [pick] projects the one field
    [a], shown by its color, size and opacity legends. *)
Lemma assembleUnitSelectionSignals_single_field_witness :
  exists out,
    Assemble.assembleUnitSelectionSignals (H := Sample.external) (H0 := Sample.compilers)
      Sample.view_a_everywhere [] = Some out /\
    Assemble.lookup_signal "pick_tuple" out =
    Some {| s_name := "pick_tuple";
            on := [ {| events := EventSelector "click";
                       update := "item().mark.name !== 'symbols_a_legend' && " +:+
                                 "item().mark.name !== 'labels_a_legend' && " +:+
                                 "datum ? {unit: unit, values: [datum.a]} : null" |};
                    {| events := EventSelector
                                   "@symbols_a_legend:click, @labels_a_legend:click, ";
                       update := "{unit: " +:+ Sample.quote "view" +:+
                                 ", fields: pick_tuple_fields, values: [datum.value]}" |} ];
            s_update := None |}.
Proof.
  destruct (assembleUnitSelectionSignals_single_field (H := Sample.external)
              (H0 := Sample.compilers) Sample.view_a_everywhere [])
    as (out & Hout & Hsingle & _).
  - vm_compute. discriminate.
  - simpl. repeat constructor. simpl. tauto.
  - intros sel Hin.
    change (In sel [ {| i_name := "pick"; i_store := Sample.quote "pick_store";
                        i_fields := ["a"] |} ]) in Hin.
    destruct Hin as [<-|[]]. split.
    + eexists. split; [reflexivity|discriminate].
    + intros Hmany. exfalso. apply Hmany. reflexivity.
  - exists out. split; [exact Hout|].
    destruct (Hsingle {| i_name := "pick"; i_store := Sample.quote "pick_store";
                         i_fields := ["a"] |} "a") as (sg & h & rest & Hsg & Hon & Hlook).
    + change (In {| i_name := "pick"; i_store := Sample.quote "pick_store";
                    i_fields := ["a"] |}
                 [ {| i_name := "pick"; i_store := Sample.quote "pick_store";
                      i_fields := ["a"] |} ]). now left.
    + reflexivity.
    + injection Hsg as <-. simpl in Hon. injection Hon as <- <-.
      exact Hlook.
Defined.

(** ** The selection predicate of a tree *)

Section PredicateTree.
Context `{External}.
Import Assemble.

Lemma logicalExpr_And (l : list LogicalOperand) (cb : string -> Asm string) :
  logicalExpr (LogicalAnd l) cb =
  (ss ← asm_all (fun o => logicalExpr o cb) l; mret ("(" +:+ join ") && (" ss +:+ ")")).
Proof. reflexivity. Qed.

Lemma logicalExpr_Or (l : list LogicalOperand) (cb : string -> Asm string) :
  logicalExpr (LogicalOr l) cb =
  (ss ← asm_all (fun o => logicalExpr o cb) l; mret ("(" +:+ join ") || (" ss +:+ ")")).
Proof. reflexivity. Qed.

Lemma logicalExpr_Not (o : LogicalOperand) (cb : string -> Asm string) :
  logicalExpr (LogicalNot o) cb = (s ← logicalExpr o cb; mret ("!(" +:+ s +:+ ")")).
Proof. reflexivity. Qed.

Lemma after_leaves_app (model : Model) (a b : list string) (st : PredState) :
  after_leaves model (a ++ b) st = after_leaves model b (after_leaves model a st).
Proof.
  unfold after_leaves. simpl.
  rewrite !flat_map_app, rev_app_distr, <- !app_assoc. reflexivity.
Qed.

Lemma after_leaves_nil (model : Model) (st : PredState) : after_leaves model [] st = st.
Proof.
  unfold after_leaves. simpl. rewrite app_nil_r. destruct st as [s [a]]. reflexivity.
Qed.

(** One run of the callback on a leaf whose selection is found. *)
Lemma expr_run (model : Model) (nm : string) (st : PredState) :
  getSelectionComponent model (varName nm) nm <> None ->
  expr model nm st = Some (leaf_test model nm, after_leaves model [nm] st).
Proof.
  intros Hsel. unfold expr, leaf_test, after_leaves, leaf_stores, leaf_time_units.
  simpl. unfold mbind, Asm_bind, lift_option.
  destruct (getSelectionComponent model (varName nm) nm) as [c|]; [|congruence].
  destruct st as [ss [anc]]. simpl.
  destruct (timeUnit (project c)) as [tu|]; simpl.
  - destruct anc as [|a anc]; simpl;
      destruct (empty c); simpl; rewrite ?app_nil_r; reflexivity.
  - destruct (empty c); simpl; rewrite ?app_nil_r; reflexivity.
Qed.

Lemma asm_bind_Some {A B} (m : Asm A) (f : A -> Asm B) (st st' : PredState) (x : A) :
  m st = Some (x, st') -> (m ≫= f) st = f x st'.
Proof. intros Hm. unfold mbind, Asm_bind. now rewrite Hm. Qed.

Lemma asm_bind_None {A B} (m : Asm A) (f : A -> Asm B) (st : PredState) :
  m st = None -> (m ≫= f) st = None.
Proof. intros Hm. unfold mbind, Asm_bind. now rewrite Hm. Qed.

Lemma asm_all_run (model : Model) (l : list LogicalOperand) :
  Forall (fun o => forall st,
            logicalExpr o (expr model) st =
            Some (render (leaf_test model) o, after_leaves model (leaves o) st)) l ->
  forall st,
    asm_all (fun o => logicalExpr o (expr model)) l st =
    Some (map (render (leaf_test model)) l, after_leaves model (flat_map leaves l) st).
Proof.
  induction 1 as [|o l Ho Hl IH]; intros st; simpl.
  - now rewrite after_leaves_nil.
  - rewrite (asm_bind_Some _ _ _ _ _ (Ho st)).
    rewrite (asm_bind_Some _ _ _ _ _ (IH _)).
    now rewrite after_leaves_app.
Qed.

Lemma logicalExpr_run (model : Model) (op : LogicalOperand) :
  (forall nm, In nm (leaves op) -> getSelectionComponent model (varName nm) nm <> None) ->
  forall st,
    logicalExpr op (expr model) st =
    Some (render (leaf_test model) op, after_leaves model (leaves op) st).
Proof.
  induction op as [s|o IH|l IH|l IH] using LogicalOperand_nested_ind; intros Hall st.
  - simpl. apply expr_run. apply Hall. now left.
  - rewrite logicalExpr_Not. rewrite (asm_bind_Some _ _ _ _ _ (IH Hall st)). reflexivity.
  - assert (Hl : Forall (fun o => forall st,
                logicalExpr o (expr model) st =
                Some (render (leaf_test model) o, after_leaves model (leaves o) st)) l).
    { simpl in Hall. clear st. induction IH as [|o l Ho _ IHl]; constructor.
      - apply Ho. intros nm Hnm. apply Hall. simpl. apply in_app_iff. now left.
      - apply IHl. intros nm Hnm. apply Hall. simpl. apply in_app_iff. now right. }
    rewrite logicalExpr_And, (asm_bind_Some _ _ _ _ _ (asm_all_run model l Hl st)).
    reflexivity.
  - assert (Hl : Forall (fun o => forall st,
                logicalExpr o (expr model) st =
                Some (render (leaf_test model) o, after_leaves model (leaves o) st)) l).
    { simpl in Hall. clear st. induction IH as [|o l Ho _ IHl]; constructor.
      - apply Ho. intros nm Hnm. apply Hall. simpl. apply in_app_iff. now left.
      - apply IHl. intros nm Hnm. apply Hall. simpl. apply in_app_iff. now right. }
    rewrite logicalExpr_Or, (asm_bind_Some _ _ _ _ _ (asm_all_run model l Hl st)).
    reflexivity.
Qed.

(** X1. When every leaf of the tree names a selection the model finds,
    the predicate is the text of the tree over the store tests of its
    leaves, in parentheses, behind one [length(data(<store>))] check for
    every leaf whose selection is not [empty: 'none'], in the order of the
    leaves and once for each time a selection is named; and every leaf
    whose projection carries a time unit has put one node above the
    insertion point, the last leaf's nearest. *)
Theorem assembleSelectionPredicate_tree (model : Model) (selections : LogicalOperand)
    (dfnode : option DataFlowNode) :
  (forall nm, In nm (leaves selections) ->
              getSelectionComponent model (varName nm) nm <> None) ->
  assembleSelectionPredicate model selections dfnode =
  Some (empty_store_prefix (flat_map (leaf_stores model) (leaves selections)) +:+
        "(" +:+ render (leaf_test model) selections +:+ ")",
        {| ancestors := rev (flat_map (leaf_time_units model) (leaves selections)) ++
                        ancestors (default (raw model) dfnode) |}).
Proof.
  intros Hall. unfold assembleSelectionPredicate.
  rewrite (logicalExpr_run model selections Hall). reflexivity.
Qed.

Lemma asm_all_fault (model : Model) (l : list LogicalOperand) (nm : string) :
  Forall (fun o => In nm (leaves o) -> forall st, logicalExpr o (expr model) st = None) l ->
  In nm (flat_map leaves l) ->
  forall st, asm_all (fun o => logicalExpr o (expr model)) l st = None.
Proof.
  induction 1 as [|o l Ho Hl IH]; intros Hin st; simpl in *; [destruct Hin|].
  apply in_app_iff in Hin as [Hin|Hin].
  - apply asm_bind_None. now apply Ho.
  - destruct (logicalExpr o (expr model) st) as [[s st']|] eqn:Hrun.
    + rewrite (asm_bind_Some _ _ _ _ _ Hrun). apply asm_bind_None. now apply IH.
    + now apply asm_bind_None.
Qed.

(** X2. A leaf that names a selection the model does not find makes the
    assembly of the predicate fail, wherever the leaf is in the tree and
    whatever the other leaves are. *)
Theorem assembleSelectionPredicate_unknown_selection (model : Model)
    (selections : LogicalOperand) (dfnode : option DataFlowNode) (nm : string) :
  In nm (leaves selections) ->
  getSelectionComponent model (varName nm) nm = None ->
  assembleSelectionPredicate model selections dfnode = None.
Proof.
  intros Hin Hnone. unfold assembleSelectionPredicate.
  assert (Hrun : forall st, logicalExpr selections (expr model) st = None).
  { revert Hin.
    induction selections as [s|o IH|l IH|l IH] using LogicalOperand_nested_ind;
      intros Hin st.
    - simpl in Hin. destruct Hin as [->|[]]. simpl.
      unfold expr, mbind, Asm_bind, lift_option. now rewrite Hnone.
    - rewrite logicalExpr_Not. apply asm_bind_None. now apply IH.
    - rewrite logicalExpr_And. apply asm_bind_None.
      now apply (asm_all_fault model l nm).
    - rewrite logicalExpr_Or. apply asm_bind_None.
      now apply (asm_all_fault model l nm). }
  now rewrite Hrun.
Qed.

End PredicateTree.

(** X1 on a sample tree that names [by_year] twice: the store check and
    the time-unit node are there twice, and [pick] gives no check. *)
Lemma assembleSelectionPredicate_tree_witness :
  Assemble.assembleSelectionPredicate (H := Sample.external)
    Sample.filter_view Sample.filter_tree None =
  Some ("!(length(data(" +:+ Sample.quote "by_year_store" +:+
        ")) || length(data(" +:+ Sample.quote "brush_store" +:+
        ")) || length(data(" +:+ Sample.quote "by_year_store" +:+ "))) || " +:+
        "((vlSelectionTest(" +:+ Sample.quote "by_year_store" +:+ ", datum, " +:+
        Sample.quote "union" +:+ ")) && (!(vlSelectionTest(" +:+
        Sample.quote "pick_store" +:+ ", datum))) && ((vlSelectionTest(" +:+
        Sample.quote "brush_store" +:+ ", datum)) || (vlSelectionTest(" +:+
        Sample.quote "by_year_store" +:+ ", datum, " +:+ Sample.quote "union" +:+ "))))",
        {| ancestors := ["tu_year"; "tu_year"] |}).
Proof.
  rewrite (assembleSelectionPredicate_tree (H := Sample.external)
             Sample.filter_view Sample.filter_tree None).
  - reflexivity.
  - intros nm Hin. simpl in Hin.
    destruct Hin as [<-|[<-|[<-|[<-|[]]]]]; discriminate.
Defined.

(** X2 on the sample view: [nobody] is not a selection of it. *)
Lemma assembleSelectionPredicate_unknown_selection_witness :
  Assemble.assembleSelectionPredicate (H := Sample.external) Sample.filter_view
    (LogicalOr [Leaf "brush"; LogicalNot (Leaf "nobody")]) None = None.
Proof.
  apply (assembleSelectionPredicate_unknown_selection (H := Sample.external)
           Sample.filter_view _ None "nobody").
  - simpl. tauto.
  - reflexivity.
Defined.

(** ** The guard of the legend pass *)

Section Guard.
Import Assemble.

Lemma substring_app_prefix (a b : string) :
  String.substring 0 (String.length a) (a +:+ b) = a.
Proof.
  induction a as [|ch a IH].
  - rewrite string_app_nil_l. simpl. now destruct b.
  - rewrite string_app_cons. simpl. now rewrite IH.
Qed.

Lemma slice_end_app (a b : string) :
  slice_end (String.length b) (a +:+ b) = a.
Proof.
  unfold slice_end. rewrite string_app_length.
  replace (String.length a + String.length b - String.length b) with (String.length a)
    by lia.
  apply substring_app_prefix.
Qed.

Lemma ignoreLegendExpression_snoc_clause (fs : list string) (f : string) :
  ignoreLegendExpression (fs ++ [f]) =
  guard_clause f +:+ " && " +:+ ignoreLegendExpression fs.
Proof.
  unfold ignoreLegendExpression, guard_clause. rewrite fold_left_app. simpl. string_eq.
Qed.

Lemma ignoreLegendExpression_join (fs : list string) :
  fs <> [] ->
  ignoreLegendExpression fs = join " && " (map guard_clause (rev fs)) +:+ " && ".
Proof.
  induction fs as [|f fs IH] using rev_ind; [congruence|]. intros _.
  rewrite ignoreLegendExpression_snoc_clause, rev_app_distr. simpl.
  destruct fs as [|g fs].
  - simpl. unfold ignoreLegendExpression. simpl. now rewrite string_app_nil_r.
  - rewrite IH by discriminate.
    destruct (rev (g :: fs)) as [|x xs] eqn:Hrev.
    + apply (f_equal (@length string)) in Hrev. rewrite length_rev in Hrev. discriminate.
    + simpl. string_eq.
Qed.

(** X3. For a view that projects fields, the guard is the conjunction of
    one clause for each projected field, the last field first, followed
    by a dangling [ && ], and [slice(0, -4)] of it is that conjunction
    without the dangling operator; with no field both are empty. *)
Theorem ignoreLegendExpression_slice (selectionFields : list string) :
  (selectionFields <> [] ->
     ignoreLegendExpression selectionFields =
       join " && " (map guard_clause (rev selectionFields)) +:+ " && " /\
     slice_end 4 (ignoreLegendExpression selectionFields) =
       join " && " (map guard_clause (rev selectionFields)))
  /\ (ignoreLegendExpression [] = "" /\ slice_end 4 (ignoreLegendExpression []) = "").
Proof.
  split; [|split; reflexivity].
  intros Hne. rewrite (ignoreLegendExpression_join _ Hne). split; [reflexivity|].
  apply (slice_end_app _ " && ").
Qed.

End Guard.

(** X3 on two fields. *)
Lemma ignoreLegendExpression_slice_witness :
  Util.slice_end 4 (Assemble.ignoreLegendExpression ["a"; "b"]) =
  "item().mark.name !== 'symbols_b_legend' && item().mark.name !== 'labels_b_legend'" +:+
  " && item().mark.name !== 'symbols_a_legend' && item().mark.name !== 'labels_a_legend'".
Proof.
  destruct (ignoreLegendExpression_slice ["a"; "b"]) as (Hsome & _).
  destruct (Hsome ltac:(discriminate)) as (_ & ->). reflexivity.
Defined.

(** ** What the legend pass does to the array of signals *)

Section LegendSignalsArray.
Context `{External}.
Import Assemble.

Lemma find_signal_lookup (nm : string) (l : list Signal) (i : nat) (sg : Signal) :
  find_signal nm l = Some (i, sg) -> l !! i = Some sg.
Proof. intros Hf. apply list_find_Some in Hf. tauto. Qed.

Lemma names_insert (l : list Signal) (i : nat) (sg sg' : Signal) :
  l !! i = Some sg -> s_name sg' = s_name sg ->
  map s_name (<[i := sg']> l) = map s_name l.
Proof.
  revert i. induction l as [|x l IH]; intros [|i] Hl Hn; simpl in *; try discriminate.
  - injection Hl as ->. now rewrite Hn.
  - f_equal. now apply IH.
Qed.

Lemma update_first_handler_name (f : string -> string) (sg sg' : Signal) :
  update_first_handler f sg = Some sg' -> s_name sg' = s_name sg.
Proof.
  unfold update_first_handler. destruct (on sg); [discriminate|]. now intros [= <-].
Qed.

Lemma lookup_signal_None (nm : string) (l : list Signal) :
  lookup_signal nm l = None <-> ~ In nm (map s_name l).
Proof.
  unfold lookup_signal, find_signal.
  destruct (list_find (fun s => s_name s = nm) l) as [[i sg]|] eqn:Hf; simpl.
  - split; [discriminate|]. intros Hnin. exfalso. apply Hnin.
    apply list_find_Some in Hf as (Hl & Hn & _). apply in_map_iff. exists sg.
    split; [assumption|]. apply list_elem_of_In, list_elem_of_lookup. eauto.
  - split; [|reflexivity]. intros _ Hin. apply list_find_None in Hf.
    apply in_map_iff in Hin as (sg & Hn & Hin).
    rewrite List.Forall_forall in Hf. exact (Hf sg Hin Hn).
Qed.

Lemma find_signal_None (nm : string) (l : list Signal) :
  lookup_signal nm l = None -> find_signal nm l = None.
Proof.
  unfold lookup_signal. destruct (find_signal nm l) as [[i sg]|]; [discriminate|reflexivity].
Qed.

(** One round keeps every signal under its name and in its place, behind
    the signals it unshifts. *)
Lemma legend_signals_step_names (model : Model) (selectionFields : list string)
    (signals out : list Signal) (sel : InteractiveSelections) :
  legend_signals_step model selectionFields signals sel = Some out ->
  map s_name out = unshifted_names sel ++ map s_name signals.
Proof.
  unfold legend_signals_step, unshifted_names.
  destruct (find_signal (i_name sel +:+ TUPLE) signals) as [[i sg]|] eqn:Hfind;
    simpl; [|discriminate].
  destruct (update_first_handler _ sg) as [sg1|] eqn:Hupd; simpl; [|discriminate].
  pose proof (update_first_handler_name _ _ _ Hupd) as Hn1.
  pose proof (find_signal_lookup _ _ _ _ Hfind) as Hi.
  destruct (length (i_fields sel) =? 1); simpl.
  - intros [= <-]. now apply (names_insert _ _ sg).
  - match goal with
    | |- context [find_signal ?nm ?l] =>
        destruct (find_signal nm l) as [[j tg]|] eqn:Hfind2; simpl; [|discriminate]
    end.
    destruct (update_first_handler _ tg) as [tg1|] eqn:Hupd2; simpl; [|discriminate].
    intros [= <-].
    rewrite (names_insert _ _ tg); [|exact (find_signal_lookup _ _ _ _ Hfind2)
                                    |exact (update_first_handler_name _ _ _ Hupd2)].
    rewrite map_app, (names_insert _ _ sg) by assumption.
    f_equal. rewrite map_rev, map_map. reflexivity.
Qed.

Lemma legend_signals_foldl_None (model : Model) (selectionFields : list string)
    (sels : list InteractiveSelections) :
  foldl (fun acc selection =>
           signals ← acc; legend_signals_step model selectionFields signals selection)
        None sels = None.
Proof. induction sels as [|s sels IH]; [reflexivity|exact IH]. Qed.

(** X4. When the legend pass returns, no signal has been removed, renamed
    or moved past another: the names of the array are the names that came
    in, behind the names [<selection>_<field>_legend] of the signals
    unshifted for the selections that do not project exactly one field,
    the last selection's in front. *)
Theorem assembleInteractiveLegendSignals_names (model : Model) (signals out : list Signal)
    (selections : list InteractiveSelections) :
  assembleInteractiveLegendSignals model signals selections = Some out ->
  map s_name out =
  concat (map unshifted_names (rev selections)) ++ map s_name signals.
Proof.
  unfold assembleInteractiveLegendSignals.
  generalize (unique (flatten (map i_fields selections))) as sf. intros sf.
  revert signals. induction selections as [|s sels IH]; intros signals; simpl.
  - now intros [= <-].
  - destruct (legend_signals_step model sf signals s) as [out1|] eqn:Hstep.
    + intros Hfold. rewrite (IH _ Hfold).
      rewrite (legend_signals_step_names _ _ _ _ _ Hstep).
      rewrite map_app, concat_app. simpl. rewrite app_nil_r, <- app_assoc. reflexivity.
    + now rewrite legend_signals_foldl_None.
Qed.

Lemma legend_signals_step_keeps_missing (model : Model) (selectionFields : list string)
    (signals out : list Signal) (sel : InteractiveSelections) (nm : string) :
  legend_signals_step model selectionFields signals sel = Some out ->
  (forall a f, nm <> a +:+ "_" +:+ f +:+ "_legend") ->
  lookup_signal nm signals = None -> lookup_signal nm out = None.
Proof.
  intros Hstep Hnm Hnone. apply lookup_signal_None.
  rewrite (legend_signals_step_names _ _ _ _ _ Hstep), in_app_iff.
  intros [Hin|Hin]; [|now apply lookup_signal_None in Hnone].
  unfold unshifted_names in Hin. destruct (length (i_fields sel) =? 1); [destruct Hin|].
  apply in_rev, in_map_iff in Hin as (f & Hf & _). exact (Hnm _ _ (eq_sym Hf)).
Qed.

(** X5. The legend pass faults when a bound selection has no tuple
    signal in the array, and when one that does not project exactly one
    field has no toggle signal, whichever place the selection has in the
    list: the rounds before it do not create such a signal. *)
Theorem assembleInteractiveLegendSignals_missing_signal (model : Model)
    (signals : list Signal) (selections : list InteractiveSelections)
    (sel : InteractiveSelections) :
  In sel selections ->
  lookup_signal (i_name sel +:+ TUPLE) signals = None \/
  (length (i_fields sel) <> 1 /\ lookup_signal (i_name sel +:+ "_toggle") signals = None) ->
  assembleInteractiveLegendSignals model signals selections = None.
Proof.
  unfold assembleInteractiveLegendSignals.
  generalize (unique (flatten (map i_fields selections))) as sf. intros sf.
  revert signals. induction selections as [|s sels IH]; intros signals Hin Hmiss;
    [destruct Hin|]. simpl.
  destruct (legend_signals_step model sf signals s) as [out1|] eqn:Hstep;
    [|apply legend_signals_foldl_None].
  destruct Hin as [->|Hin].
  - exfalso. revert Hstep. unfold legend_signals_step.
    destruct Hmiss as [Hnone|(Hmany & Hnone)].
    + now rewrite (find_signal_None _ _ Hnone).
    + destruct (find_signal (i_name sel +:+ TUPLE) signals) as [[i sg]|] eqn:Hfind;
        simpl; [|discriminate].
      destruct (update_first_handler _ sg) as [sg1|] eqn:Hupd; simpl; [|discriminate].
      destruct (Nat.eqb_spec (length (i_fields sel)) 1); [contradiction|]. simpl.
      match goal with
      | |- context [find_signal ?nm ?l] =>
          assert (Hnone2 : lookup_signal nm l = None)
      end.
      { apply lookup_signal_None. rewrite map_app, in_app_iff.
        rewrite (names_insert _ _ sg);
          [|exact (find_signal_lookup _ _ _ _ Hfind)
           |exact (update_first_handler_name _ _ _ Hupd)].
        intros [Hin|Hin]; [|now apply lookup_signal_None in Hnone].
        apply in_map_iff in Hin as (x & Hx & Hin).
        apply in_rev, in_map_iff in Hin as (f & <- & _).
        exact (toggle_not_legend _ _ _ (eq_sym Hx)). }
      now rewrite (find_signal_None _ _ Hnone2).
  - apply IH; [assumption|].
    destruct Hmiss as [Hnone|(Hmany & Hnone)]; [left|right; split; [assumption|]].
    + apply (legend_signals_step_keeps_missing _ _ _ _ _ _ Hstep); [|assumption].
      intros a f. apply tuple_not_legend.
    + apply (legend_signals_step_keeps_missing _ _ _ _ _ _ Hstep); [|assumption].
      intros a f. apply toggle_not_legend.
Qed.

End LegendSignalsArray.

(** X4 on the sample signals of [pick] (one field) and [pair] (two): the
    two signals of the fields of [pair] are in front, [b] first. *)
Lemma assembleInteractiveLegendSignals_names_witness :
  exists out,
    Assemble.assembleInteractiveLegendSignals (H := Sample.external) Sample.view_a_everywhere
      (Sample.signals_for "pick" ++ Sample.signals_for "pair")
      [Sample.pick_a; Sample.pair_ab] = Some out /\
    map s_name out =
    ["pair_b_legend"; "pair_a_legend"; "pick_tuple"; "pick_toggle";
     "pair_tuple"; "pair_toggle"].
Proof.
  destruct (Assemble.assembleInteractiveLegendSignals (H := Sample.external)
              Sample.view_a_everywhere
              (Sample.signals_for "pick" ++ Sample.signals_for "pair")
              [Sample.pick_a; Sample.pair_ab]) as [out|] eqn:He;
    [|vm_compute in He; discriminate].
  exists out. split; [reflexivity|].
  rewrite (assembleInteractiveLegendSignals_names (H := Sample.external) _ _ _ _ He).
  reflexivity.
Defined.

(** X5 on the sample signals of [pick] alone: [pair], the second
    selection, has no tuple signal. *)
Lemma assembleInteractiveLegendSignals_missing_signal_witness :
  Assemble.assembleInteractiveLegendSignals (H := Sample.external) Sample.view_a_everywhere
    (Sample.signals_for "pick") [Sample.pick_a; Sample.pair_ab] = None.
Proof.
  apply (assembleInteractiveLegendSignals_missing_signal (H := Sample.external)
           _ _ _ Sample.pair_ab).
  - simpl. tauto.
  - left. reflexivity.
Defined.

(** ** Selections of several fields in the legend pass *)

Section LegendSignalsMulti.
Context `{External}.
Import Assemble.




End LegendSignalsMulti.


(** ** More on the merge of legend components *)

Section MergeLaws.
Context `{LegendExternal}.
Import LegendParse.

(** X7. The merge fails in one case only: never at the first child, and
    later exactly when both components carry an explicit [orient] and the
    two values are not the same. *)
Theorem mergeLegendComponent_fails_iff (mergedLegend : option LegendComponent)
    (childLegend : LegendComponent) :
  mergeLegendComponent mergedLegend childLegend = None <->
  exists merged v1 v2,
    mergedLegend = Some merged /\
    split_explicit merged !! "orient" = Some v1 /\
    split_explicit childLegend !! "orient" = Some v2 /\
    strict_neq (Some v1) (Some v2) = true.
Proof.
  unfold mergeLegendComponent. destruct mergedLegend as [m|].
  - unfold getWithExplicit.
    destruct (split_explicit m !! "orient") as [v1|] eqn:H1;
      destruct (split_explicit childLegend !! "orient") as [v2|] eqn:H2;
      cbn [explicit value andb].
    + destruct (strict_neq (Some v1) (Some v2)) eqn:Hs.
      * split; [|reflexivity]. intros _. exists m, v1, v2. auto.
      * destruct (fold_left _ _ _) as [m' tm]. split; [discriminate|].
        intros (m0 & w1 & w2 & [= <-] & Hw1 & Hw2 & Hneq). congruence.
    + destruct (split_implicit childLegend !! "orient");
        cbn [explicit value andb];
        destruct (fold_left _ _ _) as [m' tm]; (split; [discriminate|]);
        intros (m0 & w1 & w2 & _ & _ & Hw2 & _); discriminate.
    + destruct (split_implicit m !! "orient");
        cbn [explicit value andb];
        destruct (fold_left _ _ _) as [m' tm]; (split; [discriminate|]);
        intros (m0 & w1 & w2 & [= <-] & Hw1 & _); congruence.
    + destruct (split_implicit m !! "orient");
        destruct (split_implicit childLegend !! "orient");
        cbn [explicit value andb];
        destruct (fold_left _ _ _) as [m' tm]; (split; [discriminate|]);
        intros (m0 & w1 & w2 & [= <-] & Hw1 & _); congruence.
  - split; [discriminate|]. intros (m0 & _ & _ & Hm & _). discriminate.
Qed.

Lemma setWithExplicit_same (c : LegendComponent) (key : string) (v : Explicit) :
  getWithExplicit (setWithExplicit c key v) key =
  match value v with
  | Some _ => v
  | None => getWithExplicit c key
  end.
Proof.
  unfold setWithExplicit. destruct v as [b [x|]]; simpl; [|reflexivity].
  apply getWithExplicit_set_same.
Qed.

(** The merged component at a property depends on the two components at
    that property only. *)
Lemma mergeLegendComponent_at (mergedLegend childLegend out : LegendComponent)
    (prop : string) :
  List.NoDup VG_LEGEND_PROPERTIES -> In prop VG_LEGEND_PROPERTIES -> prop <> "encode" ->
  mergeLegendComponent (Some mergedLegend) childLegend = Some out ->
  getWithExplicit out prop =
  match value (fst (mergeValuesWithExplicit (getWithExplicit mergedLegend prop)
                      (getWithExplicit childLegend prop) (tie_breaker prop))) with
  | Some _ => fst (mergeValuesWithExplicit (getWithExplicit mergedLegend prop)
                     (getWithExplicit childLegend prop) (tie_breaker prop))
  | None => getWithExplicit mergedLegend prop
  end.
Proof.
  intros Hnd Hin Hne. unfold mergeLegendComponent.
  destruct (_ && _ && _); [discriminate|].
  apply in_split in Hin as (pre & post & Hprops). rewrite Hprops in Hnd |- *.
  apply List.NoDup_remove_2 in Hnd. rewrite in_app_iff in Hnd.
  rewrite fold_left_app. simpl.
  pose proof (fold_merge_property_other childLegend pre (mergedLegend, false) prop
                ltac:(tauto)) as Hpre.
  destruct (fold_left (merge_property childLegend) pre (mergedLegend, false)) as [m1 f1].
  simpl in Hpre.
  pose proof (fold_merge_property_other childLegend post
                (merge_property childLegend (m1, f1) prop) prop ltac:(tauto)) as Hpost.
  destruct (fold_left (merge_property childLegend) post _) as [m2 f2]. simpl in Hpost.
  intros [= <-].
  assert (Hout : getWithExplicit
                   (if f2
                    then {| split_explicit :=
                              if has_gradient (split_explicit m2)
                              then deleteNestedProperty_encode_gradient (split_explicit m2)
                              else split_explicit m2;
                            split_implicit :=
                              if has_gradient (split_implicit m2)
                              then deleteNestedProperty_encode_gradient (split_implicit m2)
                              else split_implicit m2 |}
                    else m2) prop = getWithExplicit m2 prop).
  { destruct f2; [|reflexivity]. unfold getWithExplicit. simpl.
    now rewrite !strip_gradient_other. }
  rewrite Hout, Hpost. clear Hout Hpost. unfold merge_property. rewrite Hpre.
  destruct (mergeValuesWithExplicit (getWithExplicit mergedLegend prop)
              (getWithExplicit childLegend prop) (tie_breaker prop)) as [v fl].
  cbn [fst]. rewrite setWithExplicit_same, Hpre. reflexivity.
Qed.

(** X8. An explicit value is never lost to an implicit one: for a legend
    property other than [encode], when one component carries the property
    explicitly and the other does not, the merged component carries that
    value, explicitly, whichever of the two sides it came from. *)
Theorem mergeLegendComponent_explicit_wins (mergedLegend childLegend out : LegendComponent)
    (prop : string) (v : LegendValue) :
  List.NoDup VG_LEGEND_PROPERTIES -> In prop VG_LEGEND_PROPERTIES -> prop <> "encode" ->
  mergeLegendComponent (Some mergedLegend) childLegend = Some out ->
  (split_explicit mergedLegend !! prop = Some v /\ split_explicit childLegend !! prop = None) \/
  (split_explicit mergedLegend !! prop = None /\ split_explicit childLegend !! prop = Some v) ->
  getWithExplicit out prop = {| explicit := true; value := Some v |}.
Proof.
  intros Hnd Hin Hne Hout Hside.
  rewrite (mergeLegendComponent_at _ _ _ _ Hnd Hin Hne Hout).
  unfold getWithExplicit, mergeValuesWithExplicit.
  destruct Hside as [(H1 & H2)|(H1 & H2)]; rewrite H1, H2; simpl.
  - destruct (split_implicit childLegend !! prop); reflexivity.
  - destruct (split_implicit mergedLegend !! prop); reflexivity.
Qed.

Lemma mergeSymbolType_spec (st1 st2 : Explicit) :
  mergeSymbolType st1 st2 =
  if bool_decide (value st2 = Some (LegendLit (LStr "circle"))) then st2 else st1.
Proof.
  unfold mergeSymbolType.
  destruct (value st2) as [[[q|s|b]|l|e]|];
    try (rewrite bool_decide_eq_false_2 by discriminate; reflexivity).
  destruct (decide (s = "circle")) as [->|Hne].
  - rewrite bool_decide_eq_true_2 by reflexivity. reflexivity.
  - rewrite bool_decide_eq_false_2 by congruence.
    do 7 (destruct s as [|[[] [] [] [] [] [] [] []] s]; try reflexivity).
    exfalso. apply Hne. reflexivity.
Qed.

(** X9. Two different values of the same provenance: for [symbolType]
    the child's value wins when it is ['circle'], and otherwise, as for
    every property other than [symbolType], [title], [type] and [encode],
    the value merged so far is kept. *)
Theorem mergeLegendComponent_tie (mergedLegend childLegend out : LegendComponent)
    (prop : string) (b : bool) (v1 v2 : LegendValue) :
  List.NoDup VG_LEGEND_PROPERTIES -> In prop VG_LEGEND_PROPERTIES ->
  prop <> "encode" -> prop <> "title" -> prop <> "type" ->
  mergeLegendComponent (Some mergedLegend) childLegend = Some out ->
  getWithExplicit mergedLegend prop = {| explicit := b; value := Some v1 |} ->
  getWithExplicit childLegend prop = {| explicit := b; value := Some v2 |} ->
  v1 <> v2 ->
  getWithExplicit out prop =
  {| explicit := b;
     value := Some (if String.eqb prop "symbolType" &&
                       bool_decide (v2 = LegendLit (LStr "circle"))
                    then v2 else v1) |}.
Proof.
  intros Hnd Hin Hne Hnt Hny Hout H1 H2 Hv.
  rewrite (mergeLegendComponent_at _ _ _ _ Hnd Hin Hne Hout), H1, H2.
  unfold mergeValuesWithExplicit. cbn [explicit value].
  assert (Hdec : bool_decide (Some v1 = Some v2) = false)
    by (apply bool_decide_eq_false; congruence).
  assert (Htie : fst (tie_breaker prop {| explicit := b; value := Some v1 |}
                        {| explicit := b; value := Some v2 |}) =
                 {| explicit := b;
                    value := Some (if String.eqb prop "symbolType" &&
                                      bool_decide (v2 = LegendLit (LStr "circle"))
                                   then v2 else v1) |}).
  { unfold tie_breaker.
    destruct (String.eqb_spec prop "symbolType") as [->|Hns].
    - rewrite mergeSymbolType_spec. cbn [value fst andb].
      destruct (decide (v2 = LegendLit (LStr "circle"))) as [->|Hc].
      + rewrite !bool_decide_eq_true_2 by reflexivity. reflexivity.
      + rewrite !bool_decide_eq_false_2 by congruence. reflexivity.
    - destruct (String.eqb_spec prop "title"); [contradiction|].
      destruct (String.eqb_spec prop "type"); [contradiction|].
      reflexivity. }
  destruct b; cbn [explicit value andb negb]; rewrite Hdec; rewrite Htie; reflexivity.
Qed.

Lemma set_disjoint (c : LegendComponent) (key : string) (v : LegendValue) (b : bool) :
  halves_disjoint c -> halves_disjoint (set c key v b).
Proof.
  intros Hd k. unfold set. destruct b; simpl.
  - destruct (decide (key = k)) as [->|Hne].
    + right. apply lookup_delete_eq.
    + rewrite lookup_insert_ne, lookup_delete_ne by assumption. apply Hd.
  - destruct (decide (key = k)) as [->|Hne].
    + left. apply lookup_delete_eq.
    + rewrite lookup_insert_ne, lookup_delete_ne by assumption. apply Hd.
Qed.

Lemma fold_merge_property_disjoint (childLegend : LegendComponent) (props : list string)
    (st : LegendComponent * bool) :
  halves_disjoint (fst st) ->
  halves_disjoint (fst (fold_left (merge_property childLegend) props st)).
Proof.
  revert st. induction props as [|p props IH]; intros st Hd; [assumption|].
  simpl. apply IH. destruct st as [m f]. unfold merge_property.
  destruct (mergeValuesWithExplicit _ _ _) as [v fl]. simpl in *.
  unfold setWithExplicit. destruct (value v); [now apply set_disjoint|assumption].
Qed.

Lemma strip_gradient_absent (half : gmap string LegendValue) :
  half !! "encode" = None ->
  (if has_gradient half then deleteNestedProperty_encode_gradient half else half)
    !! "encode" = None.
Proof.
  intros Hn. unfold has_gradient. now rewrite Hn.
Qed.

(** X10. The merge keeps the two halves of a component apart: when no
    property is in both halves of the components that come in, none is in
    both halves of the merged one. *)
Theorem mergeLegendComponent_disjoint (mergedLegend : option LegendComponent)
    (childLegend out : LegendComponent) :
  (forall merged, mergedLegend = Some merged -> halves_disjoint merged) ->
  halves_disjoint childLegend ->
  mergeLegendComponent mergedLegend childLegend = Some out ->
  halves_disjoint out.
Proof.
  intros Hm Hc. unfold mergeLegendComponent. destruct mergedLegend as [m|].
  - destruct (_ && _ && _); [discriminate|].
    pose proof (fold_merge_property_disjoint childLegend VG_LEGEND_PROPERTIES (m, false)
                  (Hm m eq_refl)) as Hd.
    destruct (fold_left _ _ _) as [m2 f2]. simpl in Hd. intros [= <-].
    destruct f2; [|assumption]. intros k. simpl.
    destruct (decide (k = "encode")) as [->|Hne].
    + destruct (Hd "encode") as [Hn|Hn]; [left|right]; now apply strip_gradient_absent.
    + rewrite !strip_gradient_other by assumption. apply Hd.
  - intros [= <-]. exact Hc.
Qed.

Lemma merge_property_same (c : LegendComponent) (prop : string) :
  halves_disjoint c -> merge_property c (c, false) prop = (c, false).
Proof.
  intros Hd. unfold merge_property, mergeValuesWithExplicit, getWithExplicit.
  destruct c as [ex im]. simpl in *.
  destruct (ex !! prop) as [x|] eqn:Hex; cbn [explicit value andb negb].
  - rewrite bool_decide_eq_true_2 by reflexivity. unfold setWithExplicit, set. simpl.
    rewrite insert_id by assumption.
    destruct (Hd prop) as [Hn|Hn]; simpl in Hn; [congruence|].
    now rewrite delete_id.
  - destruct (im !! prop) as [x|] eqn:Him; cbn [explicit value andb negb].
    + rewrite bool_decide_eq_true_2 by reflexivity. unfold setWithExplicit, set. simpl.
      now rewrite insert_id, delete_id.
    + reflexivity.
Qed.

(** X11. Merging a component whose halves are apart with a component
    equal to it gives the component back: two children with the same
    legend share exactly that legend.  An explicit [orient] is taken to
    be a literal, as the orientations are. *)
Theorem mergeLegendComponent_same (c : LegendComponent) :
  halves_disjoint c ->
  (forall v, split_explicit c !! "orient" = Some v -> exists l, v = LegendLit l) ->
  mergeLegendComponent (Some c) c = Some c.
Proof.
  intros Hd Horient. unfold mergeLegendComponent.
  assert (Hguard : explicit (getWithExplicit c "orient") &&
                   explicit (getWithExplicit c "orient") &&
                   strict_neq (value (getWithExplicit c "orient"))
                              (value (getWithExplicit c "orient")) = false).
  { unfold getWithExplicit.
    destruct (split_explicit c !! "orient") as [v|] eqn:Ho; cbn [explicit value andb].
    - destruct (Horient v eq_refl) as ([q|s|b] & ->); simpl.
      + now rewrite Qeq_bool_refl.
      + now rewrite String.eqb_refl.
      + now destruct b.
    - destruct (split_implicit c !! "orient"); reflexivity. }
  rewrite Hguard.
  assert (Hfold : fold_left (merge_property c) VG_LEGEND_PROPERTIES (c, false) = (c, false)).
  { generalize VG_LEGEND_PROPERTIES as props.
    induction props as [|p props IH]; [reflexivity|].
    cbn [fold_left]. now rewrite merge_property_same. }
  now rewrite Hfold.
Qed.

End MergeLaws.

(** X8 on the sample legends: an explicit [left] against an implicit
    [right]. *)
Lemma mergeLegendComponent_explicit_wins_witness :
  exists out,
    LegendParse.mergeLegendComponent (H := Sample.legend_external)
      (Some Sample.legend_left) Sample.legend_implicit_right = Some out /\
    LegendParse.getWithExplicit out "orient" =
    {| explicit := true; value := Some (LegendLit (LStr "left")) |}.
Proof.
  destruct (LegendParse.mergeLegendComponent (H := Sample.legend_external)
              (Some Sample.legend_left) Sample.legend_implicit_right) as [out|] eqn:He;
    [|vm_compute in He; discriminate].
  exists out. split; [reflexivity|].
  apply (mergeLegendComponent_explicit_wins (H := Sample.legend_external)
           Sample.legend_left Sample.legend_implicit_right out "orient").
  - simpl. repeat constructor; simpl; intuition discriminate.
  - simpl. tauto.
  - discriminate.
  - exact He.
  - left. split; reflexivity.
Defined.

(** X9 on the sample legends: an implicit [square] against an implicit
    [circle]. *)
Lemma mergeLegendComponent_tie_witness :
  exists out,
    LegendParse.mergeLegendComponent (H := Sample.legend_external)
      (Some Sample.legend_square) Sample.legend_circle = Some out /\
    LegendParse.getWithExplicit out "symbolType" =
    {| explicit := false; value := Some (LegendLit (LStr "circle")) |}.
Proof.
  destruct (LegendParse.mergeLegendComponent (H := Sample.legend_external)
              (Some Sample.legend_square) Sample.legend_circle) as [out|] eqn:He;
    [|vm_compute in He; discriminate].
  exists out. split; [reflexivity|].
  apply (mergeLegendComponent_tie (H := Sample.legend_external)
           Sample.legend_square Sample.legend_circle out "symbolType" false
           (LegendLit (LStr "square")) (LegendLit (LStr "circle"))).
  - simpl. repeat constructor; simpl; intuition discriminate.
  - simpl. tauto.
  - discriminate.
  - discriminate.
  - discriminate.
  - exact He.
  - reflexivity.
  - reflexivity.
  - discriminate.
Defined.

Lemma sample_left_disjoint : LegendParse.halves_disjoint Sample.legend_left.
Proof. intros key. right. apply lookup_empty. Qed.

(** X10 on the sample legends. *)
Lemma mergeLegendComponent_disjoint_witness :
  exists out,
    LegendParse.mergeLegendComponent (H := Sample.legend_external)
      (Some Sample.legend_left) Sample.legend_implicit_right = Some out /\
    LegendParse.halves_disjoint out.
Proof.
  destruct (LegendParse.mergeLegendComponent (H := Sample.legend_external)
              (Some Sample.legend_left) Sample.legend_implicit_right) as [out|] eqn:He;
    [|vm_compute in He; discriminate].
  exists out. split; [reflexivity|].
  apply (mergeLegendComponent_disjoint (H := Sample.legend_external)
           (Some Sample.legend_left) Sample.legend_implicit_right out).
  - intros m [= <-]. exact sample_left_disjoint.
  - intros key. left. apply lookup_empty.
  - exact He.
Defined.

(** X11 on the sample legend with an explicit [left]. *)
Lemma mergeLegendComponent_same_witness :
  LegendParse.mergeLegendComponent (H := Sample.legend_external)
    (Some Sample.legend_left) Sample.legend_left = Some Sample.legend_left.
Proof.
  apply (mergeLegendComponent_same (H := Sample.legend_external) Sample.legend_left).
  - exact sample_left_disjoint.
  - intros v Hv. simpl in Hv. rewrite lookup_singleton_eq in Hv.
    injection Hv as <-. eauto.
Defined.

(** ** The legends of a composite view and of its children *)

Section NonUnitLegend.
Context `{LegendExternal}.
Import LegendParse.

Lemma remove_shared_lookup (resolve : Resolve) (ch ch' : Channel)
    (childLegends : gmap Channel LegendComponent) :
  remove_shared resolve ch childLegends !! ch' =
  if bool_decide (ch' = ch /\ r_legend resolve !! ch = Some Shared)
  then None else childLegends !! ch'.
Proof.
  unfold remove_shared.
  destruct (childLegends !! ch) as [c|] eqn:Hc.
  - destruct (decide (r_legend resolve !! ch = Some Shared)) as [Hs|Hs].
    + rewrite (bool_decide_eq_true_2 _ Hs).
      destruct (decide (ch' = ch)) as [->|Hne].
      * rewrite bool_decide_eq_true_2 by auto. apply lookup_delete_eq.
      * rewrite bool_decide_eq_false_2 by tauto. now apply lookup_delete_ne.
    + rewrite (bool_decide_eq_false_2 _ Hs). rewrite bool_decide_eq_false_2 by tauto.
      reflexivity.
  - destruct (bool_decide _) eqn:Hb; [|reflexivity].
    apply bool_decide_eq_true in Hb as (-> & _). now rewrite Hc.
Qed.

Lemma fold_remove_shared_lookup (resolve : Resolve) (chs : list Channel) (ch' : Channel)
    (childLegends : gmap Channel LegendComponent) :
  fold_left (fun c ch => remove_shared resolve ch c) chs childLegends !! ch' =
  if bool_decide (ch' ∈ chs /\ r_legend resolve !! ch' = Some Shared)
  then None else childLegends !! ch'.
Proof.
  revert childLegends. induction chs as [|ch chs IH]; intros c; cbn [fold_left].
  - rewrite bool_decide_eq_false_2; [reflexivity|].
    intros (Hin & _). now apply elem_of_nil in Hin.
  - rewrite IH, remove_shared_lookup.
    repeat case_bool_decide; try reflexivity; exfalso; set_solver.
Qed.

Lemma fold_map_remove_shared (resolve : Resolve) (chs : list Channel)
    (children : list (gmap Channel LegendComponent)) :
  fold_left (fun cs ch => map (remove_shared resolve ch) cs) chs children =
  map (fun c => fold_left (fun c ch => remove_shared resolve ch c) chs c) children.
Proof.
  revert children. induction chs as [|ch chs IH]; intros cs; simpl.
  - now rewrite map_id.
  - now rewrite IH, map_map.
Qed.

(** The second loop, on any parent legends and resolve. *)
Lemma remove_shared_children (legends : gmap Channel LegendComponent) (resolve : Resolve)
    (children : list (gmap Channel LegendComponent)) (i : nat)
    (child : gmap Channel LegendComponent) :
  children !! i = Some child ->
  exists child',
    fold_left (fun cs ch => map (remove_shared resolve ch) cs) (keys legends) children !! i =
      Some child' /\
    forall ch, child' !! ch =
               if bool_decide (is_Some (legends !! ch) /\
                               r_legend resolve !! ch = Some Shared)
               then None else child !! ch.
Proof.
  intros Hi. rewrite fold_map_remove_shared.
  eexists. split.
  - change (map ?f children) with (f <$> children). rewrite list_lookup_fmap, Hi. reflexivity.
  - intros ch. rewrite fold_remove_shared_lookup.
    destruct (decide (is_Some (legends !! ch) /\ r_legend resolve !! ch = Some Shared))
      as [Hd|Hd].
    + rewrite !bool_decide_eq_true_2; [reflexivity|assumption|].
      split; [apply list_elem_of_In, keys_In|]; tauto.
    + rewrite !bool_decide_eq_false_2; [reflexivity|assumption|].
      rewrite list_elem_of_In, keys_In. assumption.
Qed.

Lemma delete_shared_gradient_idemp (c : LegendComponent) :
  delete_shared_gradient (delete_shared_gradient c) = delete_shared_gradient c.
Proof.
  destruct c as [ex im]. unfold delete_shared_gradient. cbn [split_explicit split_implicit].
  destruct (ex !! "encode") as [[l|l|e]|] eqn:He; cbn [split_explicit split_implicit].
  - now rewrite He.
  - now rewrite He.
  - rewrite lookup_insert_eq, insert_insert_eq, delete_delete_eq. reflexivity.
  - destruct (im !! "encode") as [[l|l|e]|] eqn:Hi; cbn [split_explicit split_implicit];
      rewrite He.
    + now rewrite Hi.
    + now rewrite Hi.
    + rewrite lookup_insert_eq, insert_insert_eq, delete_delete_eq. reflexivity.
    + now rewrite Hi.
Qed.

Lemma kept_legend_edit (orig cur : option LegendComponent) :
  kept_legend orig cur -> kept_legend orig (delete_shared_gradient <$> cur).
Proof.
  intros [-> | ->]; right; [reflexivity|].
  destruct orig as [c|]; [|reflexivity]. simpl. now rewrite delete_shared_gradient_idemp.
Qed.

Lemma merge_channel_shared_kept (children0 : list (gmap Channel LegendComponent))
    (k : nat) (st : LegendStore) (ch : Channel) :
  length (child_legends st) = length children0 ->
  (forall i ch', kept_legend (legend_of children0 i ch') (legend_of (child_legends st) i ch')) ->
  let st' := merge_channel_shared k st ch in
  length (child_legends st') = length children0 /\
  (forall i ch', kept_legend (legend_of children0 i ch') (legend_of (child_legends st') i ch')).
Proof.
  intros Hlen Hkept.
  destruct (merge_channel_shared_step k st ch) as (_ & [Heq|(j & _ & _ & Heq)] & _);
    cbv zeta; rewrite Heq; [auto|].
  split; [now rewrite length_alter|].
  intros i ch'. rewrite legend_of_alter.
  destruct (bool_decide _); [apply kept_legend_edit|]; apply Hkept.
Qed.

Lemma merge_children_shared_kept (children : list (gmap Channel LegendComponent))
    (legends : gmap Channel LegendComponent) (resolve : Resolve) :
  let st := merge_children_shared {| parent_legends := legends;
                                     parent_resolve := resolve;
                                     child_legends := children;
                                     encode_holder := ∅ |} in
  length (child_legends st) = length children /\
  (forall i ch, kept_legend (legend_of children i ch) (legend_of (child_legends st) i ch)).
Proof.
  unfold merge_children_shared. cbn [child_legends].
  generalize (seq 0 (length children)) as ks.
  assert (Hinner : forall k chs st,
    length (child_legends st) = length children ->
    (forall i ch, kept_legend (legend_of children i ch) (legend_of (child_legends st) i ch)) ->
    let st' := fold_left (merge_channel_shared k) chs st in
    length (child_legends st') = length children /\
    (forall i ch, kept_legend (legend_of children i ch) (legend_of (child_legends st') i ch))).
  { intros k chs. induction chs as [|ch chs IH]; intros st Hlen Hkept; [now split|].
    cbn [fold_left].
    destruct (merge_channel_shared_kept children k st ch Hlen Hkept) as (H1 & H2).
    now apply IH. }
  set (st0 := {| parent_legends := legends; parent_resolve := resolve;
                 child_legends := children; encode_holder := ∅ |}).
  assert (Hlen0 : length (child_legends st0) = length children) by reflexivity.
  assert (Hkept0 : forall i ch,
            kept_legend (legend_of children i ch) (legend_of (child_legends st0) i ch))
    by (intros; now left).
  revert Hlen0 Hkept0. generalize st0 as st. clear st0.
  intros st Hlen Hkept ks. revert st Hlen Hkept.
  induction ks as [|k ks IH]; intros st Hlen Hkept; [now split|].
  cbn [fold_left]. destruct (child_legends st !! k) as [cl|]; [|now apply IH].
  destruct (Hinner k (keys cl) st Hlen Hkept) as (H1 & H2). now apply IH.
Qed.

Lemma delete_shared_gradient_cases (c : LegendComponent) :
  delete_shared_gradient c = c \/
  (exists e, split_explicit c !! "encode" = Some (LegendEncode e) /\
             split_explicit (delete_shared_gradient c) =
               <["encode" := LegendEncode (delete "gradient" e)]> (split_explicit c) /\
             split_implicit (delete_shared_gradient c) = split_implicit c) \/
  (exists e, split_explicit c !! "encode" = None /\
             split_implicit c !! "encode" = Some (LegendEncode e) /\
             split_implicit (delete_shared_gradient c) =
               <["encode" := LegendEncode (delete "gradient" e)]> (split_implicit c) /\
             split_explicit (delete_shared_gradient c) = split_explicit c).
Proof.
  unfold delete_shared_gradient.
  destruct (split_explicit c !! "encode") as [[l|l|e]|] eqn:He; auto.
  - right. left. exists e. auto.
  - destruct (split_implicit c !! "encode") as [[l|l|e]|] eqn:Hi; auto.
    right. right. exists e. auto.
Qed.

(** X12. When [parseNonUnitLegend] returns, no child is added or
    dropped, and every child has lost its legend of every channel for
    which the parent holds a legend resolved as shared.  Its legends of
    the other channels it has kept, but not all as they were: the parent's
    legend holds the [encode] object of a child's legend by reference,
    and where a type conflict strips the gradient part from that object
    the child's own legend loses it too.  A kept legend is the legend
    that came in or that legend with the gradient part deleted from its
    [encode] object, in the half the object is in; nothing else of it
    changes. *)
Theorem parseNonUnitLegend_ownership (legends : gmap Channel LegendComponent)
    (resolve : Resolve) (children : list (gmap Channel LegendComponent)) :
  let out := parseNonUnitLegend legends resolve children in
  let gradient_deleted (c c' : LegendComponent) : Prop :=
    (exists e, split_explicit c !! "encode" = Some (LegendEncode e) /\
               split_explicit c' =
                 <["encode" := LegendEncode (delete "gradient" e)]> (split_explicit c) /\
               split_implicit c' = split_implicit c) \/
    (exists e, split_explicit c !! "encode" = None /\
               split_implicit c !! "encode" = Some (LegendEncode e) /\
               split_implicit c' =
                 <["encode" := LegendEncode (delete "gradient" e)]> (split_implicit c) /\
               split_explicit c' = split_explicit c) in
  length (snd out) = length children /\
  forall i child, children !! i = Some child ->
    exists child',
      snd out !! i = Some child' /\
      forall ch,
        if bool_decide (is_Some (fst (fst out) !! ch) /\
                        r_legend (snd (fst out)) !! ch = Some Shared)
        then child' !! ch = None
        else match child !! ch with
             | None => child' !! ch = None
             | Some c =>
                 exists c', child' !! ch = Some c' /\ (c' = c \/ gradient_deleted c c')
             end.
Proof.
  intros out gradient_deleted. subst out gradient_deleted. cbv beta.
  unfold parseNonUnitLegend.
  destruct (merge_children_shared_kept children legends resolve) as (Hlen & Hkept).
  set (st := merge_children_shared _) in *. cbn [fst snd]. split.
  - rewrite fold_map_remove_shared, length_map. exact Hlen.
  - intros i child Hi.
    destruct (child_legends st !! i) as [cur|] eqn:Hcur.
    2:{ apply lookup_ge_None in Hcur. apply lookup_lt_Some in Hi. lia. }
    destruct (remove_shared_children (parent_legends st) (parent_resolve st)
                (child_legends st) i cur Hcur) as (child' & Hi' & Hlook).
    exists child'. split; [exact Hi'|]. intros ch. rewrite Hlook.
    destruct (bool_decide _); [reflexivity|].
    specialize (Hkept i ch). unfold legend_of in Hkept. rewrite Hi, Hcur in Hkept.
    simpl in Hkept. destruct Hkept as [->| ->].
    + destruct (child !! ch) as [c|]; eauto.
    + destruct (child !! ch) as [c|]; [|reflexivity]. simpl.
      eexists. split; [reflexivity|].
      destruct (delete_shared_gradient_cases c) as [Heq|Hdel]; auto.
Qed.

(** One round of the loop leaves a channel alone that the resolution
    answers as independent. *)
Lemma merge_channel_shared_independent (ch : Channel) (resolve0 : Resolve)
    (legends0 : gmap Channel LegendComponent)
    (children0 : list (gmap Channel LegendComponent))
    (k : nat) (st : LegendStore) (ch' : Channel) :
  (forall r, r_scale r = r_scale resolve0 ->
     r_legend r !! ch = r_legend resolve0 !! ch \/ r_legend r !! ch = Some Independent ->
     parseGuideResolve r ch = Independent) ->
  r_scale (parent_resolve st) = r_scale resolve0 ->
  (r_legend (parent_resolve st) !! ch = r_legend resolve0 !! ch \/
   r_legend (parent_resolve st) !! ch = Some Independent) ->
  parent_legends st !! ch = legends0 !! ch ->
  (forall i, legend_of (child_legends st) i ch = legend_of children0 i ch) ->
  let st' := merge_channel_shared k st ch' in
  r_scale (parent_resolve st') = r_scale resolve0 /\
  (r_legend (parent_resolve st') !! ch = r_legend resolve0 !! ch \/
   r_legend (parent_resolve st') !! ch = Some Independent) /\
  parent_legends st' !! ch = legends0 !! ch /\
  (forall i, legend_of (child_legends st') i ch = legend_of children0 i ch) /\
  (r_legend (parent_resolve st) !! ch = Some Independent \/ ch' = ch ->
   r_legend (parent_resolve st') !! ch = Some Independent).
Proof.
  intros Hind Hscale Hleg Hparent Hchildren.
  destruct (merge_channel_shared_step k st ch') as (Hp & Hc & _).
  specialize (Hp (default ∅ (child_legends st !! k))).
  assert (Hread : legend_of (child_legends st) k ch' =
                  default ∅ (child_legends st !! k) !! ch').
  { unfold legend_of. destruct (child_legends st !! k); [reflexivity|].
    simpl. now rewrite lookup_empty. }
  specialize (Hp Hread). cbv zeta.
  set (st' := merge_channel_shared k st ch') in *.
  assert (Hfst : parent_legends st' =
                 fst (merge_channel (default ∅ (child_legends st !! k))
                        (parent_legends st, parent_resolve st) ch'))
    by now rewrite <- Hp.
  assert (Hsnd : parent_resolve st' =
                 snd (merge_channel (default ∅ (child_legends st !! k))
                        (parent_legends st, parent_resolve st) ch'))
    by now rewrite <- Hp.
  destruct (decide (ch' = ch)) as [->|Hne].
  - pose proof (Hind (parent_resolve st) Hscale Hleg) as Hans.
    assert (Hsame : child_legends st' = child_legends st).
    { destruct Hc as [?|(j & _ & Hshared & _)]; [assumption|]. congruence. }
    assert (Hm : merge_channel (default ∅ (child_legends st !! k))
                   (parent_legends st, parent_resolve st) ch =
                 (parent_legends st,
                  set_legend_resolve (parent_resolve st) ch Independent)).
    { unfold merge_channel. cbn [r_legend set_legend_resolve].
      rewrite lookup_insert_eq, Hans. reflexivity. }
    rewrite Hm in Hfst, Hsnd. cbn [fst snd] in Hfst, Hsnd.
    rewrite Hfst, Hsnd, Hsame. cbn [r_scale r_legend set_legend_resolve].
    rewrite lookup_insert_eq. auto 10.
  - destruct (merge_channel_other (default ∅ (child_legends st !! k))
                (parent_legends st, parent_resolve st) ch' ch Hne) as (H1 & H2 & H3).
    cbn [fst snd] in H1, H2, H3. rewrite <- Hfst in H1. rewrite <- Hsnd in H2, H3.
    rewrite H1, H2, H3.
    split; [assumption|]. split; [assumption|]. split; [assumption|]. split.
    + intros i. destruct Hc as [->|(j & _ & _ & ->)]; [apply Hchildren|].
      rewrite legend_of_alter. rewrite bool_decide_eq_false_2; [apply Hchildren|].
      intros [_ Heq]. now apply Hne.
    + intros [?|?]; [assumption|contradiction].
Qed.

(** X13. A channel that the resolution answers as independent, whether
    its scale is independent or its legend was set to be, is left alone
    by [parseNonUnitLegend]: the parent's legend entry of the channel is
    what it was, every child keeps its own legend of the channel as it
    was, and the legend resolve of the channel is ['independent'] when
    some child has a legend of it.  The answer is asked to be
    independent for the resolve that comes in and for what the loop
    makes of it, which differs in the legend resolves it sets. *)
Theorem parseNonUnitLegend_independent (ch : Channel)
    (legends : gmap Channel LegendComponent)
    (resolve : Resolve) (children : list (gmap Channel LegendComponent)) :
  (forall r, r_scale r = r_scale resolve ->
     r_legend r !! ch = r_legend resolve !! ch \/ r_legend r !! ch = Some Independent ->
     parseGuideResolve r ch = Independent) ->
  let out := parseNonUnitLegend legends resolve children in
  fst (fst out) !! ch = legends !! ch /\
  (forall i child, children !! i = Some child ->
     exists child', snd out !! i = Some child' /\ child' !! ch = child !! ch) /\
  ((exists i child, children !! i = Some child /\ is_Some (child !! ch)) ->
   r_legend (snd (fst out)) !! ch = Some Independent).
Proof.
  intros Hind out. subst out. unfold parseNonUnitLegend.
  set (st0 := {| parent_legends := legends; parent_resolve := resolve;
                 child_legends := children; encode_holder := ∅ |}).
  pose (V := fun st : LegendStore =>
    r_scale (parent_resolve st) = r_scale resolve /\
    (r_legend (parent_resolve st) !! ch = r_legend resolve !! ch \/
     r_legend (parent_resolve st) !! ch = Some Independent) /\
    parent_legends st !! ch = legends !! ch /\
    (forall i, legend_of (child_legends st) i ch = legend_of children i ch)).
  assert (Hinner : forall k chs st, V st ->
    let st' := fold_left (merge_channel_shared k) chs st in
    V st' /\
    (r_legend (parent_resolve st) !! ch = Some Independent \/ In ch chs ->
     r_legend (parent_resolve st') !! ch = Some Independent)).
  { intros k chs. induction chs as [|c chs IH]; intros st HV.
    - cbn [fold_left]. split; [assumption|]. intros [?|[]]. assumption.
    - cbn [fold_left]. destruct HV as (V1 & V2 & V3 & V4).
      destruct (merge_channel_shared_independent ch resolve legends children k st c
                  Hind V1 V2 V3 V4) as (W1 & W2 & W3 & W4 & W5).
      destruct (IH (merge_channel_shared k st c)) as (HV' & HT); [now repeat split|].
      split; [assumption|]. intros [Hi|[->|Hin]]; apply HT; auto. }
  assert (Houter : forall ks st, V st ->
    let st' := fold_left (fun st k =>
                 match child_legends st !! k with
                 | Some childLegends =>
                     fold_left (merge_channel_shared k) (keys childLegends) st
                 | None => st
                 end) ks st in
    V st' /\
    (r_legend (parent_resolve st) !! ch = Some Independent \/
     (exists i, In i ks /\ is_Some (legend_of children i ch)) ->
     r_legend (parent_resolve st') !! ch = Some Independent)).
  { induction ks as [|k ks IH]; intros st HV.
    - cbn [fold_left]. split; [assumption|]. intros [?|(? & [] & _)]. assumption.
    - cbn [fold_left].
      destruct (child_legends st !! k) as [cl|] eqn:Hcl.
      + destruct (Hinner k (keys cl) st HV) as (HV' & HT).
        destruct (IH _ HV') as (HV'' & HT').
        split; [assumption|]. intros [Hi|(i & [<-|Hin] & Hsome)]; apply HT'.
        * left. apply HT. now left.
        * left. apply HT. right. apply keys_In.
          destruct HV as (_ & _ & _ & V4). rewrite <- (V4 k) in Hsome.
          unfold legend_of in Hsome. now rewrite Hcl in Hsome.
        * right. eauto.
      + destruct (IH _ HV) as (HV' & HT).
        split; [assumption|]. intros [Hi|(i & [<-|Hin] & Hsome)]; apply HT.
        * now left.
        * destruct HV as (_ & _ & _ & V4). rewrite <- (V4 k) in Hsome.
          unfold legend_of in Hsome. rewrite Hcl in Hsome. now destruct Hsome.
        * right. eauto. }
  assert (Hall : V (merge_children_shared st0) /\
            (r_legend (parent_resolve st0) !! ch = Some Independent \/
             (exists i, In i (seq 0 (length children)) /\ is_Some (legend_of children i ch)) ->
             r_legend (parent_resolve (merge_children_shared st0)) !! ch = Some Independent)).
  { apply (Houter (seq 0 (length children)) st0). unfold V. cbn. auto. }
  destruct Hall as ((V1 & V2 & V3 & V4) & HT).
  destruct (merge_children_shared_kept children legends resolve) as (Hlen & _).
  fold st0 in Hlen.
  set (st := merge_children_shared st0) in *. cbn [fst snd].
  assert (Hsome : (exists i child, children !! i = Some child /\ is_Some (child !! ch)) ->
                  r_legend (parent_resolve st) !! ch = Some Independent).
  { intros (i & child & Hi & Hc). apply HT. right. exists i. split.
    - apply in_seq. apply lookup_lt_Some in Hi. cbn. lia.
    - unfold legend_of. now rewrite Hi. }
  split; [exact V3|]. split; [|exact Hsome].
  intros i child Hi.
  destruct (child_legends st !! i) as [cur|] eqn:Hcur.
  2:{ apply lookup_ge_None in Hcur. apply lookup_lt_Some in Hi. lia. }
  destruct (remove_shared_children (parent_legends st) (parent_resolve st)
              (child_legends st) i cur Hcur) as (child' & Hi' & Hlook).
  exists child'. split; [exact Hi'|]. rewrite Hlook.
  specialize (V4 i). unfold legend_of in V4. rewrite Hi, Hcur in V4. simpl in V4.
  rewrite V4. destruct (child !! ch) as [c|] eqn:Hc.
  - rewrite bool_decide_eq_false_2; [reflexivity|].
    intros (_ & Hs). rewrite Hsome in Hs; [discriminate|].
    exists i, child. rewrite Hc. eauto.
  - now destruct (bool_decide _).
Qed.

(** The types tie somewhere in the loop, and the flag stays set. *)
Lemma fold_merge_property_type_tie (mergedLegend childLegend : LegendComponent)
    (b : bool) (t1 t2 : LegendValue) :
  List.NoDup VG_LEGEND_PROPERTIES ->
  In "type" VG_LEGEND_PROPERTIES ->
  getWithExplicit mergedLegend "type" = {| explicit := b; value := Some t1 |} ->
  getWithExplicit childLegend "type" = {| explicit := b; value := Some t2 |} ->
  t1 <> t2 ->
  snd (fold_left (merge_property childLegend) VG_LEGEND_PROPERTIES (mergedLegend, false))
  = true.
Proof.
  intros Hnd Hin H1 H2 Hne.
  apply in_split in Hin as (pre & post & Hprops).
  rewrite Hprops in Hnd |- *.
  apply List.NoDup_remove_2 in Hnd. rewrite in_app_iff in Hnd.
  rewrite fold_left_app. cbn [fold_left].
  set (st1 := fold_left (merge_property childLegend) pre (mergedLegend, false)).
  assert (Hst1 : getWithExplicit (fst st1) "type" = {| explicit := b; value := Some t1 |}).
  { subst st1. rewrite fold_merge_property_other by tauto. exact H1. }
  destruct (merge_property_type_tie childLegend st1 b t1 t2 Hst1 H2 Hne) as (_ & Hfl).
  now apply fold_merge_property_flag.
Qed.

(** The loop takes an explicit [encode] of the child where the merged
    legend has none that is explicit. *)
Lemma fold_merge_property_takes_encode (mergedLegend childLegend : LegendComponent)
    (v : LegendValue) :
  List.NoDup VG_LEGEND_PROPERTIES ->
  In "encode" VG_LEGEND_PROPERTIES ->
  split_explicit childLegend !! "encode" = Some v ->
  split_explicit mergedLegend !! "encode" = None ->
  split_explicit
    (fst (fold_left (merge_property childLegend) VG_LEGEND_PROPERTIES (mergedLegend, false)))
    !! "encode" = Some v.
Proof.
  intros Hnd Hin Hc Hm.
  apply in_split in Hin as (pre & post & Hprops).
  rewrite Hprops in Hnd |- *.
  apply List.NoDup_remove_2 in Hnd. rewrite in_app_iff in Hnd.
  rewrite fold_left_app. cbn [fold_left].
  set (st1 := fold_left (merge_property childLegend) pre (mergedLegend, false)).
  assert (Hst1 : getWithExplicit (fst st1) "encode" = getWithExplicit mergedLegend "encode").
  { subst st1. rewrite fold_merge_property_other by tauto. reflexivity. }
  assert (Hset : getWithExplicit (fst (merge_property childLegend st1 "encode")) "encode" =
                 {| explicit := true; value := Some v |}).
  { assert (Hv2 : getWithExplicit childLegend "encode" =
                  {| explicit := true; value := Some v |})
      by (unfold getWithExplicit; now rewrite Hc).
    assert (Hv1 : exists o, getWithExplicit mergedLegend "encode" =
                            {| explicit := false; value := o |}).
    { unfold getWithExplicit. rewrite Hm.
      destruct (split_implicit mergedLegend !! "encode"); eauto. }
    destruct Hv1 as (o & Hv1).
    destruct st1 as [m1 f1]. cbn [fst] in Hst1. unfold merge_property.
    rewrite Hst1, Hv1, Hv2. unfold mergeValuesWithExplicit.
    destruct o; cbn; unfold getWithExplicit; cbn; now rewrite lookup_insert_eq. }
  pose proof (fold_merge_property_other childLegend post
                (merge_property childLegend st1 "encode") "encode" ltac:(tauto)) as Hpost.
  rewrite Hset in Hpost. unfold getWithExplicit in Hpost.
  destruct (split_explicit (fst (fold_left (merge_property childLegend) post
                                   (merge_property childLegend st1 "encode")))
              !! "encode") as [v'|].
  - now injection Hpost as ->.
  - destruct (split_implicit _ !! "encode"); discriminate.
Qed.

(** X22. The merged legend holds the [encode] object of a child's legend
    by reference, and the strip after a type conflict edits the child's
    own legend.  In a round of the loop in which the channel is shared,
    the merge goes through, the child's [encode] is explicit where the
    parent's legend has none that is, and the types tie: the child's
    legend of the channel is left with its [encode] object without the
    gradient part, every other legend of every child is as it was, and
    the parent's legend holds the same object, or no [encode] when the
    gradient part was all it held. *)
Theorem merge_channel_shared_strips_child (k : nat) (st : LegendStore) (ch : Channel)
    (m c : LegendComponent) (e : gmap string EncodeEntry) (b : bool)
    (t1 t2 : LegendValue) :
  List.NoDup VG_LEGEND_PROPERTIES ->
  In "type" VG_LEGEND_PROPERTIES ->
  In "encode" VG_LEGEND_PROPERTIES ->
  parseGuideResolve (parent_resolve st) ch = Shared ->
  parent_legends st !! ch = Some m ->
  legend_of (child_legends st) k ch = Some c ->
  explicit (getWithExplicit m "orient") && explicit (getWithExplicit c "orient") &&
  strict_neq (value (getWithExplicit m "orient")) (value (getWithExplicit c "orient"))
  = false ->
  getWithExplicit m "type" = {| explicit := b; value := Some t1 |} ->
  getWithExplicit c "type" = {| explicit := b; value := Some t2 |} ->
  t1 <> t2 ->
  split_explicit c !! "encode" = Some (LegendEncode e) ->
  split_explicit m !! "encode" = None ->
  let st' := merge_channel_shared k st ch in
  legend_of (child_legends st') k ch =
    Some {| split_explicit :=
              <["encode" := LegendEncode (delete "gradient" e)]> (split_explicit c);
            split_implicit := split_implicit c |} /\
  (forall i ch', ~ (i = k /\ ch' = ch) ->
     legend_of (child_legends st') i ch' = legend_of (child_legends st) i ch') /\
  exists merged,
    parent_legends st' !! ch = Some merged /\
    split_explicit merged !! "encode" =
    match e !! "gradient" with
    | Some _ => if bool_decide (delete "gradient" e = ∅) then None
                else Some (LegendEncode (delete "gradient" e))
    | None => Some (LegendEncode e)
    end.
Proof.
  intros Hnd Hty Henc Hres Hm Hc Horient H1 H2 Hne Hce Hme.
  pose proof (fold_merge_property_type_tie m c b t1 t2 Hnd Hty H1 H2 Hne) as Hflag.
  pose proof (fold_merge_property_takes_encode m c _ Hnd Henc Hce Hme) as Hlooped.
  assert (Htake : takes_child_encode m c = true).
  { unfold takes_child_encode. rewrite bool_decide_eq_true_2 by now apply list_elem_of_In.
    unfold getWithExplicit. rewrite Hce, Hme.
    destruct (split_implicit m !! "encode"); reflexivity. }
  cbv zeta. unfold merge_channel_shared. cbn [r_legend set_legend_resolve].
  rewrite lookup_insert_eq, Hres, Hc, Hm.
  unfold mergeLegendComponent. rewrite Horient, Htake.
  destruct (fold_left (merge_property c) VG_LEGEND_PROPERTIES (m, false))
    as [looped flag] eqn:Hfold.
  cbn [fst snd] in Hflag, Hlooped. subst flag.
  cbn [fst snd child_legends parent_legends]. split; [|split].
  - rewrite legend_of_alter, bool_decide_eq_true_2 by auto. rewrite Hc.
    cbn. unfold delete_shared_gradient. now rewrite Hce.
  - intros i ch' Hnot. rewrite legend_of_alter. now rewrite bool_decide_eq_false_2.
  - eexists. rewrite lookup_insert_eq. split; [reflexivity|].
    cbn [split_explicit].
    pose proof (strip_gradient_encode (split_explicit looped)) as Hstrip.
    cbv zeta in Hstrip. rewrite Hlooped in Hstrip.
    destruct (e !! "gradient"); exact Hstrip.
Qed.

End NonUnitLegend.

(** X22 on the second child of the three below: its legend brings an
    explicit [encode] with a gradient and a labels part and a [symbol]
    type, the parent's legend is the [gradient] legend cloned from the
    first child. *)
Lemma merge_channel_shared_strips_child_witness :
  let st := {| LegendParse.parent_legends := {[ COLOR := Sample.legend_gradient ]};
               LegendParse.parent_resolve := Sample.no_resolve;
               LegendParse.child_legends := [ {[ COLOR := Sample.legend_gradient ]};
                                  {[ COLOR := Sample.legend_symbol_encode ]};
                                  {[ COLOR := Sample.legend_right ]} ];
               LegendParse.encode_holder := ∅ |} in
  let st' := LegendParse.merge_channel_shared (H := Sample.legend_external) 1 st COLOR in
  LegendParse.legend_of (LegendParse.child_legends st') 1 COLOR =
    Some {| split_explicit :=
              <[ "orient" := LegendLit (LStr "left") ]>
                {[ "encode" := LegendEncode {[ "labels" := Sample.gradient_entry ]} ]};
            split_implicit := {[ "type" := LegendLit (LStr "symbol") ]} |} /\
  LegendParse.encode_holder st' !! COLOR = Some 1.
Proof.
  intros st st'.
  destruct (merge_channel_shared_strips_child (H := Sample.legend_external) 1 st COLOR
              Sample.legend_gradient Sample.legend_symbol_encode
              (<[ "gradient" := Sample.gradient_entry ]> {[ "labels" := Sample.gradient_entry ]})
              false (LegendLit (LStr "gradient")) (LegendLit (LStr "symbol")))
    as (Hchild & _).
  - simpl. repeat constructor; simpl; intuition discriminate.
  - simpl. tauto.
  - simpl. tauto.
  - reflexivity.
  - reflexivity.
  - reflexivity.
  - reflexivity.
  - reflexivity.
  - reflexivity.
  - discriminate.
  - reflexivity.
  - reflexivity.
  - split; [|vm_compute; reflexivity].
    fold st' in Hchild. rewrite Hchild. reflexivity.
Defined.

(** X12 on three children with color legends.  The first has an implicit
    [gradient] type, the second an implicit [symbol] type, an explicit
    orientation and an explicit [encode] with a gradient and a labels
    part, the third another explicit orientation.  The merge with the
    second child takes its [encode] object and, the types being in
    conflict, strips the gradient part from it; the merge with the third
    fails.  The channel ends up independent, every child keeps its
    legend, and the legend of the second child has lost the gradient
    part. *)
Lemma parseNonUnitLegend_ownership_witness :
  let out := LegendParse.parseNonUnitLegend (H := Sample.legend_external)
               ∅ Sample.no_resolve
               [ {[ COLOR := Sample.legend_gradient ]};
                 {[ COLOR := Sample.legend_symbol_encode ]};
                 {[ COLOR := Sample.legend_right ]} ] in
  fst (fst out) !! COLOR = None /\
  r_legend (snd (fst out)) !! COLOR = Some Independent /\
  snd out =
  [ {[ COLOR := Sample.legend_gradient ]};
    {[ COLOR :=
         {| split_explicit :=
              <[ "orient" := LegendLit (LStr "left") ]>
                {[ "encode" := LegendEncode {[ "labels" := Sample.gradient_entry ]} ]};
            split_implicit := {[ "type" := LegendLit (LStr "symbol") ]} |} ]};
    {[ COLOR := Sample.legend_right ]} ].
Proof.
  intros out.
  destruct (parseNonUnitLegend_ownership (H := Sample.legend_external)
              ∅ Sample.no_resolve
              [ {[ COLOR := Sample.legend_gradient ]};
                {[ COLOR := Sample.legend_symbol_encode ]};
                {[ COLOR := Sample.legend_right ]} ]) as (Hlen & _).
  fold out in Hlen.
  split; [vm_compute; reflexivity|]. split; [vm_compute; reflexivity|].
  vm_compute. reflexivity.
Defined.

(** X13 on two children with color legends, once under an independent
    color scale and once under a shared scale with the legend resolve of
    color set to independent: the parent gets no color legend and the
    second child keeps its own. *)
Lemma parseNonUnitLegend_independent_witness :
  (let out := LegendParse.parseNonUnitLegend (H := Sample.legend_external)
                ∅ Sample.color_independent
                [ {[ COLOR := Sample.legend_left ]}; {[ COLOR := Sample.legend_right ]} ] in
   fst (fst out) !! COLOR = None /\
   exists child', snd out !! 1 = Some child' /\
                  child' !! COLOR = Some Sample.legend_right) /\
  (let out := LegendParse.parseNonUnitLegend (H := Sample.legend_external)
                ∅ Sample.color_legend_independent
                [ {[ COLOR := Sample.legend_left ]}; {[ COLOR := Sample.legend_right ]} ] in
   fst (fst out) !! COLOR = None /\
   exists child', snd out !! 1 = Some child' /\
                  child' !! COLOR = Some Sample.legend_right).
Proof.
  split; intros out.
  - destruct (parseNonUnitLegend_independent (H := Sample.legend_external)
                COLOR ∅ Sample.color_independent
                [ {[ COLOR := Sample.legend_left ]}; {[ COLOR := Sample.legend_right ]} ])
      as (Hparent & Hchildren & _).
    { intros r Hr _. simpl in *. rewrite Hr. reflexivity. }
    split; [exact Hparent|].
    destruct (Hchildren 1 {[ COLOR := Sample.legend_right ]} eq_refl) as (child' & Hi & Hc).
    exists child'. split; [exact Hi|]. rewrite Hc. reflexivity.
  - destruct (parseNonUnitLegend_independent (H := Sample.legend_external)
                COLOR ∅ Sample.color_legend_independent
                [ {[ COLOR := Sample.legend_left ]}; {[ COLOR := Sample.legend_right ]} ])
      as (Hparent & Hchildren & _).
    { intros r Hr Hl. simpl in *. rewrite Hr. simpl.
      destruct Hl as [Hl|Hl]; rewrite Hl; reflexivity. }
    split; [exact Hparent|].
    destruct (Hchildren 1 {[ COLOR := Sample.legend_right ]} eq_refl) as (child' & Hi & Hc).
    exists child'. split; [exact Hi|]. rewrite Hc. reflexivity.
Defined.

(** ** The choice of the selection a legend is bound to *)

Section ChooseSelection.
Import LegendParse.

Lemma choose_selection_invariant (field : string) (sels pre : list InteractiveSelections)
    (si : option nat) (mf : nat) :
  best_selection field pre si mf ->
  let r := fst (fold_left
                  (fun '((selectionIndex, maxFields), i) s =>
                     if (maxFields <? length (i_fields s)) &&
                        (-1 <? indexOf field (i_fields s))%Z
                     then ((Some i, length (i_fields s)), S i)
                     else ((selectionIndex, maxFields), S i))
                  sels ((si, mf), length pre)) in
  best_selection field (pre ++ sels) (fst r) (snd r).
Proof.
  revert pre si mf. induction sels as [|s sels IH]; intros pre si mf Hinv; simpl.
  - now rewrite app_nil_r.
  - replace (pre ++ s :: sels) with ((pre ++ [s]) ++ sels) by now rewrite <- app_assoc.
    replace (S (length pre)) with (length (pre ++ [s]))
      by (rewrite length_app; simpl; lia).
    destruct Hinv as (Hzero & Hsome).
    destruct ((mf <? length (i_fields s)) && (-1 <? indexOf field (i_fields s))%Z) eqn:Hc.
    + apply IH. apply andb_true_iff in Hc as (Hlt & Hidx).
      apply Nat.ltb_lt in Hlt. apply Z.ltb_lt in Hidx.
      assert (Hin : In field (i_fields s)) by (apply indexOf_In; lia).
      split; [lia|]. intros _. exists (length pre), s.
      split; [reflexivity|]. split; [apply lookup_snoc_Some; auto|].
      split; [assumption|]. split; [reflexivity|].
      intros j sel' Hj Hf. apply lookup_snoc_Some in Hj as [(Hjlt & Hj)|(-> & <-)]; [|lia].
      destruct (Nat.eq_dec mf 0) as [Hz|Hnz].
      * destruct (Hzero Hz) as (_ & Hnone). exfalso.
        apply (Hnone sel'); [|assumption].
        apply list_elem_of_In, list_elem_of_lookup. eauto.
      * destruct (Hsome Hnz) as (i & sel & _ & _ & _ & _ & Hbest).
        destruct (Hbest j sel' Hj Hf). lia.
    + apply IH. apply andb_false_iff in Hc.
      assert (Hs : In field (i_fields s) -> length (i_fields s) <= mf).
      { intros Hin. destruct Hc as [Hc|Hc].
        - apply Nat.ltb_ge in Hc. assumption.
        - apply Z.ltb_ge in Hc. apply indexOf_In in Hin. lia. }
      split.
      * intros Hz. destruct (Hzero Hz) as (Hsi & Hnone). split; [assumption|].
        intros x Hx. apply in_app_iff in Hx as [Hx|[<-|[]]]; [now apply Hnone|].
        intros Hin. specialize (Hs Hin). destruct (i_fields s); [destruct Hin|simpl in Hs; lia].
      * intros Hnz. destruct (Hsome Hnz) as (i & sel & Hsi & Hi & Hin & Hlen & Hbest).
        exists i, sel. split; [assumption|].
        split; [now apply lookup_app_l_Some|]. split; [assumption|]. split; [assumption|].
        intros j sel' Hj Hf. apply lookup_snoc_Some in Hj as [(Hjlt & Hj)|(-> & <-)].
        -- now apply Hbest.
        -- split; [now apply Hs|]. intros _. apply lookup_lt_Some in Hi. lia.
Qed.

(** X14. The legend of a field is bound to the selection of highest
    specificity: [updateInteractiveLegendComponent] finds no selection
    exactly when none projects the field; when some selection projects
    the field it finds one, by its index in the list, and the selection
    it finds projects the field, no selection that projects the field has
    more fields, and none with as many fields comes before it in the
    list. *)
Theorem choose_selection_highest_specificity (field : string)
    (sels : list InteractiveSelections) :
  (snd (choose_selection field sels) = 0 <->
   forall s, In s sels -> ~ In field (i_fields s)) /\
  (snd (choose_selection field sels) = 0 -> fst (choose_selection field sels) = None) /\
  ((exists s, In s sels /\ In field (i_fields s)) ->
   exists i sel,
     fst (choose_selection field sels) = Some i /\
     sels !! i = Some sel /\ In field (i_fields sel) /\
     length (i_fields sel) = snd (choose_selection field sels) /\
     forall j sel', sels !! j = Some sel' -> In field (i_fields sel') ->
       length (i_fields sel') <= length (i_fields sel) /\
       (length (i_fields sel') = length (i_fields sel) -> i <= j)) /\
  (forall i, fst (choose_selection field sels) = Some i ->
   exists sel,
     sels !! i = Some sel /\ In field (i_fields sel) /\
     length (i_fields sel) = snd (choose_selection field sels) /\
     forall j sel', sels !! j = Some sel' -> In field (i_fields sel') ->
       length (i_fields sel') <= length (i_fields sel) /\
       (length (i_fields sel') = length (i_fields sel) -> i <= j)).
Proof.
  assert (Hbest : best_selection field sels (fst (choose_selection field sels))
                    (snd (choose_selection field sels))).
  { apply (choose_selection_invariant field sels [] None 0).
    split; [|congruence]. intros _. split; [reflexivity|]. intros s []. }
  destruct Hbest as (Hzero & Hsome).
  split; [|split; [|split]].
  - split; [intros Hz; now apply Hzero|].
    intros Hnone. destruct (Nat.eq_dec (snd (choose_selection field sels)) 0) as [|Hnz];
      [assumption|].
    destruct (Hsome Hnz) as (i & sel & _ & Hi & Hin & _). exfalso.
    apply (Hnone sel); [|assumption].
    apply list_elem_of_In, list_elem_of_lookup. eauto.
  - intros Hz. now apply Hzero.
  - intros (s & Hs & Hf).
    destruct (Nat.eq_dec (snd (choose_selection field sels)) 0) as [Hz|Hnz].
    + destruct (Hzero Hz) as (_ & Hnone). destruct (Hnone s Hs Hf).
    + destruct (Hsome Hnz) as (i & sel & Hsi & Hl & Hin & Hlen & Hb).
      exists i, sel. split; [assumption|]. split; [assumption|].
      split; [assumption|]. split; [assumption|].
      intros j sel' Hj Hf'. rewrite Hlen. now apply Hb.
  - intros i Hi.
    destruct (Nat.eq_dec (snd (choose_selection field sels)) 0) as [Hz|Hnz].
    + destruct (Hzero Hz) as (Hn & _). congruence.
    + destruct (Hsome Hnz) as (i' & sel & Hsi & Hl & Hin & Hlen & Hb).
      rewrite Hi in Hsi. injection Hsi as <-. exists sel.
      split; [assumption|]. split; [assumption|]. split; [assumption|].
      intros j sel' Hj Hf. rewrite Hlen. now apply Hb.
Qed.

End ChooseSelection.

(** X14 on the selections [pick], which projects [a], and [pair], which
    projects [a] and [b]: for the field [a] the second is chosen. *)
Lemma choose_selection_highest_specificity_witness :
  exists i sel,
    fst (LegendParse.choose_selection "a" [Sample.pick_a; Sample.pair_ab]) = Some i /\
    [Sample.pick_a; Sample.pair_ab] !! i = Some sel /\
    In "a" (i_fields sel) /\
    length (i_fields sel) = 2 /\
    i_name sel = "pair".
Proof.
  destruct (choose_selection_highest_specificity "a" [Sample.pick_a; Sample.pair_ab])
    as (_ & _ & Hsome & _).
  destruct Hsome as (i & sel & Hi & Hsel & Hin & Hlen & _).
  { exists Sample.pick_a. simpl. auto. }
  exists i, sel. split; [exact Hi|]. split; [exact Hsel|]. split; [exact Hin|].
  split; [exact Hlen|].
  vm_compute in Hi. injection Hi as <-. vm_compute in Hsel. injection Hsel as <-.
  reflexivity.
Defined.

(** ** What the binder leaves of the encode block *)

Section UpdateLegendMore.
Import LegendParse.

Lemma choose_selection_none (field : string) (sels : list InteractiveSelections) :
  (forall s, In s sels -> ~ In field (i_fields s)) ->
  snd (choose_selection field sels) = 0.
Proof.
  intros Hnone.
  destruct (choose_selection_invariant field sels [] None 0) as (_ & Hsome).
  { split; [|congruence]. intros _. split; [reflexivity|]. intros s []. }
  fold (choose_selection field sels) in Hsome.
  destruct (Nat.eq_dec (snd (choose_selection field sels)) 0) as [|Hnz]; [assumption|].
  destruct (Hsome Hnz) as (i & sel & _ & Hi & Hin & _). exfalso.
  apply (Hnone sel); [|assumption].
  apply list_elem_of_In, list_elem_of_lookup. eauto.
Qed.

(** X15. The binder writes the [labels] and the [symbols] part and
    nothing else: whenever it returns, every other part of the encode
    block is as it came in.  On a channel other than color, opacity, size
    and shape, and when no selection projects the field of the channel,
    it returns the block unchanged; on one of the four channels without a
    field definition it faults. *)
Theorem updateInteractiveLegendComponent_untouched (model : Model)
    (legendEncode : gmap string EncodeEntry) (channel : Channel)
    (sels : list InteractiveSelections) :
  (forall out, updateInteractiveLegendComponent model legendEncode channel sels = Some out ->
     forall part, part <> "labels" -> part <> "symbols" ->
                  out !! part = legendEncode !! part)
  /\ (~ In channel [COLOR; OPACITY; SIZE; SHAPE] ->
        updateInteractiveLegendComponent model legendEncode channel sels = Some legendEncode)
  /\ (forall fd, In channel [COLOR; OPACITY; SIZE; SHAPE] ->
        fieldDef model channel = Some fd ->
        (forall s, In s sels -> ~ In (field fd) (i_fields s)) ->
        updateInteractiveLegendComponent model legendEncode channel sels = Some legendEncode)
  /\ (In channel [COLOR; OPACITY; SIZE; SHAPE] -> fieldDef model channel = None ->
        updateInteractiveLegendComponent model legendEncode channel sels = None).
Proof.
  assert (Hbody : forall out,
    (fd ← fieldDef model channel;
     let '(selectionIndex, maxFields) := choose_selection (field fd) sels in
     if maxFields =? 0 then Some legendEncode
     else maxProjSelection ← (selectionIndex ≫= fun i => sels !! i);
          foldl (fun acc part =>
                   enc ← acc; update_part channel (field fd) maxProjSelection enc part)
                (Some legendEncode) ["labels"; "symbols"]) = Some out ->
    forall part, part <> "labels" -> part <> "symbols" ->
                 out !! part = legendEncode !! part).
  { intros out Hout part Hl Hs.
    destruct (fieldDef model channel) as [fd|]; simpl in Hout; [|discriminate].
    destruct (choose_selection (field fd) sels) as [si mf].
    destruct (mf =? 0); [now injection Hout as <-|].
    destruct (si ≫= fun i => sels !! i) as [sel|]; simpl in Hout; [|discriminate].
    destruct (update_part channel (field fd) sel legendEncode "labels") as [enc1|] eqn:H1;
      simpl in Hout; [|discriminate].
    destruct (update_part_lookup _ _ _ _ _ _ H1) as (Ho1 & _).
    destruct (update_part_lookup _ _ _ _ _ _ Hout) as (Ho2 & _).
    rewrite Ho2, Ho1 by assumption. reflexivity. }
  split; [|split; [|split]].
  - intros out Hout part Hl Hs. unfold updateInteractiveLegendComponent in Hout.
    destruct channel; try (injection Hout as <-; reflexivity); now apply (Hbody out).
  - intros Hch. unfold updateInteractiveLegendComponent.
    destruct channel; try reflexivity; exfalso; apply Hch; simpl; tauto.
  - intros fd Hch Hfd Hnone. unfold updateInteractiveLegendComponent.
    pose proof (choose_selection_none (field fd) sels Hnone) as Hz.
    simpl in Hch. destruct Hch as [<-|[<-|[<-|[<-|[]]]]];
      rewrite Hfd; simpl; destruct (choose_selection (field fd) sels) as [si mf];
      simpl in Hz; subst mf; reflexivity.
  - intros Hch Hfd. unfold updateInteractiveLegendComponent.
    simpl in Hch. destruct Hch as [<-|[<-|[<-|[<-|[]]]]]; now rewrite Hfd.
Qed.

(** X16. Where the [labels] part comes in with an [update] object, the
    binder keeps every entry of that object but the opacity, which
    becomes the pair of the highlighted and the dimmed rule; the
    highlighted value is the value of the opacity that came in when that
    was one value reference, 0.7 when there was none, and is missing
    when the opacity was an array of rules already. *)
Theorem updateInteractiveLegendComponent_existing_opacity (model : Model)
    (legendEncode : gmap string EncodeEntry) (channel : Channel)
    (sels : list InteractiveSelections) (fd : FieldDef)
    (entry : EncodeEntry) (u : gmap string EncodeValue) :
  In channel [COLOR; OPACITY; SIZE; SHAPE] ->
  fieldDef model channel = Some fd ->
  snd (choose_selection (field fd) sels) <> 0 ->
  (forall e, legendEncode !! "symbols" = Some e -> e_update e <> None) ->
  legendEncode !! "labels" = Some entry ->
  e_update entry = Some u ->
  exists out sel e,
    updateInteractiveLegendComponent model legendEncode channel sels = Some out /\
    (fst (choose_selection (field fd) sels) ≫= fun i => sels !! i) = Some sel /\
    out !! "labels" = Some e /\
    e_update e =
    Some (<["opacity" :=
              Rules [ {| vr_test := Some (legend_test sel (field fd));
                         vr_value := match u !! "opacity" with
                                     | Some (Plain r) => vr_value r
                                     | Some (Rules _) => None
                                     | None => Some (LNum 0.7%Q)
                                     end;
                         vr_signal := None |};
                      value_ref (LNum 0.2%Q) ]]> u).
Proof.
  intros Hch Hfd Hmax Hsym Hl Hu.
  destruct (updateInteractiveLegendComponent_rounds model legendEncode channel sels fd
              Hch Hfd Hmax) as (i & sel & Hi & Hsel & _ & ->).
  set (labels :=
         {| e_name := Some ("labels" +:+ "_" +:+ field fd +:+ LEGEND);
            e_interactive := Some true;
            e_update := Some (<["opacity" :=
              Rules [ {| vr_test := Some (legend_test sel (field fd));
                         vr_value := match u !! "opacity" with
                                     | Some (Plain r) => vr_value r
                                     | Some (Rules _) => None
                                     | None => Some (LNum 0.7%Q)
                                     end;
                         vr_signal := None |};
                      value_ref (LNum 0.2%Q) ]]> u) |}).
  assert (H1 : update_part channel (field fd) sel legendEncode "labels" =
               Some (<["labels" := labels]> legendEncode)).
  { unfold update_part, labels. rewrite Hl, Hu. simpl.
    destruct (u !! "opacity") as [[r|l]|]; reflexivity. }
  destruct (update_part_total channel (field fd) sel
              (<["labels" := labels]> legendEncode) "symbols") as (enc2 & H2).
  { intros e He. rewrite lookup_insert_ne in He by discriminate. now apply Hsym. }
  destruct (update_part_lookup _ _ _ _ _ _ H2) as (Hother2 & _).
  exists enc2, sel, labels. rewrite H1. simpl. split; [exact H2|].
  split; [rewrite Hi; exact Hsel|].
  split; [|reflexivity].
  rewrite Hother2 by discriminate. apply lookup_insert_eq.
Qed.

End UpdateLegendMore.


(** X16 on the color legend of the sample view, whose [labels] part
    comes in with an opacity of 1: the highlighted rule keeps the 1. *)
Lemma updateInteractiveLegendComponent_existing_opacity_witness :
  exists out e test,
    LegendParse.updateInteractiveLegendComponent
      Sample.view_a_everywhere {[ "labels" := Sample.gradient_entry ]} COLOR [Sample.pick_a]
      = Some out /\
    out !! "labels" = Some e /\
    e_update e =
      Some (<["opacity" := Rules [ {| vr_test := Some test;
                                      vr_value := Some (LNum 1%Q);
                                      vr_signal := None |};
                                   LegendParse.value_ref (LNum 0.2%Q) ]]>
              {[ "opacity" := Plain {| vr_test := None;
                                       vr_value := Some (LNum 1%Q);
                                       vr_signal := None |} ]}).
Proof.
  destruct (updateInteractiveLegendComponent_existing_opacity
              Sample.view_a_everywhere {[ "labels" := Sample.gradient_entry ]} COLOR
              [Sample.pick_a] (Sample.plain_field "a") Sample.gradient_entry
              {[ "opacity" := Plain {| vr_test := None;
                                       vr_value := Some (LNum 1%Q);
                                       vr_signal := None |} ]})
    as (out & sel & e & Hout & _ & He & Hu).
  - simpl. tauto.
  - reflexivity.
  - simpl. discriminate.
  - intros e He. rewrite lookup_singleton_ne in He by discriminate. discriminate.
  - apply lookup_singleton_eq.
  - reflexivity.
  - exists out, e, (LegendParse.legend_test sel "a"). auto.
Defined.

(** ** The signals of a unit without legend binding *)

Section UnitSignals.
Context `{External} `{Compilers}.
Import Assemble LegendParse.

Lemma selection_signals_pushed (model : Model) (signals : list Signal)
    (selCmpt : SelectionComponent) :
  (forall tx, In tx (transforms selCmpt) -> t_signals tx = None) ->
  selection_signals model signals selCmpt = signals ++ pushed_signals model selCmpt.
Proof.
  intros Htx.
  assert (Hfold : forall txs sgs e,
    (forall tx, In tx txs -> t_signals tx = None) ->
    fold_left (fun '(signals, modifyExpr) txCompiler =>
                 (match t_signals txCompiler with
                  | Some f => f model selCmpt signals
                  | None => signals
                  end,
                  match t_modifyExpr txCompiler with
                  | Some f => f model selCmpt modifyExpr
                  | None => modifyExpr
                  end)) txs (sgs, e) =
    (sgs, fold_left (fun modifyExpr txCompiler =>
                       match t_modifyExpr txCompiler with
                       | Some f => f model selCmpt modifyExpr
                       | None => modifyExpr
                       end) txs e)).
  { induction txs as [|tx txs IH]; intros sgs' e' Hall; [reflexivity|].
    cbn [fold_left]. rewrite (Hall tx) by now left.
    apply IH. intros tx' Hin. apply Hall. now right. }
  unfold selection_signals, pushed_signals, modify_expr.
  rewrite Hfold by assumption. rewrite <- app_assoc. reflexivity.
Qed.

Lemma fold_selection_signals_pushed (model : Model) (sels : list SelectionComponent)
    (signals : list Signal) :
  (forall c tx, In c sels -> In tx (transforms c) -> t_signals tx = None) ->
  fold_left (selection_signals model) sels signals =
  signals ++ flat_map (pushed_signals model) sels.
Proof.
  revert signals. induction sels as [|c sels IH]; intros signals Htx.
  - simpl. now rewrite app_nil_r.
  - cbn [fold_left flat_map]. rewrite selection_signals_pushed by (intros; apply (Htx c); auto; now left).
    rewrite IH by (intros c' tx Hc Htx'; apply (Htx c'); auto; now right).
    now rewrite <- app_assoc.
Qed.

Lemma projecting_selections_none (model : Model) :
  (forall c, In c (selections_of model) -> fields c = None) ->
  projecting_selections model = [].
Proof.
  intros Hnone. unfold projecting_selections.
  destruct (fold_left push_projecting (selections_of model) []) as [|x l] eqn:Hx;
    [reflexivity|].
  assert (Hin : In x (x :: l)) by now left.
  rewrite <- Hx in Hin.
  apply fold_push_projecting_In in Hin as [[]|(c & fs & Hin & Hc & _)].
  rewrite (Hnone c Hin) in Hc. discriminate.
Qed.

(** X17. For a view nested in another view, and for a view none of
    whose selections projects fields, when no transform of its
    selections rewrites the signals: the assembly returns, the legend
    pass not being run, and the result is the incoming signals followed,
    for each selection in order, by the signals of its compiler and then
    its modify signal, whose expression is the compiler's handed through
    the transforms in their order. *)
Theorem assembleUnitSelectionSignals_without_legend (model : Model)
    (signals : list Signal) :
  parent model <> None \/ (forall c, In c (selections_of model) -> fields c = None) ->
  (forall c tx, In c (selections_of model) -> In tx (transforms c) -> t_signals tx = None) ->
  assembleUnitSelectionSignals model signals =
  Some (signals ++ flat_map (pushed_signals model) (selections_of model)).
Proof.
  intros Hno Htx. unfold assembleUnitSelectionSignals.
  assert (Hnil : interactiveLegendExists model = []).
  { unfold interactiveLegendExists. destruct Hno as [Hp|Hf].
    - destruct (parent model); [reflexivity|congruence].
    - rewrite (projecting_selections_none model Hf). now destruct (parent model). }
  rewrite Hnil. now rewrite fold_selection_signals_pushed.
Qed.

End UnitSignals.

(** X17 on the sample view nested in another view, with a transform that
    extends the modify expression. *)
Lemma assembleUnitSelectionSignals_without_legend_witness :
  Assemble.assembleUnitSelectionSignals (H := Sample.external) (H0 := Sample.compilers_toggle)
    Sample.nested_view [] =
  Some [ {| s_name := "pick_tuple";
            on := [ {| events := EventSelector "click";
                       update := "datum ? {unit: unit, values: [datum.a]} : null" |} ];
            s_update := None |};
         {| s_name := "pick_toggle";
            on := [ {| events := EventSelector "click"; update := "event.shiftKey" |} ];
            s_update := None |};
         {| s_name := "pick_modify";
            on := [];
            s_update := Some ("modify(" +:+ Sample.quote "pick_store" +:+
                              ", pick_tuple, pick_toggle)") |} ].
Proof.
  rewrite (assembleUnitSelectionSignals_without_legend (H := Sample.external)
             (H0 := Sample.compilers_toggle) Sample.nested_view []).
  - reflexivity.
  - left. discriminate.
  - intros c tx _ [<-|[]]. reflexivity.
Defined.

(** ** The scale domain: faults and what is returned *)

Section ScaleDomainMore.
Context `{External}.
Import Assemble.

(** The field that is settled, by the branch that settles it. *)
Lemma domain_field_cases (sd : SelectionDomain) (c : SelectionComponent) :
  (domain_field sd c = None <->
   truthy (sd_field sd) = false /\ items (project c) = []) /\
  (forall f ws, domain_field sd c = Some (f, ws) ->
     length ws <= 1 /\
     ((sd_field sd = Some f /\ f <> "" /\ ws = []) \/
      (truthy (sd_field sd) = false /\
       exists p0 rest, items (project c) = p0 :: rest /\
         ((truthy (sd_encoding sd) = true /\
           exists e, List.filter (fun p => bool_decide
                                   (p_channel p = Some (default "" (sd_encoding sd))))
                                 (p0 :: rest) = [e] /\ f = p_field e) \/
          ((truthy (sd_encoding sd) = false \/
            length (List.filter (fun p => bool_decide
                                   (p_channel p = Some (default "" (sd_encoding sd))))
                                (p0 :: rest)) <> 1) /\
           f = p_field p0))))).
Proof.
  unfold domain_field.
  destruct (sd_field sd) as [f0|] eqn:Hfield; cbn [truthy].
  - destruct (truthy_string f0) eqn:Hf0; cbn [negb].
    + rewrite !andb_false_r. split.
      * split; [discriminate|]. intros [? _]. discriminate.
      * intros f ws Hout. injection Hout as <- <-. split; [simpl; lia|]. left.
        split; [reflexivity|]. split; [|reflexivity].
        intros ->. discriminate.
    + rewrite !andb_true_r.
      destruct (items (project c)) as [|p0 rest] eqn:Hitems.
      * split; [destruct (truthy (sd_encoding sd)); simpl; tauto|].
        intros f ws Hout. destruct (truthy (sd_encoding sd)); simpl in Hout; discriminate.
      * split.
        { destruct (truthy (sd_encoding sd)); cbn [negb head mbind option_bind].
          - destruct (List.filter _ (p0 :: rest)) as [|e [|e' l]];
              (split; [discriminate|intros [_ ?]; discriminate]).
          - split; [discriminate|intros [_ ?]; discriminate]. }
        intros f ws Hout.
        destruct (truthy (sd_encoding sd)) eqn:Henc; cbn [negb head mbind option_bind] in Hout.
        { destruct (List.filter _ (p0 :: rest)) as [|e [|e' l]] eqn:Hfil;
            injection Hout as <- <-; (split; [simpl; lia|]); right;
            (split; [reflexivity|]); exists p0, rest; (split; [reflexivity|]).
          - right. split; [right; rewrite Hfil; simpl; lia|reflexivity].
          - left. split; [reflexivity|]. exists e. auto.
          - right. split; [right; rewrite Hfil; simpl; lia|reflexivity]. }
        injection Hout as <- <-. split; [destruct (1 <? _); simpl; lia|]. right.
        split; [reflexivity|]. exists p0, rest. split; [reflexivity|].
        right. split; [now left|reflexivity].
  - rewrite !andb_true_r.
    destruct (items (project c)) as [|p0 rest] eqn:Hitems.
    + split; [destruct (truthy (sd_encoding sd)); simpl; tauto|].
      intros f ws Hout. destruct (truthy (sd_encoding sd)); simpl in Hout; discriminate.
    + split.
      { destruct (truthy (sd_encoding sd)); cbn [negb head mbind option_bind].
        - destruct (List.filter _ (p0 :: rest)) as [|e [|e' l]];
            (split; [discriminate|intros [_ ?]; discriminate]).
        - split; [discriminate|intros [_ ?]; discriminate]. }
      intros f ws Hout.
      destruct (truthy (sd_encoding sd)) eqn:Henc; cbn [negb head mbind option_bind] in Hout.
      { destruct (List.filter _ (p0 :: rest)) as [|e [|e' l]] eqn:Hfil;
          injection Hout as <- <-; (split; [simpl; lia|]); right;
          (split; [reflexivity|]); exists p0, rest; (split; [reflexivity|]).
        - right. split; [right; rewrite Hfil; simpl; lia|reflexivity].
        - left. split; [reflexivity|]. exists e. auto.
        - right. split; [right; rewrite Hfil; simpl; lia|reflexivity]. }
      injection Hout as <- <-. split; [destruct (1 <? _); simpl; lia|]. right.
      split; [reflexivity|]. exists p0, rest. split; [reflexivity|].
      right. split; [now left|reflexivity].
Qed.

(** The branches return a field in every case the first conjunct does
    not rule out. *)
Lemma domain_field_total (sd : SelectionDomain) (c : SelectionComponent) (f : string) :
  (sd_field sd = Some f /\ f <> "") \/
  (truthy (sd_field sd) = false /\
   exists p0 rest, items (project c) = p0 :: rest /\
     ((truthy (sd_encoding sd) = true /\
       exists e, List.filter (fun p => bool_decide
                               (p_channel p = Some (default "" (sd_encoding sd))))
                             (p0 :: rest) = [e] /\ f = p_field e) \/
      ((truthy (sd_encoding sd) = false \/
        length (List.filter (fun p => bool_decide
                               (p_channel p = Some (default "" (sd_encoding sd))))
                            (p0 :: rest)) <> 1) /\
       f = p_field p0))) ->
  exists ws, domain_field sd c = Some (f, ws).
Proof.
  unfold domain_field.
  intros [(Hf & Hne)|(Hfield & p0 & rest & Hitems & Hcase)].
  - rewrite Hf. cbn [truthy]. unfold truthy_string.
    destruct (String.eqb_spec f ""); [contradiction|]. cbn [negb].
    rewrite !andb_false_r. simpl. eauto.
  - rewrite Hfield, Hitems. cbn [negb]. rewrite !andb_true_r.
    destruct Hcase as [(Henc & e & Hfil & ->)|([Henc|Hlen] & ->)].
    + rewrite Henc. cbn [negb]. rewrite Hfil. eauto.
    + rewrite Henc. simpl. eauto.
    + destruct (truthy (sd_encoding sd)); cbn [negb head mbind option_bind]; [|eauto].
      destruct (List.filter _ (p0 :: rest)) as [|e [|e' l]]; simpl in *; eauto. lia.
Qed.

(** X18. [assembleSelectionScaleDomain] faults in four cases and no
    other: the payload cannot be decoded; the selection is not a
    selection of the view itself and the model does not find it; it is
    found there, no field is given, and the selection projects nothing,
    so that there is no first projected field to fall back on; or the
    field that is settled (the given field, else the field of the one
    projection entry of the given channel, else the first projected
    field) is one that [accessPathWithDatum] rejects as a path. *)
Theorem assembleSelectionScaleDomain_fails_iff (model : Model) (domainRaw : SignalRef) :
  assembleSelectionScaleDomain model domainRaw = None <->
  json_parse (remove_first SELECTION_DOMAIN (signal domainRaw)) = None \/
  exists selDomain,
    json_parse (remove_first SELECTION_DOMAIN (signal domainRaw)) = Some selDomain /\
    own_selection (varName (sd_selection selDomain)) (selection model) = None /\
    (getSelectionComponent model (varName (sd_selection selDomain)) (sd_selection selDomain)
       = None \/
     exists selCmpt,
       getSelectionComponent model (varName (sd_selection selDomain)) (sd_selection selDomain)
         = Some selCmpt /\
       ((truthy (sd_field selDomain) = false /\ items (project selCmpt) = []) \/
        exists f,
          accessPathWithDatum f (varName (sd_selection selDomain)) = None /\
          ((sd_field selDomain = Some f /\ f <> "") \/
           (truthy (sd_field selDomain) = false /\
            exists p0 rest, items (project selCmpt) = p0 :: rest /\
              ((truthy (sd_encoding selDomain) = true /\
                exists e,
                  List.filter (fun p => bool_decide
                                 (p_channel p = Some (default "" (sd_encoding selDomain))))
                              (p0 :: rest) = [e] /\ f = p_field e) \/
               ((truthy (sd_encoding selDomain) = false \/
                 length (List.filter
                           (fun p => bool_decide
                              (p_channel p = Some (default "" (sd_encoding selDomain))))
                           (p0 :: rest)) <> 1) /\
                f = p_field p0)))))).
Proof.
  unfold assembleSelectionScaleDomain.
  destruct (json_parse _) as [sd|]; simpl; [|split; auto].
  destruct (own_selection _ _) as [own|] eqn:Hown.
  { split; [discriminate|]. intros [|(sd' & Hsd & Hnone & _)]; [discriminate|].
    injection Hsd as <-. congruence. }
  destruct (getSelectionComponent model _ _) as [c|] eqn:Hget; simpl.
  2:{ split; [|reflexivity]. intros _. right. exists sd. auto. }
  destruct (domain_field_cases sd c) as (Hnone & Hsome).
  split.
  - intros Hout. right. exists sd. split; [reflexivity|]. split; [exact Hown|].
    right. exists c. split; [exact Hget|].
    destruct (domain_field sd c) as [[f ws]|] eqn:Hdf; simpl in Hout.
    + right. exists f.
      destruct (accessPathWithDatum f _) eqn:Hacc; simpl in Hout; [discriminate|].
      split; [reflexivity|].
      destruct (Hsome f ws eq_refl) as (_ & [(Hf & Hne & _)|Hfall]); auto.
    + left. now apply Hnone.
  - intros [|(sd' & Hsd & _ & [Hg|(c' & Hg & Hcase)])]; try discriminate;
      injection Hsd as <-; rewrite Hget in Hg; [discriminate|].
    injection Hg as <-.
    destruct Hcase as [Hempty|(f & Hacc & Hf)].
    + apply Hnone in Hempty. now rewrite Hempty.
    + destruct (domain_field_total sd c f Hf) as (ws & ->). simpl. now rewrite Hacc.
Qed.

(** X19. Whenever [assembleSelectionScaleDomain] returns, it has given
    at most one warning.  For a selection of the view itself the signal
    is the literal [null] and the warning is given; for a selection
    found through the model the signal is the access path of a field
    that is either the field of the payload or a field the selection
    projects. *)
Theorem assembleSelectionScaleDomain_returns (model : Model) (domainRaw : SignalRef)
    (out : SignalRef) (ws : list string) :
  assembleSelectionScaleDomain model domainRaw = Some (out, ws) ->
  length ws <= 1 /\
  exists selDomain,
    json_parse (remove_first SELECTION_DOMAIN (signal domainRaw)) = Some selDomain /\
    (is_Some (own_selection (varName (sd_selection selDomain)) (selection model)) /\
     out = {| signal := "null" |} /\ length ws = 1
     \/
     own_selection (varName (sd_selection selDomain)) (selection model) = None /\
     exists selCmpt f,
       getSelectionComponent model (varName (sd_selection selDomain)) (sd_selection selDomain)
         = Some selCmpt /\
       accessPathWithDatum f (varName (sd_selection selDomain)) = Some (signal out) /\
       (sd_field selDomain = Some f \/ In f (map p_field (items (project selCmpt))))).
Proof.
  unfold assembleSelectionScaleDomain.
  destruct (json_parse _) as [sd|]; simpl; [|discriminate].
  destruct (own_selection _ _) as [own|] eqn:Hown.
  { intros Hout. injection Hout as <- <-. split; [simpl; lia|].
    exists sd. split; [reflexivity|]. left. rewrite Hown. split; [eauto|]. split; reflexivity. }
  destruct (getSelectionComponent model _ _) as [c|] eqn:Hget; simpl; [|discriminate].
  intros Hout.
  destruct (domain_field sd c) as [[f ws']|] eqn:Hdf; simpl in Hout; [|discriminate].
  destruct (accessPathWithDatum f _) as [access|] eqn:Hacc; simpl in Hout; [|discriminate].
  injection Hout as <- <-.
  destruct (domain_field_cases sd c) as (_ & Hsome).
  destruct (Hsome f ws' Hdf) as (Hlen & Horigin).
  split; [assumption|]. exists sd. split; [reflexivity|]. right. split; [exact Hown|].
  exists c, f. split; [exact Hget|]. split; [exact Hacc|].
  destruct Horigin as [(Hf & _)|(_ & p0 & rest & Hitems & Hcase)]; [now left|].
  right. rewrite Hitems.
  destruct Hcase as [(_ & e & Hfil & ->)|(_ & ->)].
  - apply in_map.
    assert (He : In e (List.filter
                         (fun p => bool_decide (p_channel p = Some (default "" (sd_encoding sd))))
                         (p0 :: rest))) by (rewrite Hfil; now left).
    apply List.filter_In in He. tauto.
  - now left.
Qed.

End ScaleDomainMore.

(** X18 on the sample view and a payload whose field [a[] is no path:
    the fourth case. *)
Lemma assembleSelectionScaleDomain_fails_iff_witness :
  Assemble.assembleSelectionScaleDomain (H := Sample.external) Sample.scale_view
    {| signal := "_selection_domain_brush:a[" |} = None.
Proof.
  apply (assembleSelectionScaleDomain_fails_iff (H := Sample.external)).
  right. exists {| sd_selection := "brush"; sd_encoding := None; sd_field := Some "a[" |}.
  split; [reflexivity|]. split; [reflexivity|]. right. exists Sample.brush.
  split; [reflexivity|]. right. exists "a[". split; [reflexivity|].
  left. split; [reflexivity|discriminate].
Defined.

(** X19 on the sample view and the payload for the channel [x] of
    [brush]: no warning, and the field [a] that [brush] projects. *)
Lemma assembleSelectionScaleDomain_returns_witness :
  length (@nil string) <= 1 /\
  exists selDomain,
    Sample.sample_parse "brush.x" = Some selDomain /\
    (is_Some (own_selection (sd_selection selDomain) (selection Sample.scale_view)) /\
     {| signal := "brush[" +:+ Sample.quote "a" +:+ "]" |} = {| signal := "null" |} /\
     length (@nil string) = 1
     \/
     own_selection (sd_selection selDomain) (selection Sample.scale_view) = None /\
     exists selCmpt f,
       getSelectionComponent Sample.scale_view (sd_selection selDomain)
         (sd_selection selDomain) = Some selCmpt /\
       Sample.sample_access f (sd_selection selDomain) =
       Some ("brush[" +:+ Sample.quote "a" +:+ "]") /\
       (sd_field selDomain = Some f \/ In f (map p_field (items (project selCmpt))))).
Proof.
  apply (assembleSelectionScaleDomain_returns (H := Sample.external) Sample.scale_view
           {| signal := "_selection_domain_brush.x" |}
           {| signal := "brush[" +:+ Sample.quote "a" +:+ "]" |} []).
  reflexivity.
Defined.

(** ** The top-level signals *)

Section TopLevelSignals.
Context `{External} `{TopLevel}.
Import Assemble.

Lemma signals_named_nil (nm : string) (signals : list TopLevelSignal) :
  signals_named nm signals = [] <-> ~ In nm (map ts_name signals).
Proof.
  unfold signals_named. induction signals as [|s l IH]; simpl; [tauto|].
  destruct (String.eqb_spec (ts_name s) nm) as [Heq|Hne].
  - split; [discriminate|]. intros Hn. exfalso. apply Hn. now left.
  - rewrite IH. tauto.
Qed.

Lemma signals_named_cons (nm : string) (signals : list TopLevelSignal)
    (s : TopLevelSignal) (l : list TopLevelSignal) :
  signals_named nm signals = s :: l -> In nm (map ts_name signals).
Proof.
  intros Hn. assert (Hin : In s (signals_named nm signals)) by (rewrite Hn; now left).
  apply List.filter_In in Hin as [Hin Heq]. apply String.eqb_eq in Heq. subst nm.
  now apply in_map.
Qed.

Lemma push_resolution_spec (signals : list TopLevelSignal) (c : SelectionComponent) :
  (In (name c) (map ts_name signals) /\ push_resolution signals c = signals) \/
  (~ In (name c) (map ts_name signals) /\
   push_resolution signals c = signals ++ [resolution_signal c]).
Proof.
  unfold push_resolution.
  destruct (signals_named (name c) signals) as [|s l] eqn:Hn.
  - right. split; [now apply signals_named_nil|reflexivity].
  - left. split; [now apply (signals_named_cons _ _ s l)|reflexivity].
Qed.

(** The pass over the selections by the guarded push alone. *)
Lemma fold_push_resolution (sels : list SelectionComponent)
    (signals : list TopLevelSignal) :
  exists added,
    fold_left push_resolution sels signals = signals ++ added /\
    (List.NoDup (map ts_name signals) -> List.NoDup (map ts_name (signals ++ added))) /\
    (forall c, In c sels -> In (name c) (map ts_name (signals ++ added))).
Proof.
  revert signals. induction sels as [|c sels IH]; intros signals.
  - exists []. rewrite app_nil_r. split; [reflexivity|]. split; [auto|]. intros c [].
  - cbn [fold_left].
    destruct (IH (push_resolution signals c)) as (added & Hfold & Hnd & Hall).
    destruct (push_resolution_spec signals c) as [[Hin Hpush]|[Hnin Hpush]];
      rewrite Hpush in *.
    + exists added. split; [assumption|]. split; [assumption|].
      intros c' [<-|Hc']; [|now apply Hall].
      rewrite map_app, in_app_iff. now left.
    + exists (resolution_signal c :: added). rewrite <- app_assoc in *. simpl in *.
      split; [assumption|]. split.
      * intros Hs. apply Hnd. rewrite map_app. simpl.
        apply NoDup_ListNoDup, NoDup_app. split; [now apply NoDup_ListNoDup|].
        split; [|apply NoDup_singleton].
        intros x Hx Hx'. apply list_elem_of_singleton in Hx'. subst x.
        apply Hnin. now apply list_elem_of_In.
      * intros c' [<-|Hc']; [|now apply Hall].
        rewrite map_app, in_app_iff. right. now left.
Qed.

Lemma fold_push_resolution_fixed (sels : list SelectionComponent)
    (signals : list TopLevelSignal) :
  (forall c, In c sels -> In (name c) (map ts_name signals)) ->
  fold_left push_resolution sels signals = signals.
Proof.
  induction sels as [|c sels IH]; intros Hall; [reflexivity|].
  cbn [fold_left].
  destruct (push_resolution_spec signals c) as [[_ ->]|[Hnin _]].
  - apply IH. intros c' Hc'. apply Hall. now right.
  - exfalso. apply Hnin, Hall. now left.
Qed.

(** [hasSelections] after the pass. *)
Lemma fold_top_level_selection_flag (model : Model) (sels : list SelectionComponent)
    (acc : list TopLevelSignal * bool) :
  snd (fold_left (top_level_selection model) sels acc) =
  match sels with [] => snd acc | _ :: _ => true end.
Proof.
  revert acc. induction sels as [|c sels IH]; intros acc; [reflexivity|].
  cbn [fold_left]. rewrite IH. now destruct sels.
Qed.

Lemma fold_top_level_selection_plain (model : Model) (sels : list SelectionComponent)
    (acc : list TopLevelSignal * bool) :
  plain_top_level sels ->
  fst (fold_left (top_level_selection model) sels acc) =
  fold_left push_resolution sels (fst acc).
Proof.
  revert acc. induction sels as [|c sels IH]; intros acc Hplain; [reflexivity|].
  cbn [fold_left]. rewrite IH by (intros c' Hc'; apply Hplain; now right).
  f_equal. unfold top_level_selection. cbn [fst].
  destruct (Hplain c) as [-> Htx]; [now left|].
  induction Htx as [|tx txs -> _ IHtx]; [reflexivity|]. exact IHtx.
Qed.

(** X20. Whatever the compilers and the transforms contribute: for a
    view without selections [assembleTopLevelSignals] returns the
    signals as they came in, and for a view with a selection the signals
    it returns hold a signal named [unit]. *)
Theorem assembleTopLevelSignals_unit (model : Model) (signals : list TopLevelSignal) :
  (selections_of model = [] -> assembleTopLevelSignals model signals = signals) /\
  (selections_of model <> [] ->
     In "unit" (map ts_name (assembleTopLevelSignals model signals))).
Proof.
  split.
  - intros Hnil. unfold assembleTopLevelSignals. rewrite Hnil. reflexivity.
  - intros Hne. unfold assembleTopLevelSignals.
    pose proof (fold_top_level_selection_flag model (selections_of model) (signals, false))
      as Hflag.
    destruct (fold_left _ _ _) as [pass flag]. cbn [snd] in Hflag.
    destruct (selections_of model); [congruence|]. subst flag.
    destruct (signals_named "unit" pass) as [|sg sgs] eqn:Hn; [now left|].
    now apply (signals_named_cons _ _ sg sgs).
Qed.

Lemma assembleTopLevelSignals_plain (model : Model) (signals : list TopLevelSignal) :
  plain_top_level (selections_of model) ->
  assembleTopLevelSignals model signals =
  match selections_of model with
  | [] => signals
  | _ :: _ =>
      let pass := fold_left push_resolution (selections_of model) signals in
      match signals_named "unit" pass with
      | [] => unit_signal :: pass
      | _ :: _ => pass
      end
  end.
Proof.
  intros Hplain. unfold assembleTopLevelSignals.
  pose proof (fold_top_level_selection_flag model (selections_of model) (signals, false))
    as Hflag.
  pose proof (fold_top_level_selection_plain model (selections_of model) (signals, false)
                Hplain) as Hpass.
  destruct (fold_left (top_level_selection model) _ _) as [pass flag].
  cbn [fst snd] in Hflag, Hpass. subst pass flag.
  now destruct (selections_of model).
Qed.

(** The pass by the guarded push alone, with the selections whose
    resolution signal it pushes. *)
Lemma fold_push_resolution_pushed (sels : list SelectionComponent)
    (signals : list TopLevelSignal) :
  exists pushed,
    fold_left push_resolution sels signals = signals ++ map resolution_signal pushed /\
    sublist pushed sels /\
    List.NoDup (map name pushed) /\
    (forall c, In c pushed -> ~ In (name c) (map ts_name signals)).
Proof.
  revert signals. induction sels as [|c sels IH]; intros signals.
  - exists []. cbn [fold_left map]. rewrite app_nil_r.
    split; [reflexivity|]. split; [constructor|]. split; [constructor|]. intros c [].
  - cbn [fold_left].
    destruct (IH (push_resolution signals c)) as (pushed & Hfold & Hsub & Hnd & Hnew).
    destruct (push_resolution_spec signals c) as [[Hin Hpush]|[Hnin Hpush]];
      rewrite Hpush in *.
    + exists pushed. split; [assumption|]. split; [now apply sublist_cons|].
      split; assumption.
    + exists (c :: pushed). rewrite <- app_assoc in Hfold.
      split; [exact Hfold|]. split; [now apply sublist_skip|]. split.
      * cbn [map]. constructor; [|assumption].
        intros Hc. apply in_map_iff in Hc as (c' & Hname & Hc').
        apply (Hnew c' Hc'). rewrite map_app, in_app_iff. right. left.
        cbn [resolution_signal ts_name]. now rewrite Hname.
      * intros c' [<-|Hc']; [assumption|].
        intros Hin. apply (Hnew c' Hc'). rewrite map_app, in_app_iff. now left.
Qed.

(** X21. When no compiler and no transform contributes top-level
    signals of its own, [assembleTopLevelSignals] keeps the signals that
    came in, in their order, and puts behind them the resolution signals
    it pushes: one for each name of a selection of the view that no
    signal had, in the order of the selections, each with the call of
    the resolve function on the store of the selection as its update,
    the resolution as second argument unless it is global.  Before them
    it puts the [unit] signal, exactly when the view has a selection and
    no signal is named [unit].  A signal of the name of every selection
    is left, names that were distinct stay distinct, and assembling the
    result once more changes nothing. *)
Theorem assembleTopLevelSignals_idempotent (model : Model)
    (signals : list TopLevelSignal) :
  plain_top_level (selections_of model) ->
  let out := assembleTopLevelSignals model signals in
  assembleTopLevelSignals model out = out
  /\ (List.NoDup (map ts_name signals) -> List.NoDup (map ts_name out))
  /\ (forall c, In c (selections_of model) -> In (name c) (map ts_name out))
  /\ (exists pre pushed,
        out = pre ++ signals ++
              map (fun c =>
                     {| ts_name := name c;
                        ts_value := None;
                        ts_on := [];
                        ts_update :=
                          Some (VL_SELECTION_RESOLVE +:+ "(" +:+
                                stringValue (name c +:+ "_store") +:+
                                match resolve c with
                                | Global => ")"
                                | Union => ", " +:+ stringValue "union" +:+ ")"
                                | Intersect => ", " +:+ stringValue "intersect" +:+ ")"
                                end) |}) pushed
        /\ sublist pushed (selections_of model)
        /\ List.NoDup (map name pushed)
        /\ (forall c, In c pushed -> ~ In (name c) (map ts_name signals))
        /\ (forall c, In c (selections_of model) ->
              In (name c) (map ts_name signals) \/ In (name c) (map name pushed))
        /\ (selections_of model <> [] ->
            ~ In "unit" (map ts_name signals ++ map name pushed) ->
            pre = [ {| ts_name := "unit";
                       ts_value := Some EmptyObject;
                       ts_on := [ {| events := EventSelector "mousemove";
                                     update := "isTuple(group()) ? group() : unit" |} ];
                       ts_update := None |} ])
        /\ (selections_of model = [] \/
            In "unit" (map ts_name signals ++ map name pushed) ->
            pre = [])).
Proof.
  intros Hplain out. subst out.
  rewrite !(assembleTopLevelSignals_plain model) by assumption.
  assert (Hnames : forall cs, map ts_name (map resolution_signal cs) = map name cs).
  { intros cs. rewrite map_map. reflexivity. }
  destruct (selections_of model) as [|c0 sels] eqn:Hs.
  { split; [reflexivity|]. split; [auto|]. split; [intros c []|].
    exists [], []. cbn [map app]. rewrite app_nil_r.
    split; [reflexivity|]. split; [constructor|]. split; [constructor|].
    split; [intros c []|]. split; [intros c []|].
    split; [intros Hne; now destruct Hne|reflexivity]. }
  cbn zeta.
  destruct (fold_push_resolution (c0 :: sels) signals) as (added & Hfold & Hnd & Hall).
  destruct (fold_push_resolution_pushed (c0 :: sels) signals)
    as (pushed & Hfold' & Hsub & Hndp & Hnew).
  assert (Hadded : added = map resolution_signal pushed).
  { rewrite Hfold in Hfold'. now apply app_inv_head in Hfold'. }
  subst added. rewrite Hfold.
  assert (Hcover : forall c, In c (c0 :: sels) ->
            In (name c) (map ts_name signals) \/ In (name c) (map name pushed)).
  { intros c Hc. specialize (Hall c Hc). rewrite map_app, in_app_iff, Hnames in Hall.
    exact Hall. }
  destruct (signals_named "unit" (signals ++ map resolution_signal pushed)) as [|u us]
    eqn:Hunit.
  - assert (Hfix : fold_left push_resolution (c0 :: sels)
                     (unit_signal :: signals ++ map resolution_signal pushed)
                   = unit_signal :: signals ++ map resolution_signal pushed).
    { apply fold_push_resolution_fixed. intros c Hc. simpl. right. now apply Hall. }
    rewrite Hfix. split; [reflexivity|]. split; [|split].
    + intros Hs'. simpl. constructor; [|now apply Hnd].
      now apply signals_named_nil.
    + intros c Hc. simpl. right. now apply Hall.
    + exists [unit_signal], pushed.
      split; [reflexivity|]. split; [assumption|]. split; [assumption|].
      split; [assumption|]. split; [assumption|].
      split; [reflexivity|]. intros [Hnil|Hin]; [discriminate|].
      apply signals_named_nil in Hunit. rewrite map_app, Hnames in Hunit.
      contradiction.
  - assert (Hfix : fold_left push_resolution (c0 :: sels)
                     (signals ++ map resolution_signal pushed)
                   = signals ++ map resolution_signal pushed).
    { apply fold_push_resolution_fixed. exact Hall. }
    rewrite Hfix, Hunit. split; [reflexivity|]. split; [assumption|]. split; [assumption|].
    exists [], pushed.
    split; [reflexivity|]. split; [assumption|]. split; [assumption|].
    split; [assumption|]. split; [assumption|].
    split; [|reflexivity]. intros _ Hn. exfalso.
    apply Hn. rewrite <- Hnames, <- map_app.
    now apply (signals_named_cons _ _ u us).
Qed.

End TopLevelSignals.


(** X21 on a view with the selections [brush] (global) and [pick]
    (union), from the one signal [brush] that a layer below has left:
    the [unit] signal is put before it, the resolution signal of [pick]
    behind it, and a second assembly adds nothing. *)
Lemma assembleTopLevelSignals_idempotent_witness :
  @Assemble.assembleTopLevelSignals Sample.external Sample.top_level Sample.two_selections
    [ {| ts_name := "brush"; ts_value := None; ts_on := [];
         ts_update := Some ("vlSelectionResolve(" +:+ Sample.quote "brush_store" +:+ ")") |} ] =
  [ {| ts_name := "unit"; ts_value := Some EmptyObject;
       ts_on := [ {| events := EventSelector "mousemove";
                     update := "isTuple(group()) ? group() : unit" |} ];
       ts_update := None |};
    {| ts_name := "brush"; ts_value := None; ts_on := [];
       ts_update := Some ("vlSelectionResolve(" +:+ Sample.quote "brush_store" +:+ ")") |};
    {| ts_name := "pick"; ts_value := None; ts_on := [];
       ts_update := Some ("vlSelectionResolve(" +:+ Sample.quote "pick_store" +:+ ", " +:+
                          Sample.quote "union" +:+ ")") |} ] /\
  @Assemble.assembleTopLevelSignals Sample.external Sample.top_level Sample.two_selections
    (@Assemble.assembleTopLevelSignals Sample.external Sample.top_level
       Sample.two_selections []) =
  @Assemble.assembleTopLevelSignals Sample.external Sample.top_level Sample.two_selections [].
Proof.
  split; [reflexivity|].
  destruct (@assembleTopLevelSignals_idempotent Sample.external Sample.top_level
              Sample.two_selections []) as (Hidem & _).
  - intros c _. split; [reflexivity|]. repeat constructor.
  - exact Hidem.
Defined.
